(** * ENPWA: the synchronization and storage engine of [app.js]

    A shallow embedding of the offline Reddit reader's core: the
    normalization of fetched posts, the rate limiter, the sync queue and
    its scheduling pass, the staging / apply merge with its
    de-duplication, and the two eviction paths; then what surrounds
    them: saving and loading the state, the storage quota, and the
    user's actions on starred posts, followed subreddits and block
    lists, with the list of posts that is put on the page.

    Conventions of the embedding:
    - a JS value that may be [undefined] or [null] is an [option];
    - [Set]s of ids are [gset]s, the [lastFetch] objects are [gmap]s;
    - [Date.now()] is an explicit millisecond clock of type [Z];
      timers and the network are the inputs of an explicit environment;
    - [localStorage] is an input of the environment too: [saveState] is
      modelled with what [localStorage.setItem] answers, and with the
      eviction that a refused write runs, where [cleanupOldPosts] and the
      scheduler's pass call it; the [saveState()] of
      [applyPendingUpdates], of the age-based cleanup and of the user's
      actions, and the one that the timer of [debouncedSave] runs, are
      followed on the path where the write is accepted, where it leaves
      the in-memory state untouched;
    - DOM updates and console output are not part of the state and are
      left out; of the toast for new posts the state keeps whether
      [state.newPostsToast] holds one. *)

From Stdlib Require Import Ascii QArith Qround.
From stdpp Require Import base decidable option list gmap strings pretty sorting.

Local Open Scope Z_scope.

(* ===================================================================== *)
(** ** Configuration ([CONFIG], [SYNC_CONFIG])                           *)
(* ===================================================================== *)

Definition REQUESTS_PER_MINUTE : Z := 50.
Definition REQUEST_INTERVAL : Z := 1200.
Definition MAX_RETRIES : nat := 3.
Definition RATE_LIMIT_RESET_INTERVAL : Z := 60 * 1000.
Definition REQUEST_TIMEOUT : Z := 15000.
Definition CLEANUP_THRESHOLD : Q := 90%Q.
Definition MAX_POST_AGE_DAYS : Z := 30.
Definition IMAGE_MIN_WIDTH : Z := 640.
Definition IMAGE_MAX_WIDTH : Z := 960.
Definition RETRY_DELAY_MS : Z := 1000.

(* ===================================================================== *)
(** ** Strings                                                           *)
(* ===================================================================== *)

(** [String.prototype.toLowerCase] on strings of ASCII characters, which
    the names of subreddits are: the letters [A] to [Z] are folded, every
    other character is left as it is. A string holds a character
    outside ASCII as bytes, which are left as they are too: on such a
    character the function is not the one of JS. *)
Definition lower_ascii (c : Ascii.ascii) : Ascii.ascii :=
  let n := Ascii.nat_of_ascii c in
  if bool_decide (65 <= n <= 90)%nat then Ascii.ascii_of_nat (n + 32) else c.

Fixpoint toLowerCase (s : string) : string :=
  match s with
  | EmptyString => EmptyString
  | String c s' => String (lower_ascii c) (toLowerCase s')
  end.

Fixpoint string_drop (n : nat) (s : string) : string :=
  match n, s with
  | O, _ => s
  | S _, EmptyString => EmptyString
  | S k, String _ s' => string_drop k s'
  end.

(** [s.replace(/&amp;/g, '&')]: every occurrence, left to right, the
    replaced text is not scanned again. [skip] counts the characters of
    a match that are still to be dropped. *)
Fixpoint replace_amp_from (skip : nat) (s : string) : string :=
  match s with
  | EmptyString => EmptyString
  | String c s' =>
      match skip with
      | S k => replace_amp_from k s'
      | O => if String.prefix "&amp;" s
             then String "&"%char (replace_amp_from 4 s')
             else String c (replace_amp_from 0 s')
      end
  end.

Definition replace_amp (s : string) : string := replace_amp_from 0 s.

Definition is_digit (c : Ascii.ascii) : bool :=
  let n := Ascii.nat_of_ascii c in bool_decide (48 <= n <= 57)%nat.

(** Number of leading decimal digits of [s]. *)
Fixpoint count_digits (s : string) : nat :=
  match s with
  | String c s' => if is_digit c then S (count_digits s') else O
  | EmptyString => O
  end.

(** Length of the match of [/DASH_\d+\.mp4/] anchored at the start of
    [s], if there is one. The digits are taken greedily; since the
    character after them has to be a dot, no shorter run can match. *)
Definition match_dash (s : string) : option nat :=
  if String.prefix "DASH_" s then
    let r := string_drop 5 s in
    let d := count_digits r in
    if bool_decide (0 < d)%nat && String.prefix ".mp4" (string_drop d r)
    then Some (5 + d + 4)%nat else None
  else None.

(** [s.replace(/DASH_\d+\.mp4/, 'DASH_AUDIO.mp4')]: the first match only. *)
Fixpoint replace_dash (s : string) : string :=
  match match_dash s with
  | Some n => "DASH_AUDIO.mp4" +:+ string_drop n s
  | None => match s with
            | EmptyString => EmptyString
            | String c s' => String c (replace_dash s')
            end
  end.

(** JS truthiness of a possibly missing string: [undefined] and the
    empty string are falsy. *)
Definition truthy (o : option string) : option string :=
  match o with
  | Some EmptyString => None
  | _ => o
  end.

(* ===================================================================== *)
(** ** Posts and the normalization step ([stripPostData])                *)
(* ===================================================================== *)

(** The compact post record that [stripPostData] builds and that the
    feeds store. [post_id] is [None] when the payload had no [id]. *)
Record Post := {
  post_id : option string;
  title : string;
  author : string;
  post_subreddit : string;
  permalink : string;
  created_utc : Z;
  ups : Z;
  num_comments : Z;
  selftext : string;
  url : string;
  is_video : bool;
  gallery : option (list string);
  video_url : option string;
  audio_url : option string
}.

(** The parts of a listing entry ([child.data]) that [stripPostData]
    reads. *)
Record GalleryRes := { gr_u : option string; gr_x : Z }.
Record GalleryMedia := { gm_p : option (list GalleryRes); gm_s : option GalleryRes }.
Record PreviewRes := { pr_url : option string; pr_width : Z }.
Record PreviewImage := { resolutions : option (list PreviewRes); source : option PreviewRes }.
Record RedditVideo := { fallback_url : option string; dash_url : option string }.

Record RawPost := {
  raw_id : option string;
  raw_title : string;
  raw_author : string;
  raw_subreddit : string;
  raw_permalink : string;
  raw_created_utc : Z;
  raw_ups : Z;
  raw_num_comments : Z;
  raw_selftext : option string;
  raw_url : option string;
  raw_is_video : bool;
  gallery_data : option (list string);          (* items[].media_id *)
  media_metadata : option (gmap string GalleryMedia);
  preview_images : option (list PreviewImage);  (* preview?.images *)
  reddit_video : option RedditVideo             (* media?.reddit_video *)
}.

Definition in_band (w : Z) : bool :=
  bool_decide (IMAGE_MIN_WIDTH <= w) && bool_decide (w <= IMAGE_MAX_WIDTH).

(** [a || b] on possibly missing objects. *)
Definition or_else {A} (a b : option A) : option A :=
  match a with Some _ => a | None => b end.

Definition galleryItemUrl (meta : gmap string GalleryMedia) (media_id : string)
  : option string :=
  let media := meta !! media_id in
  let from_p :=
    m ← media; rs ← gm_p m;
    r ← or_else (List.find (fun r => in_band (gr_x r)) rs) (last rs);
    u ← truthy (gr_u r); Some (replace_amp u) in
  let from_s :=
    m ← media; r ← gm_s m; u ← truthy (gr_u r); Some (replace_amp u) in
  or_else from_p from_s.

Definition stripGallery (post : RawPost) : option (list string) :=
  match gallery_data post, media_metadata post with
  | Some items, Some meta => Some (omap (galleryItemUrl meta) items)
  | _, _ =>
      match preview_images post with
      | Some (img :: _) =>
          let rs := default [] (resolutions img) in
          r ← or_else (or_else (List.find (fun r => in_band (pr_width r)) rs) (last rs))
                      (source img);
          u ← truthy (pr_url r); Some [replace_amp u]
      | _ => None
      end
  end.

Definition stripPostData (post : RawPost) : Post :=
  let video := if raw_is_video post then reddit_video post else None in
  {| post_id := raw_id post;
     title := raw_title post;
     author := raw_author post;
     post_subreddit := raw_subreddit post;
     permalink := raw_permalink post;
     created_utc := raw_created_utc post;
     ups := raw_ups post;
     num_comments := raw_num_comments post;
     selftext := default EmptyString (truthy (raw_selftext post));
     url := default EmptyString (truthy (raw_url post));
     is_video := raw_is_video post;
     gallery := stripGallery post;
     video_url := v ← video; or_else (truthy (fallback_url v)) (dash_url v);
     audio_url := v ← video; u ← truthy (fallback_url v); Some (replace_dash u) |}.

(** The parse step of [fetchFeed] / [fetchFeedWithRetry]:
    [data.data.children.map(child => stripPostData(child.data))]. *)
Definition normalizeListing (children : list RawPost) : list Post :=
  stripPostData <$> children.

(* ===================================================================== *)
(** ** The application state ([state])                                   *)
(* ===================================================================== *)

Record PendingPosts := { pending_posts : list Post; count : nat }.

Record Feed := {
  posts : list Post;
  pending : PendingPosts;
  lastFetch : gmap string Z;
  currentPage : nat
}.

Record StarredFeed := { starred_posts : list Post; starred_currentPage : nat }.

(** [state.feeds]; [filtered] is the cache [state.feeds.popular.filtered]. *)
Record Feeds := {
  my : Feed;
  popular : Feed;
  filtered : list Post;
  starred : StarredFeed
}.

Inductive JobStatus := Pending | Processing | Failed | FailedMaxRetries | Completed.

Record Job := {
  job_id : string;
  job_type : string;
  job_subreddit : option string;
  status : JobStatus;
  retries : nat;
  timestamp : Z;
  startTime : option Z
}.

Record RateLimitState := {
  lastRequestTime : Z;
  remainingRequests : Z;
  resetTime : Z;
  requestCount : Z
}.

Record State := {
  feeds : Feeds;
  subreddits : list string;
  blocked : list string;
  blockedUsers : list string;
  current : string;
  state_filter : string;
  rateLimitState : RateLimitState;
  syncQueue : list Job;
  isProcessingQueue : bool;
  countrySuggestions : list string;
  selectedCountry : option string;
  storageQuota : Q;
  newPostsToast : bool;
  updateAvailable : bool
}.

#[global] Instance JobStatus_eq_dec : EqDecision JobStatus.
Proof. solve_decision. Defined.

(** The two feeds that have a staging area. *)
Inductive FeedType := MyFeed | PopularFeed.

Definition getFeed (feedType : FeedType) (fs : Feeds) : Feed :=
  match feedType with MyFeed => my fs | PopularFeed => popular fs end.

Definition setFeed (feedType : FeedType) (f : Feed) (fs : Feeds) : Feeds :=
  match feedType with
  | MyFeed => {| my := f; popular := popular fs; filtered := filtered fs; starred := starred fs |}
  | PopularFeed => {| my := my fs; popular := f; filtered := filtered fs; starred := starred fs |}
  end.

Definition set_posts (ps : list Post) (f : Feed) : Feed :=
  {| posts := ps; pending := pending f; lastFetch := lastFetch f; currentPage := currentPage f |}.

Definition set_filtered (ps : list Post) (fs : Feeds) : Feeds :=
  {| my := my fs; popular := popular fs; filtered := ps; starred := starred fs |}.

Definition set_feeds (fs : Feeds) (s : State) : State :=
  {| feeds := fs; subreddits := subreddits s; blocked := blocked s;
     blockedUsers := blockedUsers s; current := current s;
     state_filter := state_filter s; rateLimitState := rateLimitState s;
     syncQueue := syncQueue s; isProcessingQueue := isProcessingQueue s;
     countrySuggestions := countrySuggestions s;
     selectedCountry := selectedCountry s; storageQuota := storageQuota s;
     newPostsToast := newPostsToast s; updateAvailable := updateAvailable s |}.

Definition set_rateLimitState (r : RateLimitState) (s : State) : State :=
  {| feeds := feeds s; subreddits := subreddits s; blocked := blocked s;
     blockedUsers := blockedUsers s; current := current s;
     state_filter := state_filter s; rateLimitState := r;
     syncQueue := syncQueue s; isProcessingQueue := isProcessingQueue s;
     countrySuggestions := countrySuggestions s;
     selectedCountry := selectedCountry s; storageQuota := storageQuota s;
     newPostsToast := newPostsToast s; updateAvailable := updateAvailable s |}.

Definition set_syncQueue (q : list Job) (s : State) : State :=
  {| feeds := feeds s; subreddits := subreddits s; blocked := blocked s;
     blockedUsers := blockedUsers s; current := current s;
     state_filter := state_filter s; rateLimitState := rateLimitState s;
     syncQueue := q; isProcessingQueue := isProcessingQueue s;
     countrySuggestions := countrySuggestions s;
     selectedCountry := selectedCountry s; storageQuota := storageQuota s;
     newPostsToast := newPostsToast s; updateAvailable := updateAvailable s |}.

Definition set_isProcessingQueue (b : bool) (s : State) : State :=
  {| feeds := feeds s; subreddits := subreddits s; blocked := blocked s;
     blockedUsers := blockedUsers s; current := current s;
     state_filter := state_filter s; rateLimitState := rateLimitState s;
     syncQueue := syncQueue s; isProcessingQueue := b;
     countrySuggestions := countrySuggestions s;
     selectedCountry := selectedCountry s; storageQuota := storageQuota s;
     newPostsToast := newPostsToast s; updateAvailable := updateAvailable s |}.

(** [state.newPostsToast = toast]: [true] when the field holds a toast. *)
Definition set_newPostsToast (b : bool) (s : State) : State :=
  {| feeds := feeds s; subreddits := subreddits s; blocked := blocked s;
     blockedUsers := blockedUsers s; current := current s;
     state_filter := state_filter s; rateLimitState := rateLimitState s;
     syncQueue := syncQueue s; isProcessingQueue := isProcessingQueue s;
     countrySuggestions := countrySuggestions s;
     selectedCountry := selectedCountry s; storageQuota := storageQuota s;
     newPostsToast := b; updateAvailable := updateAvailable s |}.

(** Ids of a list of posts, [posts.map(p => p.id)]. *)
Definition ids (ps : list Post) : list (option string) := post_id <$> ps.

(* ===================================================================== *)
(** ** Merger / de-duplicator                                            *)
(* ===================================================================== *)

(** [!subreddit || p.subreddit.toLowerCase() === subreddit.toLowerCase()] *)
Definition fromSource (subreddit : option string) (p : Post) : bool :=
  match truthy subreddit with
  | None => true
  | Some sub => bool_decide (toLowerCase (post_subreddit p) = toLowerCase sub)
  end.

(** The set [existingIds] of [getNewPostsOnly]: the ids of the applied
    and of the staged posts, of the given subreddit when there is one. *)
Definition existingIds (subreddit : option string) (feed : Feed) : gset (option string) :=
  list_to_set (ids (filter (fromSource subreddit) (posts feed))
               ++ ids (filter (fromSource subreddit) (pending_posts (pending feed)))).

Definition getNewPostsOnly (fetchedPosts : list Post) (subreddit : option string)
    (feed : Feed) : list Post :=
  filter (fun p => post_id p ∉ existingIds subreddit feed) fetchedPosts.

(** [Math.max(...l)] of a list with first element [x]. *)
Definition mathMax (x : Z) (l : list Z) : Z := foldr Z.max x l.

(** [addPostsToPending]. The calls are chained on [pendingPostsLock], so
    each runs to its end before the next starts: one call is one state
    transformer. *)
Definition addPostsToPending (fetched : list Post) (feedType : FeedType)
    (subreddit : option string) (s : State) : State :=
  let feed := getFeed feedType (feeds s) in
  match getNewPostsOnly fetched subreddit feed with
  | [] => s
  | (p :: ps) as newPosts =>
      let staged := pending_posts (pending feed) ++ newPosts in
      let newest := mathMax (created_utc p) (created_utc <$> ps) in
      let lastFetch' :=
        match truthy subreddit, feedType with
        | Some sub, _ => <[sub := newest]> (lastFetch feed)
        | None, PopularFeed => <["_popular" := newest]> (lastFetch feed)
        | None, MyFeed => lastFetch feed
        end in
      set_feeds (setFeed feedType
                   {| posts := posts feed;
                      pending := {| pending_posts := staged; count := length staged |};
                      lastFetch := lastFetch';
                      currentPage := currentPage feed |} (feeds s)) s
  end.

(** [removeDuplicates]: the filter callback threads the [seen] set. *)
Fixpoint removeDuplicates_seen (seen : gset (option string)) (ps : list Post) : list Post :=
  match ps with
  | [] => []
  | post :: rest =>
      if decide (post_id post ∈ seen) then removeDuplicates_seen seen rest
      else post :: removeDuplicates_seen ({[post_id post]} ∪ seen) rest
  end.

Definition removeDuplicates (ps : list Post) : list Post := removeDuplicates_seen ∅ ps.

(** [Array.prototype.sort] with the comparator
    [(a, b) => b.created_utc - a.created_utc]: the sort is stable, so an
    element is placed before the first later element that is not newer. *)
Fixpoint insertByCreated (p : Post) (l : list Post) : list Post :=
  match l with
  | [] => [p]
  | q :: l' => if decide (created_utc p < created_utc q)
               then q :: insertByCreated p l'
               else p :: q :: l'
  end.

Definition sortByCreatedDesc (l : list Post) : list Post := foldr insertByCreated [] l.

Definition rebuildPopularFiltered (s : State) : State :=
  let visible p :=
    negb (existsb (fun b => bool_decide (toLowerCase b = toLowerCase (post_subreddit p)))
                  (blocked s)) in
  set_feeds (set_filtered (filter visible (posts (popular (feeds s)))) (feeds s)) s.

(** The merge of one feed in [applyPendingUpdates]. *)
Definition mergePending (feed : Feed) : Feed :=
  {| posts := sortByCreatedDesc (removeDuplicates (pending_posts (pending feed) ++ posts feed));
     pending := {| pending_posts := []; count := 0 |};
     lastFetch := lastFetch feed;
     currentPage := currentPage feed |}.

(* ===================================================================== *)
(** ** Storage manager: the two eviction paths                           *)
(* ===================================================================== *)

Definition bookmarkedIds (s : State) : gset (option string) :=
  list_to_set (ids (starred_posts (starred (feeds s)))).

(** [getStorageUsagePercent], with [size] the measured
    [getLocalStorageSize()]. *)
Definition getStorageUsagePercent (size : Z) (s : State) : Q :=
  (inject_Z size / storageQuota s * 100)%Q.

(** [Math.ceil(n * 0.2)], in exact arithmetic; for an array length [n]
    the product in doubles has the same ceiling. *)
Definition removeCountOf (n : nat) : nat :=
  Z.to_nat (Qceiling (inject_Z (Z.of_nat n) * 0.2)%Q).

(** The loop of [cleanupOldPosts], over the feed from its tail: it stops
    as soon as [removedIds.size] has reached [removeCount]. *)
Fixpoint collectRemovedIds (bookmarked : gset (option string)) (removeCount : nat)
    (removedIds : gset (option string)) (fromTail : list Post) : gset (option string) :=
  match fromTail with
  | [] => removedIds
  | post :: rest =>
      if decide (size removedIds < removeCount)%nat then
        collectRemovedIds bookmarked removeCount
          (if decide (post_id post ∈ bookmarked) then removedIds
           else {[post_id post]} ∪ removedIds) rest
      else removedIds
  end.

Definition removedIdsOf (s : State) : gset (option string) :=
  collectRemovedIds (bookmarkedIds s) (removeCountOf (length (posts (my (feeds s)))))
    ∅ (reverse (posts (my (feeds s)))).

(** The eviction of [cleanupOldPosts], from the set of pinned ids to the
    two filters: what the function does between its threshold test and
    its closing [saveState()]. *)
Definition evictOldestFifth (s : State) : State :=
  let removedIds := removedIdsOf s in
  let fs := feeds s in
  set_feeds
    {| my := set_posts (filter (fun p => post_id p ∉ removedIds) (posts (my fs))) (my fs);
       popular := set_posts (filter (fun p => post_id p ∉ removedIds) (posts (popular fs)))
                    (popular fs);
       filtered := filtered fs;
       starred := starred fs |} s.

(** What [localStorage.setItem('appState', JSON.stringify(toSave))] does
    with the snapshot of a state. A write that throws leaves
    [localStorage] as it was; [size] is what [getLocalStorageSize()]
    measures then. *)
Inductive SetItem :=
  | Stored                           (* the snapshot is written *)
  | QuotaExceededError (size : Z)    (* [error.name === 'QuotaExceededError'] *)
  | SetItemError.                    (* any other exception *)

(** How a call ends: it returns [a], or the [RangeError] of an exhausted
    call stack leaves it. *)
Inductive Completion (A : Type) :=
  | Returned (a : A)
  | RangeError.
Arguments Returned {A} a.
Arguments RangeError {A}.

(** [cleanupOldPosts], its closing [saveState()] being [save]. *)
Definition cleanupOldPostsWith (save : State -> Completion bool * State)
    (size : Z) (s : State) : Completion unit * State :=
  if Qlt_le_dec (getStorageUsagePercent size s) CLEANUP_THRESHOLD then (Returned (), s)
  else
    match save (evictOldestFifth s) with
    | (Returned _, s') => (Returned (), s')
    | (RangeError, s') => (RangeError, s')
    end.

(** [saveState], with [write] the answer of [localStorage.setItem] to
    the snapshot of each state, and [depth] the number of nested calls of
    [cleanupOldPosts] that the call stack still holds. The handler of a
    [QuotaExceededError] calls [cleanupOldPosts], which ends with
    [saveState()]: the two functions call each other until a write is
    accepted or throws something else, the usage is found below the
    threshold, or the stack is exhausted; the [RangeError] is taken to be
    raised by the call in the handler, which no [try] encloses, so it
    leaves every pending call. The write that the handler tries after the
    cleanup names [toSave], a [const] of the [try] block that is out of
    scope in the handler: it raises a [ReferenceError], which the inner
    [catch] answers with [false]. *)
Fixpoint saveState (write : State -> SetItem) (depth : nat) (s : State)
    : Completion bool * State :=
  match write s with
  | Stored => (Returned true, s)
  | SetItemError => (Returned false, s)
  | QuotaExceededError size =>
      match depth with
      | O => (RangeError, s)
      | S depth' =>
          match cleanupOldPostsWith (saveState write depth') size s with
          | (Returned _, s') => (Returned false, s')
          | (RangeError, s') => (RangeError, s')
          end
      end
  end.

(** [cleanupOldPosts], with [size] the measured [getLocalStorageSize()]. *)
Definition cleanupOldPosts (write : State -> SetItem) (depth : nat) (size : Z) (s : State)
    : Completion unit * State :=
  cleanupOldPostsWith (saveState write depth) size s.

(** [age > maxAge] for [now = Date.now() / 1000], with [maxAgeDays] the
    configured [MAX_POST_AGE_DAYS]. *)
Definition isOldFor (maxAgeDays now_ms : Z) (post : Post) : bool :=
  let now := (inject_Z now_ms / 1000)%Q in
  let maxAge := inject_Z (maxAgeDays * 24 * 60 * 60) in
  let age := (now - inject_Z (created_utc post))%Q in
  if Qlt_le_dec maxAge age then true else false.

(** The filter callback of [cleanupOldPostsByAge]: [false] drops the post. *)
Definition keptByAgeFor (maxAgeDays now_ms : Z) (bookmarked : gset (option string))
    (post : Post) : bool :=
  negb (isOldFor maxAgeDays now_ms post && negb (bool_decide (post_id post ∈ bookmarked))).

Definition cleanupOldPostsByAgeFor (maxAgeDays now_ms : Z) (s : State) : State :=
  let bookmarked := bookmarkedIds s in
  let fs := feeds s in
  set_feeds
    {| my := set_posts (filter (keptByAgeFor maxAgeDays now_ms bookmarked) (posts (my fs)))
               (my fs);
       popular := set_posts (filter (keptByAgeFor maxAgeDays now_ms bookmarked)
                               (posts (popular fs))) (popular fs);
       filtered := filtered fs;
       starred := starred fs |} s.

(** The same at the configured maximum age. *)
Definition isOld (now_ms : Z) (post : Post) : bool := isOldFor MAX_POST_AGE_DAYS now_ms post.

Definition keptByAge (now_ms : Z) (bookmarked : gset (option string)) (post : Post) : bool :=
  keptByAgeFor MAX_POST_AGE_DAYS now_ms bookmarked post.

Definition cleanupOldPostsByAge (now_ms : Z) (s : State) : State :=
  cleanupOldPostsByAgeFor MAX_POST_AGE_DAYS now_ms s.

(** [applyPendingUpdates], at clock [now_ms]: each feed with staged posts
    is merged, then the age-based cleanup runs. *)
Definition applyPendingUpdates (now_ms : Z) (s : State) : State :=
  let s1 :=
    match pending_posts (pending (my (feeds s))) with
    | [] => s
    | _ :: _ => set_feeds (setFeed MyFeed (mergePending (my (feeds s))) (feeds s)) s
    end in
  let s2 :=
    match pending_posts (pending (popular (feeds s1))) with
    | [] => s1
    | _ :: _ =>
        rebuildPopularFiltered
          (set_feeds (setFeed PopularFeed (mergePending (popular (feeds s1))) (feeds s1)) s1)
    end in
  cleanupOldPostsByAge now_ms s2.

(* ===================================================================== *)
(** ** The environment: clock, timers, network                           *)
(* ===================================================================== *)

Inductive FetchError :=
  | Timeout                       (* AbortError after REQUEST_TIMEOUT *)
  | NetworkError (msg : string)   (* fetch rejects *)
  | RateLimited                   (* HTTP 429 *)
  | HttpError (status : Z)        (* !response.ok *)
  | MalformedResponse             (* the payload does not parse *)
  | UnknownError.                 (* no attempt was made *)

(** What one call of [fetch] comes back with. *)
Inductive Response :=
  | Aborted                       (* no answer within REQUEST_TIMEOUT *)
  | Rejected (msg : string)       (* network failure *)
  | Answered (status : Z)
             (x_ratelimit_remaining x_ratelimit_reset : option Z)
             (children : option (list (option RawPost))).
             (* [None]: [response.json()] or [data.data.children] fails;
                a [None] child has no [data] *)

(** The [k]-th request for [/r/<sub>.json], how long it takes, and by
    how much the [k]-th timer fires late; and the storage that
    [saveState] writes to. *)
Record Env := {
  net : option string -> nat -> Response;
  latency : nat -> N;
  overshoot : nat -> N;
  setItem : State -> SetItem;   (* [localStorage.setItem] on the snapshot of a state *)
  stackDepth : nat              (* nested cleanups that the call stack holds *)
}.

(** Events recorded along a run (a ghost log, newest last). *)
Inductive Event :=
  | EvReset (t : Z)                  (* the window was reset at [t] *)
  | EvReserve (t : Z)                (* a request was reserved at [t] *)
  | EvStart (i : nat) (n : nat)      (* queue slot [i] starts, [retries] now [n] *)
  | EvFinish (i : nat) (ok : bool)   (* queue slot [i] completed or failed *)
  | EvGiveUp (i : nat).              (* queue slot [i] marked failed_max_retries *)

Record World := {
  st : State;
  clock : Z;          (* Date.now() *)
  requests : nat;     (* fetch calls issued so far *)
  timers : nat;       (* timers awaited so far *)
  trace : list Event
}.

Definition set_st (s : State) (w : World) : World :=
  {| st := s; clock := clock w; requests := requests w; timers := timers w;
     trace := trace w |}.

Definition emit (e : Event) (w : World) : World :=
  {| st := st w; clock := clock w; requests := requests w; timers := timers w;
     trace := trace w ++ [e] |}.

(** [await new Promise(resolve => setTimeout(resolve, ms))] *)
Definition sleep (env : Env) (ms : Z) (w : World) : World :=
  {| st := st w;
     clock := clock w + Z.max 0 ms + Z.of_N (overshoot env (timers w));
     requests := requests w; timers := S (timers w); trace := trace w |}.

(* ===================================================================== *)
(** ** Rate limiter                                                      *)
(* ===================================================================== *)

(** The window reset at the top of the loop of [waitForRateLimit]. *)
Definition resetIfExpired (w : World) : World :=
  let rl := rateLimitState (st w) in
  if decide (resetTime rl <= clock w) then
    emit (EvReset (clock w))
      (set_st (set_rateLimitState
                 {| lastRequestTime := lastRequestTime rl;
                    remainingRequests := REQUESTS_PER_MINUTE;
                    resetTime := clock w + RATE_LIMIT_RESET_INTERVAL;
                    requestCount := 0 |} (st w)) w)
  else w.

(** [waitForRateLimit]: [fuel] bounds the iterations of [while (true)]. *)
Fixpoint waitForRateLimit_loop (env : Env) (fuel : nat) (w : World) : option World :=
  match fuel with
  | O => None
  | S fuel' =>
      let now := clock w in
      let w1 := resetIfExpired w in
      let rl := rateLimitState (st w1) in
      if decide (0 < remainingRequests rl) then
        let timeSinceLastRequest := now - lastRequestTime rl in
        if decide (REQUEST_INTERVAL <= timeSinceLastRequest) then Some w1
        else Some (sleep env (REQUEST_INTERVAL - timeSinceLastRequest) w1)
      else
        let waitTime := Z.max 0 (resetTime rl - now) in
        waitForRateLimit_loop env fuel' (sleep env (waitTime + 100) w1)
  end.

(** Two iterations always suffice ([waitForRateLimit_returns] below). *)
Definition waitForRateLimit (env : Env) (w : World) : World :=
  default w (waitForRateLimit_loop env 2 w).

(** The reservation after [fetch] has answered. *)
Definition reserveRequest (w : World) : World :=
  let rl := rateLimitState (st w) in
  emit (EvReserve (clock w))
    (set_st (set_rateLimitState
               {| lastRequestTime := clock w;
                  remainingRequests := Z.max 0 (remainingRequests rl - 1);
                  resetTime := resetTime rl;
                  requestCount := requestCount rl + 1 |} (st w)) w).

Definition updateRateLimitFromHeaders (remaining reset : option Z) (w : World) : World :=
  let rl := rateLimitState (st w) in
  set_st (set_rateLimitState
            {| lastRequestTime := lastRequestTime rl;
               remainingRequests := default (remainingRequests rl) remaining;
               resetTime := default (resetTime rl) ((fun r => r * 1000) <$> reset);
               requestCount := requestCount rl |} (st w)) w.

(* ===================================================================== *)
(** ** Fetch client                                                      *)
(* ===================================================================== *)

(** [fetch(url, { signal })]: the clock moves on by the latency, capped
    by the abort timer. *)
Definition doFetch (env : Env) (sub : option string) (w : World) : Response * World :=
  let k := requests w in
  let took := Z.of_N (latency env k) in
  let r := if decide (REQUEST_TIMEOUT <= took) then Aborted else net env sub k in
  (r, {| st := st w; clock := clock w + Z.min took REQUEST_TIMEOUT;
         requests := S k; timers := timers w; trace := trace w |}).

(** The body of the [try] block of [fetchFeedWithRetry]. *)
Definition fetchAttempt (env : Env) (sub : option string) (w : World)
  : (FetchError + list Post) * World :=
  let w1 := waitForRateLimit env w in
  let '(r, w2) := doFetch env sub w1 in
  match r with
  | Aborted => (inl Timeout, w2)
  | Rejected msg => (inl (NetworkError msg), w2)
  | Answered status remaining reset children =>
      let w3 := updateRateLimitFromHeaders remaining reset (reserveRequest w2) in
      if decide (status = 429) then (inl RateLimited, w3)
      else if decide (200 <= status <= 299) then
        match children ≫= mapM (fmap stripPostData) with
        | Some posts => (inr posts, w3)
        | None => (inl MalformedResponse, w3)
        end
      else (inl (HttpError status), w3)
  end.

(** The [for] loop of [fetchFeedWithRetry], with [n] attempts left to
    make after attempt number [attempt]. *)
Fixpoint fetchRetryLoop (env : Env) (sub : option string) (n : nat) (attempt : Z)
    (lastError : FetchError) (w : World) : (FetchError + list Post) * World :=
  match n with
  | O => (inl lastError, w)
  | S n' =>
      match fetchAttempt env sub w with
      | (inr posts, w1) => (inr posts, w1)
      | (inl e, w1) =>
          let w2 := match n' with
                    | O => w1
                    | S _ => sleep env (RETRY_DELAY_MS * 2 ^ attempt) w1
                    end in
          fetchRetryLoop env sub n' (attempt + 1) e w2
      end
  end.

(** [fetchFeedWithRetry(feedType, subreddit, retryCount)]; [sub] is the
    name in the URL. *)
Definition fetchFeedWithRetry (env : Env) (popularFeed : bool) (subreddit : option string)
    (retryCount : Z) (w : World) : (FetchError + list Post) * World :=
  let maxRetries := Z.min 3 (Z.of_nat MAX_RETRIES - retryCount) in
  let sub := if popularFeed then Some "popular" else subreddit in
  fetchRetryLoop env sub (Z.to_nat (maxRetries + 1)) 0 UnknownError w.

(* ===================================================================== *)
(** ** Sync queue and scheduler                                          *)
(* ===================================================================== *)

(** [status !== 'completed' && status !== 'failed_max_retries'] *)
Definition nonTerminal (j : Job) : bool :=
  negb (bool_decide (status j = Completed)) && negb (bool_decide (status j = FailedMaxRetries)).

(** The callback of [some] in [queueSyncJob]. *)
Definition equivalentJob (type : string) (subreddit : option string) (job : Job) : bool :=
  bool_decide (job_type job = type) && bool_decide (job_subreddit job = subreddit)
  && nonTerminal job.

(** [queueSyncJob(type, subreddit)], called at clock [now] with [rnd] the
    random suffix of the job id. *)
Definition queueSyncJob (now : Z) (rnd : string) (type : string)
    (subreddit : option string) (s : State) : option Job * State :=
  if existsb (equivalentJob type subreddit) (syncQueue s) then (None, s)
  else
    let job :=
      {| job_id := type +:+ "-" +:+ default "popular" (truthy subreddit) +:+ "-"
                   +:+ pretty now +:+ "-" +:+ rnd;
         job_type := type;
         job_subreddit := subreddit;
         status := Pending;
         retries := 0;
         timestamp := now;
         startTime := None |} in
    (Some job, set_syncQueue (syncQueue s ++ [job]) s).

(** [j.status === 'pending' || j.status === 'failed'] *)
Definition runnable (j : Job) : bool :=
  bool_decide (status j = Pending) || bool_decide (status j = Failed).

(** Index of the job that [syncQueue.find] returns. *)
Fixpoint findRunnable (q : list Job) : option nat :=
  match q with
  | [] => None
  | j :: q' => if runnable j then Some O else S <$> findRunnable q'
  end.

Definition set_status (x : JobStatus) (j : Job) : Job :=
  {| job_id := job_id j; job_type := job_type j; job_subreddit := job_subreddit j;
     status := x; retries := retries j; timestamp := timestamp j;
     startTime := startTime j |}.

Definition startJob (now : Z) (j : Job) : Job :=
  {| job_id := job_id j; job_type := job_type j; job_subreddit := job_subreddit j;
     status := Processing; retries := S (retries j); timestamp := timestamp j;
     startTime := Some now |}.

(** The job objects are mutated in place: slot [i] of the queue. *)
Definition updateJob (i : nat) (f : Job -> Job) (w : World) : World :=
  set_st (set_syncQueue (alter f i (syncQueue (st w))) (st w)) w.

Definition executeJob (env : Env) (job : Job) (w : World) : bool * World :=
  if decide (job_type job = "fetch_subreddit") then
    match fetchFeedWithRetry env false (job_subreddit job) (Z.of_nat (retries job) - 1) w with
    | (inr posts, w1) =>
        (true, set_st (addPostsToPending posts MyFeed (job_subreddit job) (st w1)) w1)
    | (inl _, w1) => (false, w1)
    end
  else if decide (job_type job = "fetch_popular") then
    match fetchFeedWithRetry env true None (Z.of_nat (retries job) - 1) w with
    | (inr posts, w1) =>
        (true, set_st (addPostsToPending posts PopularFeed None (st w1)) w1)
    | (inl _, w1) => (false, w1)
    end
  else (false, w).

(** One iteration of the [while] loop of [processSyncQueue]; [None] when
    the loop condition fails. *)
Definition scheduleStep (env : Env) (w : World) : option World :=
  i ← findRunnable (syncQueue (st w));
  job ← syncQueue (st w) !! i;
  if decide (MAX_RETRIES <= retries job)%nat then
    Some (emit (EvGiveUp i) (updateJob i (set_status FailedMaxRetries) w))
  else
    let started := startJob (clock w) job in
    let w1 := emit (EvStart i (retries started)) (updateJob i (fun _ => started) w) in
    let '(ok, w2) := executeJob env started w1 in
    Some (emit (EvFinish i ok)
            (updateJob i (set_status (if ok then Completed else Failed)) w2)).

Fixpoint scheduleLoop (env : Env) (fuel : nat) (w : World) : option World :=
  match scheduleStep env w with
  | None => Some w
  | Some w' =>
      match fuel with
      | O => None
      | S fuel' => scheduleLoop env fuel' w'
      end
  end.

(** A bound on the iterations a queue can still take: a runnable job is
    started at most [MAX_RETRIES - retries] times and given up once. *)
Definition jobBudget (j : Job) : nat :=
  if runnable j then S (MAX_RETRIES - retries j) else 0.

Definition queueBudget (q : list Job) : nat := sum_list (jobBudget <$> q).

(** [syncQueue.filter(j => j.status !== 'completed' && j.status !== 'failed_max_retries')] *)
Definition pruneQueue (s : State) : State :=
  set_syncQueue (filter nonTerminal (syncQueue s)) s.

(** The initial population of an empty feed after the pass. *)
Definition autoApply (feedType : FeedType) (s : State) : State :=
  let feed := getFeed feedType (feeds s) in
  match posts feed, pending_posts (pending feed) with
  | [], _ :: _ =>
      let s' := set_feeds (setFeed feedType (mergePending feed) (feeds s)) s in
      match feedType with
      | MyFeed => s'
      | PopularFeed => rebuildPopularFiltered s'
      end
  | _, _ => s
  end.

(** The two auto-apply blocks after the pass: the test, the merge
    ([autoApply]) and the [saveState()] that closes the block. *)
Definition autoApplyAndSave (env : Env) (feedType : FeedType) (s : State)
    : Completion bool * State :=
  let feed := getFeed feedType (feeds s) in
  match posts feed, pending_posts (pending feed) with
  | [], _ :: _ => saveState (setItem env) (stackDepth env) (autoApply feedType s)
  | _, _ => (Returned true, s)
  end.

(** [showNewPostsToast]: [message] is whether the message is a non-empty
    string; the toast element is then kept in [state.newPostsToast]. *)
Definition showNewPostsToast (s : State) : State :=
  let myCount := count (pending (my (feeds s))) in
  let popCount := count (pending (popular (feeds s))) in
  let total := (myCount + popCount)%nat in
  let message :=
    if decide (current s = "my" /\ (0 < myCount)%nat) then true
    else if decide (current s = "popular" /\ (0 < popCount)%nat) then true
    else if decide (0 < total)%nat then true
    else false in
  if message then set_newPostsToast true s else s.

(** The end of [processSyncQueue]: the toast for a feed that has posts
    and staged posts. *)
Definition notifyNewPosts (s : State) : State :=
  let myHasPosts := bool_decide (0 < length (posts (my (feeds s))))%nat in
  let popHasPosts := bool_decide (0 < length (posts (popular (feeds s))))%nat in
  let myHasPending := bool_decide (0 < length (pending_posts (pending (my (feeds s)))))%nat in
  let popHasPending :=
    bool_decide (0 < length (pending_posts (pending (popular (feeds s)))))%nat in
  if (myHasPosts && myHasPending) || (popHasPosts && popHasPending)
  then showNewPostsToast s else s.

(** What [processSyncQueue] does after its loop: the [saveState()] of
    the [finally] block, the two auto-apply blocks, the toast. A
    [RangeError] that leaves a [saveState()] rejects the promise of the
    pass: the steps after it are not run. *)
Definition afterPass (env : Env) (s : State) : State :=
  match saveState (setItem env) (stackDepth env) s with
  | (RangeError, s1) => s1
  | (Returned _, s1) =>
      match autoApplyAndSave env MyFeed s1 with
      | (RangeError, s2) => s2
      | (Returned _, s2) =>
          match autoApplyAndSave env PopularFeed s2 with
          | (RangeError, s3) => s3
          | (Returned _, s3) => notifyNewPosts s3
          end
      end
  end.

(** [processSyncQueue], with [online] the value of [navigator.onLine].
    [None] only if the loop ran out of fuel, which it does not
    ([processSyncQueue_returns]); [Some w'] is the world when the pass
    has ended. *)
Definition processSyncQueue (env : Env) (online : bool) (w : World) : option World :=
  if isProcessingQueue (st w) then Some w
  else if negb online then Some w
  else
    let w0 := set_st (set_isProcessingQueue true (st w)) w in
    w1 ← scheduleLoop env (queueBudget (syncQueue (st w0))) w0;
    let s1 := set_isProcessingQueue false (pruneQueue (st w1)) in
    Some (set_st (afterPass env s1) w1).

(* ===================================================================== *)
(** ** Persistence: the snapshot, [loadState], [validateSyncQueue]       *)
(* ===================================================================== *)

Definition MAX_JOB_AGE_MS : Z := 24 * 60 * 60 * 1000.

(** The object under the key [appState]: what [saveState] writes and
    what [JSON.parse] hands to [loadState]. A field is [None] when the
    parsed object lacks it (or holds [null]); a field that is there has
    the shape [saveState] gives it. Serializing and parsing are taken to
    give back what was written: the values are strings, integers,
    booleans, [null], arrays and plain objects. *)
Record Snapshot := {
  cachedPosts : option (list Post);
  popularPosts : option (list Post);
  bookmarkedPosts : option (list Post);
  snap_subreddits : option (list string);
  blockedSubreddits : option (list string);
  snap_blockedUsers : option (list string);
  currentFeed : option string;
  snap_rateLimitState : option RateLimitState;
  snap_syncQueue : option (list Job);
  myPending : option PendingPosts;
  popularPending : option PendingPosts;
  myLastFetch : option (gmap string Z);
  popularLastFetch : option (gmap string Z);
  snap_updateAvailable : option bool
}.

(** The object [toSave] of [saveState]. *)
Definition toSave (s : State) : Snapshot :=
  {| cachedPosts := Some (posts (my (feeds s)));
     popularPosts := Some (posts (popular (feeds s)));
     bookmarkedPosts := Some (starred_posts (starred (feeds s)));
     snap_subreddits := Some (subreddits s);
     blockedSubreddits := Some (blocked s);
     snap_blockedUsers := Some (blockedUsers s);
     currentFeed := Some (current s);
     snap_rateLimitState := Some (rateLimitState s);
     snap_syncQueue := Some (syncQueue s);
     myPending := Some (pending (my (feeds s)));
     popularPending := Some (pending (popular (feeds s)));
     myLastFetch := Some (lastFetch (my (feeds s)));
     popularLastFetch := Some (lastFetch (popular (feeds s)));
     snap_updateAvailable := Some (updateAvailable s) |}.

(** The filter callback of [validateSyncQueue]: [None] drops the job,
    [Some] keeps it, reset if it was stuck in processing. *)
Definition validateJob (now : Z) (job : Job) : option Job :=
  if decide (MAX_JOB_AGE_MS < now - timestamp job) then None
  else
    let job' :=
      if decide (status job = Processing) then
        {| job_id := job_id job; job_type := job_type job;
           job_subreddit := job_subreddit job; status := Pending; retries := 0;
           timestamp := timestamp job; startTime := None |}
      else job in
    if decide (status job' = FailedMaxRetries) then None else Some job'.

Definition validateSyncQueue (now : Z) (s : State) : State :=
  set_syncQueue (omap (validateJob now) (syncQueue s)) s.

(** The [map] callback of [loadState]: a job stuck in processing goes
    back to pending (its [startTime] stays). *)
Definition unstick (job : Job) : Job :=
  if decide (status job = Processing) then
    {| job_id := job_id job; job_type := job_type job;
       job_subreddit := job_subreddit job; status := Pending; retries := 0;
       timestamp := timestamp job; startTime := startTime job |}
  else job.

(** The [filter] callback of [loadState], at the clock it reads. *)
Definition keepOnLoad (now : Z) (job : Job) : bool :=
  negb (bool_decide (status job = FailedMaxRetries))
  || bool_decide (now - timestamp job < 24 * 60 * 60 * 1000).

(** [queue.filter(...)], the callback for the job at index [i] reading
    the clock [now_job i]. *)
Fixpoint filterOnLoad (now_job : nat -> Z) (i : nat) (q : list Job) : list Job :=
  match q with
  | [] => []
  | job :: q' =>
      if keepOnLoad (now_job i) job then job :: filterOnLoad now_job (S i) q'
      else filterOnLoad now_job (S i) q'
  end.

(** The clock readings of one call of [loadState]. *)
Record LoadClock := {
  now_rate : Z;             (* [const now = Date.now()] of the rate-limit fix *)
  now_job : nat -> Z;       (* [Date.now()] in the filter of the queue *)
  now_validate : Z;         (* [validateSyncQueue] *)
  now_cleanup : Z           (* [cleanupOldPostsByAge] *)
}.

(** The body of [if (saved)] in [loadState]. *)
Definition restore (clk : LoadClock) (parsed : Snapshot) (s : State) : State :=
  let fs := feeds s in
  let emptyPending := {| pending_posts := []; count := 0 |} in
  let s1 :=
    {| feeds :=
         {| my := {| posts := default [] (cachedPosts parsed);
                     pending := default emptyPending (myPending parsed);
                     lastFetch := default ∅ (myLastFetch parsed);
                     currentPage := currentPage (my fs) |};
            popular := {| posts := default [] (popularPosts parsed);
                          pending := default emptyPending (popularPending parsed);
                          lastFetch := default ∅ (popularLastFetch parsed);
                          currentPage := currentPage (popular fs) |};
            filtered := filtered fs;
            starred := {| starred_posts := default [] (bookmarkedPosts parsed);
                          starred_currentPage := starred_currentPage (starred fs) |} |};
       subreddits := default [] (snap_subreddits parsed);
       blocked := default [] (blockedSubreddits parsed);
       blockedUsers := default [] (snap_blockedUsers parsed);
       current := default "my" (truthy (currentFeed parsed));
       state_filter := state_filter s;
       rateLimitState := rateLimitState s;
       syncQueue := default [] (snap_syncQueue parsed);
       isProcessingQueue := isProcessingQueue s;
       countrySuggestions := countrySuggestions s;
       selectedCountry := selectedCountry s;
       storageQuota := storageQuota s;
       newPostsToast := newPostsToast s;
       updateAvailable := default false (snap_updateAvailable parsed) |} in
  let s2 := rebuildPopularFiltered s1 in
  let s3 :=
    match snap_rateLimitState parsed with
    | Some rl =>
        if decide (resetTime rl <= now_rate clk) then
          set_rateLimitState
            {| lastRequestTime := 0; remainingRequests := REQUESTS_PER_MINUTE;
               resetTime := now_rate clk + RATE_LIMIT_RESET_INTERVAL;
               requestCount := 0 |} s2
        else set_rateLimitState rl s2
    | None => s2
    end in
  set_syncQueue (filterOnLoad (now_job clk) 0 (unstick <$> syncQueue s3)) s3.

(** [loadState], with [saved] the parsed item ([None] when there is no
    item or it does not parse: the state is then left as it is). *)
Definition loadState (clk : LoadClock) (saved : option Snapshot) (s : State) : State :=
  let s1 := match saved with
            | Some parsed => restore clk parsed s
            | None => s
            end in
  cleanupOldPostsByAge (now_cleanup clk) (validateSyncQueue (now_validate clk) s1).

(* ===================================================================== *)
(** ** User actions                                                      *)
(* ===================================================================== *)

(** A confirmation dialog ([showConfirm]) is modelled by its answer:
    with [confirmed] the callback runs, and it runs on the state the
    dialog was opened on. *)



Definition set_blocked (b : list string) (s : State) : State :=
  {| feeds := feeds s; subreddits := subreddits s; blocked := b;
     blockedUsers := blockedUsers s; current := current s;
     state_filter := state_filter s; rateLimitState := rateLimitState s;
     syncQueue := syncQueue s; isProcessingQueue := isProcessingQueue s;
     countrySuggestions := countrySuggestions s;
     selectedCountry := selectedCountry s; storageQuota := storageQuota s;
     newPostsToast := newPostsToast s; updateAvailable := updateAvailable s |}.

(** [unblockSubreddit(sub)], from the list of blocked subreddits. *)
Definition unblockSubreddit (confirmed : bool) (sub : string) (s : State) : State :=
  if confirmed then
    rebuildPopularFiltered
      (set_blocked (filter (fun x => toLowerCase x ≠ toLowerCase sub) (blocked s)) s)
  else s.


(** [removeSubreddit(sub)] *)
Definition removeSubreddit (confirmed : bool) (sub : string) (s : State) : State :=
  if confirmed then
    let other (p : Post) := toLowerCase (post_subreddit p) ≠ toLowerCase sub in
    let mine := my (feeds s) in
    let staged := filter other (pending_posts (pending mine)) in
    {| feeds := {| my := {| posts := filter other (posts mine);
                            pending := {| pending_posts := staged; count := length staged |};
                            lastFetch := lastFetch mine;
                            currentPage := currentPage mine |};
                   popular := popular (feeds s);
                   filtered := filtered (feeds s);
                   starred := starred (feeds s) |};
       subreddits := filter (fun x => toLowerCase x ≠ toLowerCase sub) (subreddits s);
       blocked := blocked s; blockedUsers := blockedUsers s; current := current s;
       state_filter := if decide (toLowerCase (state_filter s) = toLowerCase sub)
                       then "all" else state_filter s;
       rateLimitState := rateLimitState s; syncQueue := syncQueue s;
       isProcessingQueue := isProcessingQueue s;
       countrySuggestions := countrySuggestions s;
       selectedCountry := selectedCountry s; storageQuota := storageQuota s;
       newPostsToast := newPostsToast s; updateAvailable := updateAvailable s |}
  else s.

(** The calls of [queueSyncJob] that [refreshPosts] makes: one per
    followed subreddit, then one for the popular feed. The [k]-th call
    reads the clock and the random suffix [stamp k]. *)
Definition queueRefreshJobs (stamp : nat -> Z * string) (s : State) : State :=
  let step (acc : nat * State) (sub : string) :=
    (S acc.1, (queueSyncJob (stamp acc.1).1 (stamp acc.1).2 "fetch_subreddit" (Some sub)
                 acc.2).2) in
  let acc := foldl step (0%nat, s) (subreddits s) in
  (queueSyncJob (stamp acc.1).1 (stamp acc.1).2 "fetch_popular" None acc.2).2.

(** [refreshPosts()], with [online] the value of [navigator.onLine]. *)
Definition refreshPosts (env : Env) (online : bool) (stamp : nat -> Z * string) (w : World)
  : option World :=
  let w1 := set_st (queueRefreshJobs stamp (st w)) w in
  if online then processSyncQueue env true w1 else Some w1.






(* ===================================================================== *)
(** ** Storage quota ([initializeStorageQuota])                          *)
(* ===================================================================== *)

Definition MAX_SAFE_STORAGE : Q := inject_Z (8 * 1024 * 1024).

Definition set_storageQuota (q : Q) (s : State) : State :=
  {| feeds := feeds s; subreddits := subreddits s; blocked := blocked s;
     blockedUsers := blockedUsers s; current := current s;
     state_filter := state_filter s; rateLimitState := rateLimitState s;
     syncQueue := syncQueue s; isProcessingQueue := isProcessingQueue s;
     countrySuggestions := countrySuggestions s;
     selectedCountry := selectedCountry s; storageQuota := q;
     newPostsToast := newPostsToast s; updateAvailable := updateAvailable s |}.

(** [initializeStorageQuota], with [estimate] what
    [navigator.storage.estimate()] resolves to: [None] when the API is
    missing or the promise rejects, otherwise the [quota] field, which
    may itself be missing. The product with 0.8 is taken exactly. *)
Definition initializeStorageQuota (estimate : option (option Q)) (s : State) : State :=
  match estimate with
  | None => s
  | Some quota =>
      let availableQuota :=
        match quota with
        | Some q => if Qeq_bool q 0 then storageQuota s else q
        | None => storageQuota s
        end in
      let scaled := (availableQuota * 0.8)%Q in
      set_storageQuota (if Qlt_le_dec scaled MAX_SAFE_STORAGE then scaled
                        else MAX_SAFE_STORAGE) s
  end.

(* ===================================================================== *)
(** ** Specification-level notions                                       *)
(* ===================================================================== *)

(** Duplicate ids removed, the first occurrence kept: the head stays and
    is struck from the rest. *)
Fixpoint keepFirstById (l : list Post) : list Post :=
  match l with
  | [] => []
  | p :: l' => p :: filter (fun q => post_id q ≠ post_id p) (keepFirstById l')
  end.

(** [a] may stand before [b] in a feed sorted by [created_utc] descending. *)
Definition notOlder (a b : Post) : Prop := created_utc b <= created_utc a.


(** Number of posts of [l] with id [i]. *)
Definition occurrences (i : option string) (l : list Post) : nat :=
  length (filter (fun p => post_id p = i) l).

(** Scanning from the tail, the first [k] posts that are not pinned are
    dropped. *)
Fixpoint dropUnpinned (k : nat) (pinned : gset (option string)) (fromTail : list Post)
  : list Post :=
  match fromTail with
  | [] => []
  | p :: rest =>
      if decide (post_id p ∈ pinned) then p :: dropUnpinned k pinned rest
      else match k with
           | O => p :: rest
           | S k' => dropUnpinned k' pinned rest
           end
  end.

(** The fetched posts whose id no held post has, in the order of the
    listing. *)
Definition unseen (held fetched : list Post) : list Post :=
  filter (fun p => post_id p ∉ ids held) fetched.

(** The feed without its [k] oldest non-pinned posts, the feed being
    sorted newest first. *)
Definition evictOldest (k : nat) (pinned : gset (option string)) (l : list Post) : list Post :=
  reverse (dropUnpinned k pinned (reverse l)).

Definition unpinned (pinned : gset (option string)) (l : list Post) : list Post :=
  filter (fun p => post_id p ∉ pinned) l.

(** [s'] differs from [s] at most in the applied posts of the [my] and
    [popular] feeds. *)
Definition sameButAppliedPosts (s s' : State) : Prop :=
  pending (my (feeds s')) = pending (my (feeds s))
  /\ lastFetch (my (feeds s')) = lastFetch (my (feeds s))
  /\ currentPage (my (feeds s')) = currentPage (my (feeds s))
  /\ pending (popular (feeds s')) = pending (popular (feeds s))
  /\ lastFetch (popular (feeds s')) = lastFetch (popular (feeds s))
  /\ currentPage (popular (feeds s')) = currentPage (popular (feeds s))
  /\ filtered (feeds s') = filtered (feeds s)
  /\ starred (feeds s') = starred (feeds s)
  /\ subreddits s' = subreddits s
  /\ blocked s' = blocked s
  /\ blockedUsers s' = blockedUsers s
  /\ current s' = current s
  /\ state_filter s' = state_filter s
  /\ rateLimitState s' = rateLimitState s
  /\ syncQueue s' = syncQueue s
  /\ isProcessingQueue s' = isProcessingQueue s
  /\ countrySuggestions s' = countrySuggestions s
  /\ selectedCountry s' = selectedCountry s
  /\ storageQuota s' = storageQuota s
  /\ newPostsToast s' = newPostsToast s
  /\ updateAvailable s' = updateAvailable s.

(** The pair that identifies equivalent jobs. *)
Definition jobKey (j : Job) : string * option string := (job_type j, job_subreddit j).

(** No two non-terminal jobs of the queue share kind and source. *)
Definition queueInvariant (q : list Job) : Prop :=
  forall i j a b, i ≠ j -> q !! i = Some a -> q !! j = Some b ->
                  nonTerminal a -> nonTerminal b -> jobKey a ≠ jobKey b.

(** One call of [queueSyncJob]: the clock, the random suffix, and the
    arguments. *)
Record EnqueueCall := {
  call_now : Z;
  call_rnd : string;
  call_type : string;
  call_subreddit : option string
}.

Definition enqueue (c : EnqueueCall) (s : State) : option Job * State :=
  queueSyncJob (call_now c) (call_rnd c) (call_type c) (call_subreddit c) s.

Definition enqueueAll (calls : list EnqueueCall) (s : State) : State :=
  foldl (fun s c => (enqueue c s).2) s calls.

(** The times of the reservations recorded in a log. *)
Definition reservations (tr : list Event) : list Z :=
  omap (fun e => match e with EvReserve t => Some t | _ => None end) tr.

(** Any two entries of [ts], in their order, lie at least [d] apart. *)
Definition spacedBy (d : Z) (ts : list Z) : Prop :=
  forall i j t1 t2, (i < j)%nat -> ts !! i = Some t1 -> ts !! j = Some t2 -> t1 + d <= t2.

(** Number of entries of [ts] within the window that starts at [T]. *)
Definition windowCount (T : Z) (ts : list Z) : nat :=
  length (filter (fun t => T <= t < T + RATE_LIMIT_RESET_INTERVAL) ts).

(** Reservations per window of the limiter's own bookkeeping: a window
    ends where the log records a reset. The result lists the windows
    that have ended and the count of the window still open. *)
Definition tallyStep (acc : list nat * nat) (e : Event) : list nat * nat :=
  match e with
  | EvReset _ => (acc.1 ++ [acc.2], 0%nat)
  | EvReserve _ => (acc.1, S acc.2)
  | _ => acc
  end.

Definition windowTally (tr : list Event) : list nat * nat := foldl tallyStep ([], 0%nat) tr.

(** No answer carries a rate-limit header. *)
Definition noHeaderCorrection (env : Env) : Prop :=
  forall sub k, match net env sub k with
                | Answered _ remaining reset _ => remaining = None /\ reset = None
                | _ => True
                end.

(** Requests issued back to back, one per entry of [subs]: each waits
    for the rate limit, fetches, and reserves when the answer is in. *)
Definition acquireAll (env : Env) (subs : list (option string)) (w : World) : World :=
  foldl (fun w sub => (fetchAttempt env sub w).2) w subs.

(** Two reservation times at least [REQUEST_INTERVAL] apart. *)
Definition gap (a b : Z) : Prop := a + REQUEST_INTERVAL <= b.

(** What the limiter maintains. The first two parts hold whatever the
    server says; the tally needs answers without rate-limit headers. *)
Definition spacingInv (w : World) : Prop :=
  StronglySorted gap (reservations (trace w))
  /\ Forall (fun t => t <= lastRequestTime (rateLimitState (st w))) (reservations (trace w)).

Definition tallyInv (w : World) : Prop :=
  Forall (fun n => Z.of_nat n <= REQUESTS_PER_MINUTE) (windowTally (trace w)).1
  /\ Z.of_nat (windowTally (trace w)).2 + Z.max 0 (remainingRequests (rateLimitState (st w)))
     <= REQUESTS_PER_MINUTE.

(** The state [waitForRateLimit] returns in: the last request lies at
    least [REQUEST_INTERVAL] back and the budget is not used up. *)
Definition cleared (w : World) : Prop :=
  lastRequestTime (rateLimitState (st w)) + REQUEST_INTERVAL <= clock w
  /\ 0 < remainingRequests (rateLimitState (st w)).

(** A response on which the fetch fails: no success status, a 429, or a
    payload that does not parse. *)
Definition failing (r : Response) : bool :=
  match r with
  | Aborted | Rejected _ => true
  | Answered status _ _ children =>
      bool_decide (status = 429) || negb (bool_decide (200 <= status <= 299))
      || negb (bool_decide (is_Some (children ≫= mapM (fmap (M := option) stripPostData))))
  end.

(** The name in the URL that the job fetches. *)
Definition jobUrlSub (job : Job) : option string :=
  if decide (job_type job = "fetch_popular") then Some "popular" else job_subreddit job.

(** Every request of the job fails. *)
Definition alwaysFails (env : Env) (job : Job) : Prop :=
  forall k, failing (net env (jobUrlSub job) k) = true.

Definition isLimiterEvent (e : Event) : bool :=
  match e with EvReset _ | EvReserve _ => true | _ => false end.

(** The scheduling events of queue slot [i]. *)
Definition aboutSlot (i : nat) (e : Event) : bool :=
  match e with
  | EvStart j _ | EvFinish j _ | EvGiveUp j => bool_decide (j = i)
  | _ => false
  end.

Definition slotEvents (i : nat) (tr : list Event) : list Event := filter (aboutSlot i) tr.

(** The events of a slot whose job fails [n] more times, from [r]
    retries on, and is then given up. *)
Fixpoint failingRun (i : nat) (r : nat) (n : nat) : list Event :=
  match n with
  | O => [EvGiveUp i]
  | S n' => EvStart i (S r) :: EvFinish i false :: failingRun i (S r) n'
  end.

(** [w'] differs from [w] only by what a fetch does: the queue is as it
    was and the log has grown by limiter events. *)
Definition fetchedOnly (w w' : World) : Prop :=
  syncQueue (st w') = syncQueue (st w)
  /\ exists tr, trace w' = trace w ++ tr /\ Forall isLimiterEvent tr.

(** Jobs that only differ in their scheduling fields. *)
Definition sameJob (a b : Job) : Prop :=
  job_id a = job_id b /\ job_type a = job_type b /\ job_subreddit a = job_subreddit b
  /\ timestamp a = timestamp b.

(** How a slot of the queue at the start of a pass relates to the slot
    later in the pass: a job found processing is never touched, any
    other never becomes processing. *)
Definition slotKept (a b : Job) : Prop :=
  (status a = Processing -> b = a) /\ (status a ≠ Processing -> status b ≠ Processing).

(** Where slot [i] stands in a pass in which its job keeps failing:
    either the job is still to be run and the events to come complete the
    log of the slot to [target], or the job has been given up and the log
    of the slot is [target]. *)
Definition slotProgress (i : nat) (job0 : Job) (target : list Event) (w : World) : Prop :=
  exists j, syncQueue (st w) !! i = Some j /\ sameJob job0 j
    /\ ((runnable j /\ (retries j <= MAX_RETRIES)%nat
         /\ slotEvents i (trace w) ++ failingRun i (retries j) (MAX_RETRIES - retries j)
            = target)
        \/ (status j = FailedMaxRetries /\ retries j = MAX_RETRIES
            /\ slotEvents i (trace w) = target)).

(* ===================================================================== *)
(** ** Example data                                                      *)
(* ===================================================================== *)

Definition mkPost (i : string) (sub : string) (created : Z) : Post :=
  {| post_id := Some i; title := ""; author := "u"; post_subreddit := sub;
     permalink := ""; created_utc := created; ups := 0; num_comments := 0;
     selftext := ""; url := ""; is_video := false; gallery := None;
     video_url := None; audio_url := None |}.

Definition emptyFeed : Feed :=
  {| posts := []; pending := {| pending_posts := []; count := 0 |};
     lastFetch := ∅; currentPage := 1 |}.

(** The initial [state], with the rate-limit window ending at [reset]. *)
Definition initialState (reset : Z) : State :=
  {| feeds := {| my := emptyFeed; popular := emptyFeed; filtered := [];
                 starred := {| starred_posts := []; starred_currentPage := 1 |} |};
     subreddits := []; blocked := []; blockedUsers := [];
     current := "my"; state_filter := "all";
     rateLimitState := {| lastRequestTime := 0; remainingRequests := REQUESTS_PER_MINUTE;
                          resetTime := reset; requestCount := 0 |};
     syncQueue := []; isProcessingQueue := false;
     countrySuggestions := []; selectedCountry := None;
     storageQuota := inject_Z (5 * 1024 * 1024);
     newPostsToast := false; updateAvailable := false |}.

Definition withMyPosts (applied staged : list Post) (s : State) : State :=
  set_feeds (setFeed MyFeed
               {| posts := applied;
                  pending := {| pending_posts := staged; count := length staged |};
                  lastFetch := lastFetch (my (feeds s));
                  currentPage := currentPage (my (feeds s)) |} (feeds s)) s.

Definition withStarred (ps : list Post) (s : State) : State :=
  set_feeds {| my := my (feeds s); popular := popular (feeds s);
               filtered := filtered (feeds s);
               starred := {| starred_posts := ps; starred_currentPage := 1 |} |} s.

(** A feed that holds [x] as applied and [w] as staged post of r/a, and
    a post of r/b; and a listing fetched for r/a that has both, and two
    posts that the feed does not hold. *)
Definition c1_state : State :=
  withMyPosts [mkPost "x" "a" 10; mkPost "v" "b" 9] [mkPost "w" "A" 11] (initialState 0).
Definition c1_fetched : list Post :=
  [mkPost "y" "A" 12; mkPost "w" "A" 11; mkPost "x" "a" 10; mkPost "z" "a" 8].

(** A fetched batch that lists the same post twice. *)
Definition c8_fetched : list Post := [mkPost "x" "a" 10; mkPost "x" "a" 10].


(** A primary feed of 1000 posts, newest first, nothing starred; 95% of
    the 5 MB quota is occupied at [size95]. *)
Definition thousandPosts : list Post :=
  (fun n => mkPost (pretty n) "a" (2000 - Z.of_nat n)) <$> seq 0 1000.
Definition c6_state : State := withMyPosts thousandPosts [] (initialState 0).
Definition size95 : Z := 4980736.

(** A storage that takes every write, and one that has no room for a
    state with more than [n] applied posts in the [my] feed, the
    occupied size being [size]. *)
Definition writeAccepted : State -> SetItem := fun _ => Stored.
Definition writeFullAbove (n : nat) (size : Z) : State -> SetItem :=
  fun s => if decide (n < length (posts (my (feeds s))))%nat
           then QuotaExceededError size else Stored.

(** A small feed with a starred post at its tail and a staged post. *)
Definition c7_now : Z := 1700000000000.
Definition c7_state : State :=
  withStarred [mkPost "s" "a" 0]
    (withMyPosts [mkPost "n" "a" 1699999999; mkPost "o" "a" 5; mkPost "s" "a" 0]
                 [mkPost "staged" "a" 1] (initialState 0)).

(** Three calls, the third for a source that is already queued. *)
Definition c3_calls : list EnqueueCall :=
  [ {| call_now := 1000; call_rnd := "k3x9"; call_type := "fetch_subreddit";
       call_subreddit := Some "news" |};
    {| call_now := 1001; call_rnd := "p01z"; call_type := "fetch_popular";
       call_subreddit := None |};
    {| call_now := 1002; call_rnd := "zz17"; call_type := "fetch_subreddit";
       call_subreddit := Some "news" |} ].

(** A listing entry, with or without its [id]. *)
Definition mkRaw (i : option string) (sub : string) (created : Z) : RawPost :=
  {| raw_id := i; raw_title := "t"; raw_author := "u"; raw_subreddit := sub;
     raw_permalink := "/r/a/1"; raw_created_utc := created; raw_ups := 1;
     raw_num_comments := 0; raw_selftext := None; raw_url := None;
     raw_is_video := false; gallery_data := None; media_metadata := None;
     preview_images := None; reddit_video := None |}.

(** A network that answers every request with the same listing, 100 ms
    later, without rate-limit headers; timers fire on time. *)
Definition envAnswering (status : Z) (children : list (option RawPost)) : Env :=
  {| net := fun _ _ => Answered status None None (Some children);
     latency := fun _ => 100%N;
     overshoot := fun _ => 0%N;
     setItem := fun _ => Stored;
     stackDepth := 1000 |}.

(** A network on which every request times out. *)
Definition envTimeout : Env :=
  {| net := fun _ _ => Aborted; latency := fun _ => 15000%N; overshoot := fun _ => 0%N;
     setItem := fun _ => Stored; stackDepth := 1000 |}.

(** The world at clock [now], with the initial state and an empty log. *)
Definition freshWorld (now : Z) : World :=
  {| st := initialState (now + RATE_LIMIT_RESET_INTERVAL); clock := now;
     requests := 0; timers := 0; trace := [] |}.

Definition c9_children : list RawPost := [mkRaw None "a" 5; mkRaw (Some "k1") "a" 6].

(** A queue with one pending job for r/news, at clock 100000. *)
Definition c4_job : Job :=
  {| job_id := "fetch_subreddit-news-1000-k3x9"; job_type := "fetch_subreddit";
     job_subreddit := Some "news"; status := Pending; retries := 0;
     timestamp := 1000; startTime := None |}.

Definition c4_world : World :=
  set_st (set_syncQueue [c4_job] (st (freshWorld 100000))) (freshWorld 100000).

(* ===================================================================== *)
(** ** Further notions: invariants, costs and frames                     *)
(* ===================================================================== *)

#[global] Instance FeedType_eq_dec : EqDecision FeedType.
Proof. solve_decision. Defined.

(** What the feeds are kept in: the counter of a staging area is the
    number of staged posts, and the applied posts are sorted newest
    first and have distinct ids. *)
Definition feedInv (f : Feed) : Prop :=
  count (pending f) = length (pending_posts (pending f))
  /\ StronglySorted notOlder (posts f)
  /\ NoDup (ids (posts f)).

Definition feedsInv (s : State) : Prop := forall ft, feedInv (getFeed ft (feeds s)).

(** A job of the given kind and source is waiting in the queue, or is
    being run. *)
Definition queued (type : string) (subreddit : option string) (s : State) : Prop :=
  exists job, job ∈ syncQueue s /\ job_type job = type /\ job_subreddit job = subreddit
              /\ nonTerminal job.

(** The requests that running a job to its end can still take: a run
    that starts with [retries = r] makes at most [4 - r] requests, and
    the job is run until [retries] is [MAX_RETRIES]. *)
Definition jobCost (j : Job) : nat :=
  if runnable j then
    match retries j with
    | 0 => 9 | 1 => 5 | 2 => 2 | _ => 0
    end%nat
  else 0%nat.

Definition queueCost (q : list Job) : nat := sum_list (jobCost <$> q).

(** The parts of the state that belong to the user: the starred feed,
    the followed and blocked lists, the view, the quota and the update
    flag. *)
Definition userData (s : State) :=
  (starred (feeds s), subreddits s, blocked s, blockedUsers s, current s,
   state_filter s, countrySuggestions s, selectedCountry s, storageQuota s,
   updateAvailable s).

(** What running the jobs of the queue leaves alone: the user's data and
    the toast. *)
Definition besideFeeds (s : State) := (userData s, newPostsToast s).

(** A feed has applied posts and staged posts, and the staging counters
    are not both zero: the toast for new posts is due. *)
Definition toastDue (s : State) : Prop :=
  ((posts (my (feeds s)) ≠ [] /\ pending_posts (pending (my (feeds s))) ≠ [])
   \/ (posts (popular (feeds s)) ≠ [] /\ pending_posts (pending (popular (feeds s))) ≠ []))
  /\ (0 < count (pending (my (feeds s))) + count (pending (popular (feeds s))))%nat.

(** One feed over what follows the loop of a pass, from [feed] to
    [feed']: applied posts are taken out and the staging area is as it
    was, or the staging area has been merged into an empty feed, and
    applied posts are taken out of the result. *)
Definition settledFrom (feed feed' : Feed) : Prop :=
  (posts feed' `sublist_of` posts feed /\ pending feed' = pending feed)
  \/ (pending_posts (pending feed) ≠ []
      /\ posts feed' `sublist_of`
           sortByCreatedDesc (removeDuplicates (pending_posts (pending feed)))
      /\ pending feed' = {| pending_posts := []; count := 0 |}).

(* ===================================================================== *)
(** ** Further example data                                              *)
(* ===================================================================== *)

(** A server that answers every request with an empty listing and the
    headers of an exhausted budget, the window ending at second 200. *)
Definition envExhausted : Env :=
  {| net := fun _ _ => Answered 200 (Some 0) (Some 200) (Some []);
     latency := fun _ => 100%N;
     overshoot := fun _ => 0%N;
     setItem := fun _ => Stored;
     stackDepth := 1000 |}.

(** A server that answers every request with the same listing, and a
    storage that is 95% full and has no room for a state with more than
    one applied post in the [my] feed. *)
Definition envFull (children : list (option RawPost)) : Env :=
  {| net := fun _ _ => Answered 200 None None (Some children);
     latency := fun _ => 100%N;
     overshoot := fun _ => 0%N;
     setItem := writeFullAbove 1 size95;
     stackDepth := 1000 |}.

(** A queue as a session that was cut off leaves it, seen at clock
    [crashedNow]: a job stuck in processing, a job that was given up,
    and a pending job queued more than a day before. *)
Definition crashedNow : Z := 100000000.

Definition stuckJob : Job :=
  {| job_id := "fetch_subreddit-news-90000000-k3x9"; job_type := "fetch_subreddit";
     job_subreddit := Some "news"; status := Processing; retries := 2;
     timestamp := 90000000; startTime := Some 90000500 |}.

Definition givenUpJob : Job :=
  {| job_id := "fetch_popular-popular-90000001-p01z"; job_type := "fetch_popular";
     job_subreddit := None; status := FailedMaxRetries; retries := 3;
     timestamp := 90000001; startTime := Some 90000900 |}.

Definition expiredJob : Job :=
  {| job_id := "fetch_subreddit-pics-1000-zz17"; job_type := "fetch_subreddit";
     job_subreddit := Some "pics"; status := Pending; retries := 0;
     timestamp := 1000; startTime := None |}.

Definition crashedState : State :=
  set_syncQueue [stuckJob; givenUpJob; expiredJob] (initialState 0).

Definition crashedClock : LoadClock :=
  {| now_rate := crashedNow; now_job := fun _ => crashedNow;
     now_validate := crashedNow; now_cleanup := crashedNow |}.

Definition withSubreddits (subs : list string) (s : State) : State :=
  {| feeds := feeds s; subreddits := subs; blocked := blocked s;
     blockedUsers := blockedUsers s; current := current s;
     state_filter := state_filter s; rateLimitState := rateLimitState s;
     syncQueue := syncQueue s; isProcessingQueue := isProcessingQueue s;
     countrySuggestions := countrySuggestions s;
     selectedCountry := selectedCountry s; storageQuota := storageQuota s;
     newPostsToast := newPostsToast s; updateAvailable := updateAvailable s |}.

Definition withPopularPosts (applied : list Post) (s : State) : State :=
  set_feeds (setFeed PopularFeed (set_posts applied (popular (feeds s))) (feeds s)) s.

(** A popular feed with a post of r/News and a post of r/pics. *)
Definition popularState : State :=
  withPopularPosts [mkPost "a1" "News" 5; mkPost "b1" "pics" 4] (initialState 0).

(** Two followed subreddits, nothing queued. *)
Definition followingWorld : World :=
  set_st (withSubreddits ["news"; "pics"] (initialState 60000)) (freshWorld 0).

(** The clock and random suffix of the [k]-th call of [queueSyncJob]. *)
Definition stampAt (t : Z) (k : nat) : Z * string := (t + Z.of_nat k, "r" +:+ pretty k).

(** A listing entry of a hosted video. *)
Definition videoRaw : RawPost :=
  {| raw_id := Some "v1"; raw_title := "t"; raw_author := "u"; raw_subreddit := "a";
     raw_permalink := "/r/a/v1"; raw_created_utc := 7; raw_ups := 1;
     raw_num_comments := 0; raw_selftext := None; raw_url := None;
     raw_is_video := true; gallery_data := None; media_metadata := None;
     preview_images :=
       Some [ {| resolutions := Some [ {| pr_url := Some "https://i/p.jpg?a=1&amp;b=2";
                                          pr_width := 640 |} ];
                 source := None |} ];
     reddit_video := Some {| fallback_url := Some "https://v/DASH_720.mp4";
                             dash_url := None |} |}.

(* ===================================================================== *)
(** * Verification                                                       *)
(* ===================================================================== *)

(** ** Merger: de-duplication and sorting *)

Section merger.
Implicit Types (l ps : list Post) (p q : Post) (i : option string).

Lemma removeDuplicates_seen_keepFirst seen l :
  removeDuplicates_seen seen l = filter (fun p => post_id p ∉ seen) (keepFirstById l).
Proof.
  revert seen. induction l as [|p l IH]; intros seen; simpl; [done|].
  destruct (decide (post_id p ∈ seen)) as [Hin|Hnin].
  - rewrite filter_cons_False by (intros ?; done).
    rewrite list_filter_filter_l; [apply IH|].
    intros q Hq Heq. apply Hq. by rewrite Heq.
  - rewrite filter_cons_True by done. f_equal.
    rewrite IH, list_filter_filter. apply list_filter_iff.
    intros q. rewrite not_elem_of_union, not_elem_of_singleton. tauto.
Qed.

Lemma removeDuplicates_keepFirst l : removeDuplicates l = keepFirstById l.
Proof.
  unfold removeDuplicates. rewrite removeDuplicates_seen_keepFirst.
  induction (keepFirstById l) as [|p k IH]; [done|].
  rewrite filter_cons_True by apply not_elem_of_empty. by rewrite IH.
Qed.

Lemma ids_filter_sublist (P : Post -> Prop) `{!forall p, Decision (P p)} l :
  ids (filter P l) `sublist_of` ids l.
Proof. unfold ids. apply fmap_sublist, sublist_filter. Qed.

Lemma keepFirstById_NoDup l : NoDup (ids (keepFirstById l)).
Proof.
  induction l as [|p l IH]; cbn [keepFirstById]; [constructor|].
  unfold ids in *. rewrite fmap_cons. constructor.
  - rewrite list_elem_of_fmap. intros (q & Heq & Hq).
    apply list_elem_of_filter in Hq as [Hne _]. by apply Hne.
  - eapply sublist_NoDup; [exact IH|]. apply (ids_filter_sublist _).
Qed.



Lemma insertByCreated_perm p l : insertByCreated p l ≡ₚ p :: l.
Proof.
  induction l as [|q l IH]; simpl; [done|].
  case_decide; [|done]. rewrite IH. apply Permutation_swap.
Qed.

Lemma sortByCreatedDesc_perm l : sortByCreatedDesc l ≡ₚ l.
Proof.
  induction l as [|p l IH]; simpl; [done|].
  rewrite insertByCreated_perm. by rewrite IH.
Qed.

Lemma insertByCreated_sorted p l :
  StronglySorted notOlder l -> StronglySorted notOlder (insertByCreated p l).
Proof.
  induction 1 as [|q l Hs IH Hall]; simpl.
  - repeat constructor.
  - case_decide as Hlt.
    + constructor; [done|].
      rewrite insertByCreated_perm. constructor; [|done].
      unfold notOlder. lia.
    + constructor; [by constructor|].
      constructor; [unfold notOlder; lia|].
      eapply Forall_impl; [exact Hall|]. unfold notOlder. intros; lia.
Qed.

Lemma sortByCreatedDesc_sorted l : StronglySorted notOlder (sortByCreatedDesc l).
Proof.
  induction l as [|p l IH]; simpl; [constructor|]. by apply insertByCreated_sorted.
Qed.



Lemma sortByCreatedDesc_NoDup l : NoDup (ids l) -> NoDup (ids (sortByCreatedDesc l)).
Proof.
  intros H. unfold ids. by rewrite sortByCreatedDesc_perm.
Qed.

(** A sorted feed is a fixed point of the sort. *)
Lemma sortByCreatedDesc_id l : StronglySorted notOlder l -> sortByCreatedDesc l = l.
Proof.
  induction 1 as [|p l Hs IH Hall]; simpl; [done|].
  rewrite IH. destruct l as [|q l]; simpl; [done|].
  apply Forall_cons in Hall as [Hq _]. unfold notOlder in Hq.
  case_decide; [lia|done].
Qed.
End merger.

(** ** Merger: staging *)

Section staging.
Implicit Types (l ps : list Post) (p q : Post) (i : option string) (s : State).

Lemma getFeed_setFeed ft f fs : getFeed ft (setFeed ft f fs) = f.
Proof. by destruct ft. Qed.

Lemma addPostsToPending_feed fetched ft sub s :
  let feed := getFeed ft (feeds s) in
  let feed' := getFeed ft (feeds (addPostsToPending fetched ft sub s)) in
  posts feed' = posts feed
  /\ pending_posts (pending feed')
     = pending_posts (pending feed) ++ getNewPostsOnly fetched sub feed.
Proof.
  unfold addPostsToPending. cbn zeta.
  destruct (getNewPostsOnly fetched sub (getFeed ft (feeds s))) as [|p ps].
  - by rewrite app_nil_r.
  - cbn. by rewrite getFeed_setFeed.
Qed.

Lemma elem_of_existingIds sub feed i :
  i ∈ existingIds sub feed
  <-> exists q, q ∈ posts feed ++ pending_posts (pending feed)
                /\ fromSource sub q /\ post_id q = i.
Proof.
  unfold existingIds, ids. rewrite elem_of_list_to_set, <- fmap_app, <- filter_app.
  rewrite list_elem_of_fmap. split.
  - intros (q & -> & Hq). apply list_elem_of_filter in Hq as [? ?]. eauto.
  - intros (q & Hq & Hsrc & <-). exists q. split; [done|]. by apply list_elem_of_filter.
Qed.

Lemma filter_ext_elem_of {A} (P Q : A -> Prop) `{!forall x, Decision (P x)}
    `{!forall x, Decision (Q x)} (l : list A) :
  (forall x, x ∈ l -> (P x <-> Q x)) -> filter P l = filter Q l.
Proof.
  induction l as [|x l IH]; intros Hext; [done|].
  rewrite !filter_cons, IH by (intros y Hy; apply Hext; by right).
  destruct (decide (P x)) as [HP|HP], (decide (Q x)) as [HQ|HQ]; try done;
    exfalso; apply (Hext x) in HP || apply (Hext x) in HQ; try done; by left.
Qed.

Lemma filter_none {A} (P : A -> Prop) `{!forall x, Decision (P x)} (l : list A) :
  (forall x, x ∈ l -> ~ P x) -> filter P l = [].
Proof.
  induction l as [|x l IH]; intros Hno; [done|].
  rewrite filter_cons_False by (apply Hno; left).
  apply IH. intros y Hy. apply Hno. by right.
Qed.

Lemma filter_all {A} (P : A -> Prop) `{!forall x, Decision (P x)} (l : list A) :
  Forall P l -> filter P l = l.
Proof.
  induction 1 as [|x l Hx Hl IH]; [done|].
  rewrite filter_cons_True by done. by rewrite IH.
Qed.
End staging.

(** ** Merger: apply *)

Section apply_helpers.
Implicit Types (l ps : list Post) (p q : Post) (i : option string) (s : State).

Lemma applyPendingUpdates_feed ft now s :
  let feed := getFeed ft (feeds s) in
  let feed' := getFeed ft (feeds (applyPendingUpdates now s)) in
  let kept := keptByAge now (bookmarkedIds s) in
  match pending_posts (pending feed) with
  | [] => posts feed' = filter kept (posts feed) /\ pending feed' = pending feed
  | _ :: _ =>
      posts feed' = filter kept (sortByCreatedDesc
                       (removeDuplicates (pending_posts (pending feed) ++ posts feed)))
      /\ pending feed' = {| pending_posts := []; count := 0 |}
  end.
Proof.
  destruct s as [[[mp [[|m mpp] mc] ml mg] [pp [[|o ppp] pc] pl pg] fl sf]
                 ? ? ? ? ? ? ? ? ? ? ? ? ?];
    destruct ft; cbn; done.
Qed.

Lemma occurrences_app i l1 l2 : occurrences i (l1 ++ l2) = (occurrences i l1 + occurrences i l2)%nat.
Proof. unfold occurrences. by rewrite filter_app, length_app. Qed.

Lemma occurrences_zero i l : i ∉ ids l -> occurrences i l = 0%nat.
Proof.
  intros Hni. unfold occurrences. rewrite filter_none; [done|].
  intros p Hp Heq. apply Hni. unfold ids. apply list_elem_of_fmap. eauto.
Qed.

Lemma occurrences_NoDup i l : NoDup (ids l) -> (occurrences i l <= 1)%nat.
Proof.
  induction l as [|p l IH]; [cbn; lia|].
  unfold ids. rewrite fmap_cons, NoDup_cons. intros [Hp Hl].
  unfold occurrences. rewrite filter_cons. case_decide as Heq; [|by apply IH].
  subst i. cbn [length]. change (S (occurrences (post_id p) l) <= 1)%nat.
  rewrite occurrences_zero by done. lia.
Qed.

Lemma StronglySorted_filter {A} (R : relation A) (P : A -> Prop)
    `{!forall x, Decision (P x)} (l : list A) :
  StronglySorted R l -> StronglySorted R (filter P l).
Proof.
  induction 1 as [|x l Hs IH Hall]; [constructor|].
  rewrite filter_cons. case_decide; [|done].
  constructor; [done|].
  apply Forall_forall. intros y [_ Hy]%list_elem_of_filter.
  rewrite Forall_forall in Hall. by apply Hall.
Qed.
End apply_helpers.

(** ** Claims on staging (C1, C8) *)

Section staging_claims.
Implicit Types (l ps : list Post) (p q : Post) (i : option string) (s : State).

(** When every held post that has the id of a fetched post is of the
    given source, the new posts are the fetched posts whose id the feed
    does not hold. *)
Lemma getNewPostsOnly_unseen (fetched : list Post) (sub : option string) (feed : Feed) :
  let held := posts feed ++ pending_posts (pending feed) in
  (forall p q, p ∈ fetched -> q ∈ held -> post_id p = post_id q -> fromSource sub q) ->
  getNewPostsOnly fetched sub feed = unseen held fetched.
Proof.
  intros held Hid. unfold getNewPostsOnly, unseen.
  apply filter_ext_elem_of. intros p Hp.
  rewrite elem_of_existingIds. unfold ids. rewrite list_elem_of_fmap. split.
  - intros Hn (q & Heq & Hq). apply Hn. exists q. split; [done|]. split; [|done].
    by apply (Hid p q).
  - intros Hn (q & Hq & _ & Heq). apply Hn. by exists q.
Qed.

(** C1: a stage call with fetched posts that are of the given source
    leaves the applied sequence alone and appends to the staging sequence
    exactly the fetched posts whose id is neither in the applied nor in
    the staging sequence, in the order of the listing: no appended post
    has an id that the feed already held, and no fetched post with a new
    id is left out. Staging the same list again appends nothing and leaves
    the whole state as it is. An id names one post (it is unique and
    stable): a fetched post with the id of a post that the feed holds has
    the subreddit of that post. *)
Theorem addPostsToPending_adds_only_unseen (fetched : list Post) (ft : FeedType)
    (sub : option string) (s : State) :
  let feed := getFeed ft (feeds s) in
  let s' := addPostsToPending fetched ft sub s in
  let feed' := getFeed ft (feeds s') in
  let held := posts feed ++ pending_posts (pending feed) in
  let added := unseen held fetched in
  (forall p, p ∈ fetched -> fromSource sub p) ->
  (forall p q, p ∈ fetched -> q ∈ held -> post_id p = post_id q ->
               post_subreddit q = post_subreddit p) ->
  posts feed' = posts feed
  /\ pending_posts (pending feed') = pending_posts (pending feed) ++ added
  /\ (forall p, p ∈ added ->
        p ∈ fetched /\ (post_id p ∉ ids (posts feed))
        /\ (post_id p ∉ ids (pending_posts (pending feed))))
  /\ (forall p, p ∈ fetched -> post_id p ∉ ids held -> p ∈ added)
  /\ unseen (posts feed' ++ pending_posts (pending feed')) fetched = []
  /\ addPostsToPending fetched ft sub s' = s'.
Proof.
  intros feed s' feed' held added Hsrc Hid.
  assert (Hheld : forall p q, p ∈ fetched -> q ∈ held -> post_id p = post_id q ->
                              fromSource sub q).
  { intros p q Hp Hq Heq. pose proof (Hsrc p Hp) as Hps. unfold fromSource in *.
    destruct (truthy sub); [|done]. by rewrite (Hid p q Hp Hq Heq). }
  destruct (addPostsToPending_feed fetched ft sub s) as [Hposts Hpend].
  cbn zeta in Hposts, Hpend. fold feed s' feed' in Hposts, Hpend.
  rewrite (getNewPostsOnly_unseen fetched sub feed Hheld) in Hpend.
  fold held added in Hpend.
  assert (Hagain : unseen (posts feed' ++ pending_posts (pending feed')) fetched = []).
  { apply filter_none. intros p Hp Hn. apply Hn.
    rewrite Hposts, Hpend, app_assoc. fold held.
    unfold ids. rewrite fmap_app, elem_of_app.
    destruct (decide (post_id p ∈ ids held)) as [Hin|Hout]; [by left|right].
    apply list_elem_of_fmap. exists p. split; [done|]. by apply list_elem_of_filter. }
  split; [done|]. split; [done|]. split; [|split; [|split; [done|]]].
  - intros p [Hn Hp]%list_elem_of_filter. split; [done|].
    unfold held, ids in Hn. rewrite fmap_app, elem_of_app in Hn. tauto.
  - intros p Hp Hn. by apply list_elem_of_filter.
  - unfold addPostsToPending at 1. cbn zeta. fold feed'.
    rewrite (getNewPostsOnly_unseen fetched sub feed'), Hagain; [done|].
    intros p q Hp Hq Heq. rewrite Hposts, Hpend, app_assoc in Hq.
    apply elem_of_app in Hq as [Hq|Hq]; [by apply (Hheld p q)|].
    apply list_elem_of_filter in Hq as [_ Hq]. by apply Hsrc.
Qed.

(** C1 at a feed that holds [x] and [w] of r/a: of the listing [y],
    [w], [x], [z] fetched for r/a, the posts [y] and [z] are staged, and a
    second call stages nothing. *)
Lemma addPostsToPending_adds_only_unseen_witness :
  let feed := getFeed MyFeed (feeds c1_state) in
  let held := posts feed ++ pending_posts (pending feed) in
  let s' := addPostsToPending c1_fetched MyFeed (Some "a") c1_state in
  (forall p, p ∈ c1_fetched -> fromSource (Some "a") p)
  /\ (forall p q, p ∈ c1_fetched -> q ∈ held -> post_id p = post_id q ->
                  post_subreddit q = post_subreddit p)
  /\ ids (posts (my (feeds s'))) = [Some "x"; Some "v"]
  /\ ids (pending_posts (pending (my (feeds s')))) = [Some "w"; Some "y"; Some "z"]
  /\ addPostsToPending c1_fetched MyFeed (Some "a") s' = s'.
Proof.
  intros feed held s'.
  assert (Hsrc : forall p, p ∈ c1_fetched -> fromSource (Some "a") p).
  { intros p Hp. repeat (apply elem_of_cons in Hp as [->|Hp]); try (vm_compute; exact I).
    by apply elem_of_nil in Hp. }
  assert (Hid : forall p q, p ∈ c1_fetched -> q ∈ held -> post_id p = post_id q ->
                            post_subreddit q = post_subreddit p).
  { intros p q Hp Hq.
    repeat (apply elem_of_cons in Hp as [->|Hp]); try (by apply elem_of_nil in Hp);
      repeat (apply elem_of_cons in Hq as [->|Hq]); try (by apply elem_of_nil in Hq);
      vm_compute; congruence. }
  split; [exact Hsrc|]. split; [exact Hid|].
  destruct (addPostsToPending_adds_only_unseen c1_fetched MyFeed (Some "a") c1_state
              Hsrc Hid) as (Hp & Hq & _ & _ & _ & Hagain).
  split; [exact (eq_trans (f_equal ids Hp) eq_refl)|].
  split; [exact (eq_trans (f_equal ids Hq) eq_refl)|exact Hagain].
Defined.

(** C8, as stated, fails: a batch that lists post [x] twice, staged
    into an empty feed, leaves [x] twice in the staging sequence. *)
Lemma addPostsToPending_keeps_batch_duplicates :
  ids (posts (my (feeds (initialState 0)))
       ++ pending_posts (pending (my (feeds (initialState 0))))) = []
  /\ ids c8_fetched = [Some "x"; Some "x"]
  /\ ids (pending_posts (pending (my (feeds
            (addPostsToPending c8_fetched MyFeed (Some "a") (initialState 0))))))
     = [Some "x"; Some "x"].
Proof. split; [|split]; vm_compute; reflexivity. Qed.

(** C8, amended: for an id that the feed holds neither applied nor
    staged, the staging sequence after a stage call holds the id as often
    as the fetched list does (duplicates within a batch are not collapsed
    on staging). They are collapsed by the next apply: afterwards the
    applied sequence holds the id at most once, and no id twice. *)
Theorem addPostsToPending_stages_every_occurrence (fetched : list Post) (ft : FeedType)
    (sub : option string) (s : State) (i : option string) (now : Z) :
  let feed := getFeed ft (feeds s) in
  let s' := addPostsToPending fetched ft sub s in
  i ∉ ids (posts feed) -> i ∉ ids (pending_posts (pending feed)) ->
  occurrences i (pending_posts (pending (getFeed ft (feeds s')))) = occurrences i fetched
  /\ (i ∈ ids fetched ->
      (occurrences i (posts (getFeed ft (feeds (applyPendingUpdates now s')))) <= 1)%nat
      /\ NoDup (ids (posts (getFeed ft (feeds (applyPendingUpdates now s')))))).
Proof.
  intros feed s' Hposts Hpend.
  destruct (addPostsToPending_feed fetched ft sub s) as [Hp' Hpe'].
  cbn zeta in Hp', Hpe'. fold feed s' in Hp', Hpe'.
  assert (Hnew : i ∉ existingIds sub feed).
  { rewrite elem_of_existingIds. intros (q & Hq & _ & Heq).
    apply elem_of_app in Hq as [Hq|Hq]; [apply Hposts|apply Hpend];
      unfold ids; apply list_elem_of_fmap; eauto. }
  assert (Hocc : occurrences i (getNewPostsOnly fetched sub feed) = occurrences i fetched).
  { unfold occurrences, getNewPostsOnly. rewrite list_filter_filter_l; [done|].
    intros q Hq. by rewrite Hq. }
  split.
  - rewrite Hpe', occurrences_app, Hocc, occurrences_zero by done. done.
  - intros Hin.
    assert (Hne : pending_posts (pending (getFeed ft (feeds s'))) ≠ []).
    { intros Hnil. rewrite Hpe' in Hnil. apply app_eq_nil in Hnil as [_ Hnil].
      rewrite Hnil in Hocc. cbn in Hocc.
      unfold ids in Hin. apply list_elem_of_fmap in Hin as (q & Heq & Hq).
      symmetry in Hocc. unfold occurrences in Hocc. apply length_zero_iff_nil in Hocc.
      by pose proof (filter_nil_not_elem_of _ _ q Hocc (eq_sym Heq)). }
    pose proof (applyPendingUpdates_feed ft now s') as Happ. cbn zeta in Happ.
    destruct (pending_posts (pending (getFeed ft (feeds s')))) as [|x xs] eqn:Epe; [done|].
    destruct Happ as [-> _].
    assert (Hnd : NoDup (ids (filter (keptByAge now (bookmarkedIds s'))
                 (sortByCreatedDesc (removeDuplicates
                    ((x :: xs) ++ posts (getFeed ft (feeds s')))))))).
    { eapply sublist_NoDup; [|apply (ids_filter_sublist _)].
      apply sortByCreatedDesc_NoDup. rewrite removeDuplicates_keepFirst.
      apply keepFirstById_NoDup. }
    split; [by apply occurrences_NoDup|done].
Qed.

(** The amended C8 at the batch that lists [x] twice. *)
Lemma addPostsToPending_stages_every_occurrence_witness :
  let s' := addPostsToPending c8_fetched MyFeed (Some "a") (initialState 0) in
  (Some "x" ∉ ids (posts (my (feeds (initialState 0)))))
  /\ (Some "x" ∉ ids (pending_posts (pending (my (feeds (initialState 0))))))
  /\ occurrences (Some "x") (pending_posts (pending (my (feeds s')))) = 2%nat
  /\ NoDup (ids (posts (my (feeds (applyPendingUpdates 20000 s'))))).
Proof.
  intros s'.
  assert (H1 : Some "x" ∉ ids (posts (my (feeds (initialState 0)))))
    by apply not_elem_of_nil.
  assert (H2 : Some "x" ∉ ids (pending_posts (pending (my (feeds (initialState 0))))))
    by apply not_elem_of_nil.
  destruct (addPostsToPending_stages_every_occurrence c8_fetched MyFeed (Some "a")
              (initialState 0) (Some "x") 20000 H1 H2) as [Hocc Hdup].
  split; [exact H1|]. split; [exact H2|]. split; [exact Hocc|].
  apply Hdup. apply elem_of_cons. by left.
Defined.
End staging_claims.

(** ** Claim on apply (C2) *)

Section apply_claims.
Implicit Types (l ps : list Post) (p q : Post) (i : option string) (s : State).


End apply_claims.

(** ** Storage manager *)

Section eviction.
Implicit Types (l ps : list Post) (p q : Post) (i : option string) (s : State).
Implicit Types (B acc : gset (option string)).

Lemma removeCountOf_spec (n : nat) :
  5 * Z.of_nat (removeCountOf n) - 5 < Z.of_nat n <= 5 * Z.of_nat (removeCountOf n).
Proof.
  unfold removeCountOf, Qceiling, Qfloor. cbn.
  change (Z.pos (1 * 10)) with 10.
  pose proof (Z.div_mod (- (Z.of_nat n * 2)) 10 ltac:(lia)) as Hdm.
  pose proof (Z.mod_pos_bound (- (Z.of_nat n * 2)) 10 ltac:(lia)) as Hmb.
  set (d := (- (Z.of_nat n * 2)) `div` 10) in *.
  set (m := (- (Z.of_nat n * 2)) `mod` 10) in *.
  rewrite Z2Nat.id by lia. lia.
Qed.

Lemma dropUnpinned_zero B l : dropUnpinned 0 B l = l.
Proof. induction l as [|p l IH]; cbn; [done|]. case_decide; [by rewrite IH|done]. Qed.

Lemma dropUnpinned_none l k : dropUnpinned k ∅ l = drop k l.
Proof.
  revert k. induction l as [|p l IH]; intros k; cbn; [by destruct k|].
  rewrite decide_False by apply not_elem_of_empty. destruct k; [done|]. apply IH.
Qed.

Lemma dropUnpinned_length B l k :
  length (dropUnpinned k B l) = (length l - k `min` length (unpinned B l))%nat.
Proof.
  revert k. unfold unpinned. induction l as [|p l IH]; intros k; cbn [dropUnpinned]; [done|].
  rewrite filter_cons. destruct (decide (post_id p ∈ B)) as [Hin|Hnin].
  - rewrite decide_False by (intros Hn; by apply Hn). cbn [length]. rewrite IH.
    pose proof (length_filter (fun p => post_id p ∉ B) l). lia.
  - rewrite decide_True by done. destruct k as [|k]; cbn [length]; [lia|].
    rewrite IH. pose proof (length_filter (fun p => post_id p ∉ B) l). lia.
Qed.

(** What the loop collects, relative to the ids already collected. *)
Lemma collectRemovedIds_bounds B k acc l i :
  i ∈ collectRemovedIds B k acc l -> i ∈ acc \/ ((i ∉ B) /\ i ∈ ids l).
Proof.
  revert acc. induction l as [|p l IH]; intros acc; cbn [collectRemovedIds]; [by left|].
  case_decide; [|by left].
  intros [Hacc|[HB Hl]]%IH; unfold ids; rewrite fmap_cons, elem_of_cons.
  - case_decide; [by left|].
    apply elem_of_union in Hacc as [->%elem_of_singleton|Hacc]; [right|left]; auto.
  - right. auto.
Qed.

Lemma collectRemovedIds_mono B k acc l : acc ⊆ collectRemovedIds B k acc l.
Proof.
  revert acc. induction l as [|p l IH]; intros acc; cbn; [done|].
  case_decide; [|done]. etrans; [|apply IH]. case_decide; [done|]. apply union_subseteq_r.
Qed.

Lemma collectRemovedIds_refines B k acc l :
  NoDup (ids l) -> (forall i, i ∈ ids l -> i ∉ acc) -> (size acc <= k)%nat ->
  filter (fun p => post_id p ∉ collectRemovedIds B k acc l) l
  = dropUnpinned (k - size acc) B l.
Proof.
  revert acc. induction l as [|p l IH]; intros acc Hnd Hdisj Hsize; [done|].
  unfold ids in Hnd, Hdisj. rewrite fmap_cons in Hnd, Hdisj.
  apply NoDup_cons in Hnd as [Hp Hnd].
  assert (Hpacc : post_id p ∉ acc) by (apply Hdisj; left).
  assert (Hlacc : forall i, i ∈ ids l -> i ∉ acc) by (intros i Hi; apply Hdisj; by right).
  cbn [collectRemovedIds dropUnpinned].
  destruct (decide (size acc < k)%nat) as [Hlt|Hge].
  - destruct (decide (post_id p ∈ B)) as [Hin|Hnin].
    + rewrite filter_cons_True.
      * f_equal. by apply IH.
      * intros [?|[_ ?]]%collectRemovedIds_bounds; done.
    + rewrite filter_cons_False.
      * assert (Hsz : size ({[post_id p]} ∪ acc) = S (size acc)).
        { rewrite size_union by (apply disjoint_singleton_l; done).
          by rewrite size_singleton. }
        rewrite IH; [| done | | lia].
        -- rewrite Hsz. by replace (k - size acc)%nat with (S (k - S (size acc))) by lia.
        -- intros i Hi [->%elem_of_singleton|Hacc]%elem_of_union; [done|].
           by apply (Hlacc i).
      * intros Hn. apply Hn. apply collectRemovedIds_mono.
        apply elem_of_union_l. by apply elem_of_singleton.
  - replace (k - size acc)%nat with 0%nat by lia.
    rewrite filter_all.
    + case_decide; [by rewrite dropUnpinned_zero|done].
    + apply Forall_forall. intros q Hq. apply Hdisj.
      rewrite <- fmap_cons. apply list_elem_of_fmap. eauto.
Qed.

Lemma removedIdsOf_spec s i :
  i ∈ removedIdsOf s -> (i ∉ bookmarkedIds s) /\ i ∈ ids (posts (my (feeds s))).
Proof.
  unfold removedIdsOf.
  intros [Hemp|[HB Hin]]%collectRemovedIds_bounds; [by apply not_elem_of_empty in Hemp|].
  split; [done|]. unfold ids in *. by rewrite fmap_reverse, elem_of_reverse in Hin.
Qed.

Lemma removedIdsOf_refines s :
  NoDup (ids (posts (my (feeds s)))) ->
  filter (fun p => post_id p ∉ removedIdsOf s) (posts (my (feeds s)))
  = evictOldest (removeCountOf (length (posts (my (feeds s))))) (bookmarkedIds s)
      (posts (my (feeds s))).
Proof.
  intros Hnd. unfold evictOldest, removedIdsOf.
  set (R := collectRemovedIds _ _ _ _).
  transitivity (reverse (filter (fun p => post_id p ∉ R) (reverse (posts (my (feeds s)))))).
  { by rewrite filter_reverse, reverse_involutive. }
  f_equal. subst R.
  rewrite collectRemovedIds_refines.
  - by rewrite size_empty, Nat.sub_0_r.
  - unfold ids. rewrite fmap_reverse. by rewrite reverse_Permutation.
  - intros i _. apply not_elem_of_empty.
  - rewrite size_empty. lia.
Qed.

Lemma sameButAppliedPosts_refl s : sameButAppliedPosts s s.
Proof. repeat split. Qed.

Lemma sameButAppliedPosts_trans s1 s2 s3 :
  sameButAppliedPosts s1 s2 -> sameButAppliedPosts s2 s3 -> sameButAppliedPosts s1 s3.
Proof.
  unfold sameButAppliedPosts. intros H12 H23.
  repeat match goal with H : _ /\ _ |- _ => destruct H end.
  split_and!; etrans; eassumption.
Qed.

Lemma evictOldestFifth_frame s : sameButAppliedPosts s (evictOldestFifth s).
Proof. repeat split. Qed.

(** A property that one eviction keeps is kept by [saveState]. *)
Lemma saveState_invariant (P : State -> Prop) (write : State -> SetItem) :
  (forall s, P s -> P (evictOldestFifth s)) ->
  forall depth s, P s -> P (saveState write depth s).2.
Proof.
  intros Hstep depth. induction depth as [|depth IH]; intros s Hs; cbn [saveState].
  - by destruct (write s).
  - destruct (write s) as [|size|]; [done| |done].
    unfold cleanupOldPostsWith. destruct (Qlt_le_dec _ _); [done|].
    specialize (IH _ (Hstep _ Hs)).
    by destruct (saveState write depth (evictOldestFifth s)) as [[?|] ?].
Qed.

Lemma cleanupOldPosts_invariant (P : State -> Prop) (write : State -> SetItem) :
  (forall s, P s -> P (evictOldestFifth s)) ->
  forall depth size s, P s -> P (cleanupOldPosts write depth size s).2.
Proof.
  intros Hstep depth size s Hs. unfold cleanupOldPosts, cleanupOldPostsWith.
  destruct (Qlt_le_dec _ _); [done|].
  pose proof (saveState_invariant P write Hstep depth _ (Hstep _ Hs)) as Hsave.
  by destruct (saveState write depth (evictOldestFifth s)) as [[?|] ?].
Qed.

Lemma cleanupOldPosts_below write depth size s :
  (getStorageUsagePercent size s < CLEANUP_THRESHOLD)%Q ->
  cleanupOldPosts write depth size s = (Returned (), s).
Proof.
  intros Hlt. unfold cleanupOldPosts, cleanupOldPostsWith.
  destruct (Qlt_le_dec _ _) as [_|Hle]; [done|].
  exfalso. by apply (Qlt_not_le _ _ Hlt).
Qed.

(** At or above the threshold the state goes through one eviction and
    then through the closing [saveState()]. *)
Lemma cleanupOldPosts_above write depth size s :
  ~ (getStorageUsagePercent size s < CLEANUP_THRESHOLD)%Q ->
  (cleanupOldPosts write depth size s).2 = (saveState write depth (evictOldestFifth s)).2.
Proof.
  intros Hge. unfold cleanupOldPosts, cleanupOldPostsWith.
  destruct (Qlt_le_dec _ _) as [Hlt|_]; [done|].
  by destruct (saveState write depth (evictOldestFifth s)) as [[?|] ?].
Qed.

(** A write that does not raise [QuotaExceededError] ends [saveState]
    where it is. *)
Lemma saveState_no_quota write depth s :
  (forall size, write s ≠ QuotaExceededError size) -> (saveState write depth s).2 = s.
Proof.
  intros Hw. destruct depth; cbn [saveState]; destruct (write s) as [|size|] eqn:E;
    try done; by destruct (Hw size).
Qed.

(** A write that raises it hands the state to a nested cleanup. *)
Lemma saveState_quota write depth size s :
  write s = QuotaExceededError size ->
  (saveState write (S depth) s).2 = (cleanupOldPosts write depth size s).2.
Proof.
  intros Hw. cbn [saveState]. rewrite Hw. unfold cleanupOldPosts.
  by destruct (cleanupOldPostsWith (saveState write depth) size s) as [[?|] ?].
Qed.

Lemma evictOldestFifth_posts s :
  posts (my (feeds (evictOldestFifth s)))
    = filter (fun p => post_id p ∉ removedIdsOf s) (posts (my (feeds s)))
  /\ posts (popular (feeds (evictOldestFifth s)))
    = filter (fun p => post_id p ∉ removedIdsOf s) (posts (popular (feeds s))).
Proof. done. Qed.
End eviction.

(** ** Claims on eviction (C6, C7, C10) *)

Section eviction_claims.
Implicit Types (l ps : list Post) (p q : Post) (i : option string) (s : State).

(** One eviction of a feed with distinct ids. *)
Lemma evictOldestFifth_distinct s :
  let mine := posts (my (feeds s)) in
  let k := removeCountOf (length mine) in
  NoDup (ids mine) ->
  posts (my (feeds (evictOldestFifth s))) = evictOldest k (bookmarkedIds s) mine
  /\ length (posts (my (feeds (evictOldestFifth s))))
     = (length mine - k `min` length (unpinned (bookmarkedIds s) mine))%nat.
Proof.
  intros mine k Hnd.
  assert (Hm : posts (my (feeds (evictOldestFifth s))) = evictOldest k (bookmarkedIds s) mine)
    by (by apply removedIdsOf_refines).
  split; [done|]. rewrite Hm. unfold evictOldest.
  rewrite length_reverse, dropUnpinned_length, length_reverse. unfold unpinned.
  by rewrite filter_reverse, length_reverse.
Qed.

(** The ids that one eviction removes are those that [my] loses. *)
Lemma evictOldestFifth_removed s i :
  i ∈ removedIdsOf s
  <-> i ∈ ids (posts (my (feeds s))) /\ (i ∉ ids (posts (my (feeds (evictOldestFifth s))))).
Proof.
  destruct (evictOldestFifth_posts s) as [-> _]. split.
  - intros Hi. split; [by apply removedIdsOf_spec|].
    unfold ids. rewrite list_elem_of_fmap. intros (q & -> & Hq).
    by apply list_elem_of_filter in Hq as [Hq _].
  - intros [Hi Hni]. destruct (decide (i ∈ removedIdsOf s)) as [|Hout]; [done|].
    exfalso. apply Hni. unfold ids in *.
    apply list_elem_of_fmap in Hi as (q & -> & Hq).
    apply list_elem_of_fmap. exists q. split; [done|]. by apply list_elem_of_filter.
Qed.

(** One eviction of a feed with distinct ids and nothing starred: the
    feed keeps its head, and [popular] loses the ids of the tail. *)
Lemma evictOldestFifth_none_starred s :
  let mine := posts (my (feeds s)) in
  let kept := (length mine - removeCountOf (length mine))%nat in
  starred_posts (starred (feeds s)) = [] -> NoDup (ids mine) ->
  posts (my (feeds (evictOldestFifth s))) = take kept mine
  /\ posts (popular (feeds (evictOldestFifth s)))
     = filter (fun p => post_id p ∉ ids (drop kept mine)) (posts (popular (feeds s))).
Proof.
  intros mine kept Hstar Hnd.
  assert (Hpin : bookmarkedIds s = ∅) by (unfold bookmarkedIds; by rewrite Hstar).
  assert (Hmine : posts (my (feeds (evictOldestFifth s))) = take kept mine).
  { rewrite (proj1 (evictOldestFifth_distinct s Hnd)), Hpin. unfold evictOldest.
    by rewrite dropUnpinned_none, reverse_drop, length_reverse, reverse_involutive. }
  split; [done|].
  destruct (evictOldestFifth_posts s) as [_ ->].
  apply list_filter_iff. intros q. rewrite evictOldestFifth_removed, Hmine.
  fold mine. rewrite <- (take_drop kept mine) in Hnd at 1.
  rewrite <- (take_drop kept mine) at 1.
  unfold ids in *. rewrite fmap_app in *. apply NoDup_app in Hnd as (_ & Hdis & _).
  rewrite elem_of_app. split.
  - intros Hn Hd. apply Hn. split; [by right|]. intros Ht. by apply (Hdis _ Ht).
  - intros Hn [[Ht|Hd] Hnt]; [done|]. by apply Hn.
Qed.

(** Two rounds: a feed of 1000 distinct posts with nothing starred, at
    95% occupancy, in a storage that has no room for more than 700
    posts. *)
Lemma cleanupOldPosts_two_rounds (depth : nat) (size : Z) (s : State) :
  let write := writeFullAbove 700 size in
  let mine := posts (my (feeds s)) in
  let s' := (cleanupOldPosts write (S (S depth)) size s).2 in
  length mine = 1000%nat -> starred_posts (starred (feeds s)) = [] ->
  NoDup (ids mine) -> (getStorageUsagePercent size s == 95)%Q ->
  write (evictOldestFifth s) = QuotaExceededError size
  /\ posts (my (feeds s')) = take 640 mine
  /\ length (posts (my (feeds s'))) = 640%nat.
Proof.
  intros write mine s' Hlen Hstar Hnd H95.
  assert (Hge : ~ (getStorageUsagePercent size s < CLEANUP_THRESHOLD)%Q).
  { rewrite H95. by vm_compute. }
  destruct (evictOldestFifth_none_starred s Hstar Hnd) as [H1 _].
  fold mine in H1. rewrite Hlen in H1.
  change (1000 - removeCountOf 1000)%nat with 800%nat in H1.
  assert (Hw1 : write (evictOldestFifth s) = QuotaExceededError size).
  { unfold write, writeFullAbove. rewrite H1, decide_True; [done|].
    rewrite length_take. lia. }
  destruct (evictOldestFifth_none_starred (evictOldestFifth s) Hstar) as [H2 _].
  { rewrite H1. eapply sublist_NoDup; [exact Hnd|]. apply fmap_sublist, sublist_take. }
  rewrite H1, length_take, Hlen, take_take in H2.
  change (800 `min` 1000)%nat with 800%nat in H2.
  change ((800 - removeCountOf 800) `min` 800)%nat with 640%nat in H2.
  assert (Hw2 : forall size', write (evictOldestFifth (evictOldestFifth s))
                              ≠ QuotaExceededError size').
  { intros size'. unfold write, writeFullAbove. rewrite H2, decide_False; [done|].
    rewrite length_take. lia. }
  assert (Hs' : s' = evictOldestFifth (evictOldestFifth s)).
  { unfold s'. rewrite cleanupOldPosts_above by done.
    rewrite (saveState_quota write (S depth) size _ Hw1).
    rewrite cleanupOldPosts_above by done.
    by apply saveState_no_quota. }
  split; [exact Hw1|]. rewrite Hs', H2. split; [done|]. rewrite length_take. lia.
Qed.

(** C6, as stated, fails: [cleanupOldPosts] ends with [saveState()], and
    when that write is refused for lack of room the handler of
    [saveState] runs [cleanupOldPosts] again, at the same occupancy, on
    what is left. A feed of 1000 distinct posts with nothing starred, at
    95% occupancy, in a storage that has no room for more than 700
    posts, is left with its first 640 posts: 200 are removed, then 160
    more. *)
Lemma cleanupOldPosts_evicts_again :
  let write := writeFullAbove 700 size95 in
  let s' := (cleanupOldPosts write 100 size95 c6_state).2 in
  length (posts (my (feeds c6_state))) = 1000%nat
  /\ starred_posts (starred (feeds c6_state)) = []
  /\ NoDup (ids (posts (my (feeds c6_state))))
  /\ (getStorageUsagePercent size95 c6_state == 95)%Q
  /\ write (evictOldestFifth c6_state) = QuotaExceededError size95
  /\ posts (my (feeds s')) = take 640 thousandPosts
  /\ length (posts (my (feeds s'))) = 640%nat.
Proof.
  intros write s'.
  assert (Hlen : length (posts (my (feeds c6_state))) = 1000%nat) by (by vm_compute).
  assert (Hstar : starred_posts (starred (feeds c6_state)) = []) by reflexivity.
  assert (Hnd : NoDup (ids (posts (my (feeds c6_state))))).
  { apply (bool_decide_unpack _). by vm_compute. }
  assert (H95 : (getStorageUsagePercent size95 c6_state == 95)%Q) by (by vm_compute).
  repeat (split; [assumption|]).
  exact (cleanupOldPosts_two_rounds 98 size95 c6_state Hlen Hstar Hnd H95).
Qed.

(** C6, amended: below the threshold [cleanupOldPosts] changes nothing.
    At or above it, with [k] the ceiling of a fifth of the length of the
    [my] feed, it removes from [my] and from [popular] the posts whose id
    is in a set of ids evicted from [my], and leaves the rest of the state
    as it was; when the ids of [my] are distinct these are the [k]
    non-starred posts nearest to the tail (as many as there are, if
    fewer). The state [s1] so reached is then saved: if that write does
    not raise [QuotaExceededError], [s1] is the result; if it does, the
    result is that of a further [cleanupOldPosts] on [s1] at the size
    measured then, or [s1] when the call stack is exhausted. In
    particular a feed of 1000 distinct posts with nothing starred, at 95%
    occupancy, whose write after the eviction does not raise
    [QuotaExceededError], keeps its first 800 posts: exactly the 200
    oldest are removed, and their ids are removed from [popular]. *)
Theorem cleanupOldPosts_evicts_oldest_fifth (write : State -> SetItem) (depth : nat)
    (size : Z) (s : State) :
  let percent := getStorageUsagePercent size s in
  let mine := posts (my (feeds s)) in
  let k := removeCountOf (length mine) in
  let pinned := bookmarkedIds s in
  let s1 := evictOldestFifth s in
  let s' := (cleanupOldPosts write depth size s).2 in
  (0 < storageQuota s)%Q ->
  ((percent < CLEANUP_THRESHOLD)%Q -> s' = s)
  /\ (~ (percent < CLEANUP_THRESHOLD)%Q ->
      5 * Z.of_nat k - 5 < Z.of_nat (length mine) <= 5 * Z.of_nat k
      /\ (exists removed : gset (option string),
            posts (my (feeds s1)) = filter (fun p => post_id p ∉ removed) mine
            /\ posts (popular (feeds s1))
               = filter (fun p => post_id p ∉ removed) (posts (popular (feeds s)))
            /\ forall i, i ∈ removed <->
                         i ∈ ids mine /\ (i ∉ ids (posts (my (feeds s1)))))
      /\ sameButAppliedPosts s s1
      /\ (NoDup (ids mine) ->
          posts (my (feeds s1)) = evictOldest k pinned mine
          /\ length (posts (my (feeds s1)))
             = (length mine - k `min` length (unpinned pinned mine))%nat)
      /\ ((forall size', write s1 ≠ QuotaExceededError size') -> s' = s1)
      /\ (forall size', write s1 = QuotaExceededError size' ->
          match depth with
          | O => s' = s1
          | S depth' => s' = (cleanupOldPosts write depth' size' s1).2
          end))
  /\ (length mine = 1000%nat -> starred_posts (starred (feeds s)) = [] ->
      NoDup (ids mine) -> (percent == 95)%Q ->
      (forall size', write s1 ≠ QuotaExceededError size') ->
      posts (my (feeds s')) = take 800 mine
      /\ length (posts (my (feeds s'))) = 800%nat
      /\ posts (popular (feeds s'))
         = filter (fun p => post_id p ∉ ids (drop 800 mine)) (posts (popular (feeds s)))).
Proof.
  intros percent mine k pinned s1 s' _.
  assert (Hone : ~ (percent < CLEANUP_THRESHOLD)%Q ->
            (forall size', write s1 ≠ QuotaExceededError size') -> s' = s1).
  { intros Hge Hw. unfold s'. rewrite cleanupOldPosts_above by done.
    by apply saveState_no_quota. }
  split; [|split].
  - intros Hlt. unfold s'. by rewrite cleanupOldPosts_below.
  - intros Hge. split; [apply removeCountOf_spec|]. split.
    { exists (removedIdsOf s). destruct (evictOldestFifth_posts s) as [Hm Hp].
      split; [done|]. split; [done|]. apply evictOldestFifth_removed. }
    split; [apply evictOldestFifth_frame|].
    split; [apply evictOldestFifth_distinct|]. split; [by apply Hone|].
    intros size' Hw. unfold s'. rewrite cleanupOldPosts_above by done. fold s1.
    destruct depth as [|depth'].
    + cbn [saveState]. by rewrite Hw.
    + by apply saveState_quota.
  - intros Hlen Hstar Hnd H95 Hw.
    assert (Hge : ~ (percent < CLEANUP_THRESHOLD)%Q).
    { rewrite H95. by vm_compute. }
    rewrite (Hone Hge Hw).
    destruct (evictOldestFifth_none_starred s Hstar Hnd) as [Hm Hp].
    fold mine in Hm, Hp. rewrite Hlen in Hm, Hp.
    change (1000 - removeCountOf 1000)%nat with 800%nat in Hm, Hp.
    split; [exact Hm|]. split; [|exact Hp].
    fold s1 in Hm. rewrite Hm, length_take. lia.
Qed.
(** C6 at the feed of 1000 posts: at 95% in a storage that takes the
    write after the eviction, at 95% in a storage that has no room for
    more than 700 posts, and at 10% of the quota. *)
Lemma cleanupOldPosts_evicts_oldest_fifth_witness :
  (0 < storageQuota c6_state)%Q
  /\ length (posts (my (feeds c6_state))) = 1000%nat
  /\ starred_posts (starred (feeds c6_state)) = []
  /\ NoDup (ids (posts (my (feeds c6_state))))
  /\ (getStorageUsagePercent size95 c6_state == 95)%Q
  /\ posts (my (feeds (cleanupOldPosts writeAccepted 100 size95 c6_state).2))
     = take 800 thousandPosts
  /\ (cleanupOldPosts (writeFullAbove 700 size95) 100 size95 c6_state).2
     = (cleanupOldPosts (writeFullAbove 700 size95) 99 size95 (evictOldestFifth c6_state)).2
  /\ (getStorageUsagePercent 524288 c6_state < CLEANUP_THRESHOLD)%Q
  /\ (cleanupOldPosts writeAccepted 100 524288 c6_state).2 = c6_state.
Proof.
  assert (Hq : (0 < storageQuota c6_state)%Q) by (by vm_compute).
  assert (Hlen : length (posts (my (feeds c6_state))) = 1000%nat) by (by vm_compute).
  assert (Hstar : starred_posts (starred (feeds c6_state)) = []) by reflexivity.
  assert (Hnd : NoDup (ids (posts (my (feeds c6_state))))).
  { apply (bool_decide_unpack _). by vm_compute. }
  assert (H95 : (getStorageUsagePercent size95 c6_state == 95)%Q) by (by vm_compute).
  assert (Hge : ~ (getStorageUsagePercent size95 c6_state < CLEANUP_THRESHOLD)%Q)
    by (by vm_compute).
  assert (H10 : (getStorageUsagePercent 524288 c6_state < CLEANUP_THRESHOLD)%Q)
    by (by vm_compute).
  assert (Hw : forall size', writeAccepted (evictOldestFifth c6_state)
                             ≠ QuotaExceededError size') by done.
  assert (Hfull : writeFullAbove 700 size95 (evictOldestFifth c6_state)
                  = QuotaExceededError size95).
  { unfold writeFullAbove.
    rewrite (proj1 (evictOldestFifth_none_starred c6_state eq_refl Hnd)), decide_True;
      [done|].
    rewrite length_take. vm_compute. lia. }
  repeat (split; [assumption|]). split.
  - exact (proj1 (proj2 (proj2 (cleanupOldPosts_evicts_oldest_fifth
                                  writeAccepted 100 size95 c6_state Hq))
                   Hlen Hstar Hnd H95 Hw)).
  - split.
    + exact (proj2 (proj2 (proj2 (proj2 (proj2 (proj1 (proj2
               (cleanupOldPosts_evicts_oldest_fifth (writeFullAbove 700 size95) 100
                  size95 c6_state Hq)) Hge))))) size95 Hfull).
    + split; [exact H10|].
      exact (proj1 (cleanupOldPosts_evicts_oldest_fifth writeAccepted 100 524288 c6_state Hq)
               H10).
Defined.

Lemma keptByAgeFor_starred (maxAgeDays now : Z) (B : gset (option string)) (p : Post) :
  post_id p ∈ B -> keptByAgeFor maxAgeDays now B p.
Proof.
  intros Hin. unfold keptByAgeFor. rewrite (bool_decide_eq_true_2 _ Hin).
  by rewrite andb_false_r.
Qed.

Lemma keptByAge_starred (now : Z) (B : gset (option string)) (p : Post) :
  post_id p ∈ B -> keptByAge now B p.
Proof. apply keptByAgeFor_starred. Qed.

(** C7: neither eviction path removes a post whose id is that of a
    starred post, from the [my] feed or from the [popular] feed: not the
    age-based cleanup, for any maximum age (so for the configured one)
    and any clock, and not the occupancy-based cleanup, whatever the
    occupancy and the feeds are, and whatever the storage answers to the
    write that closes it: over all the rounds that it then runs. *)
Theorem eviction_spares_starred (maxAgeDays now size : Z) (write : State -> SetItem)
    (depth : nat) (s : State) (p : Post) :
  post_id p ∈ ids (starred_posts (starred (feeds s))) ->
  (p ∈ posts (my (feeds s)) ->
     p ∈ posts (my (feeds (cleanupOldPostsByAgeFor maxAgeDays now s)))
     /\ p ∈ posts (my (feeds (cleanupOldPostsByAge now s)))
     /\ p ∈ posts (my (feeds (cleanupOldPosts write depth size s).2)))
  /\ (p ∈ posts (popular (feeds s)) ->
     p ∈ posts (popular (feeds (cleanupOldPostsByAgeFor maxAgeDays now s)))
     /\ p ∈ posts (popular (feeds (cleanupOldPostsByAge now s)))
     /\ p ∈ posts (popular (feeds (cleanupOldPosts write depth size s).2))).
Proof.
  intros Hstar.
  assert (HB : post_id p ∈ bookmarkedIds s) by (by apply elem_of_list_to_set).
  assert (Hage : forall d (l : list Post),
            p ∈ l -> p ∈ filter (keptByAgeFor d now (bookmarkedIds s)) l).
  { intros d l Hin. apply list_elem_of_filter. split; [by apply keptByAgeFor_starred|done]. }
  set (P := fun s' => starred (feeds s') = starred (feeds s)
                      /\ (p ∈ posts (my (feeds s)) -> p ∈ posts (my (feeds s')))
                      /\ (p ∈ posts (popular (feeds s)) -> p ∈ posts (popular (feeds s')))).
  assert (Hstep : forall s', P s' -> P (evictOldestFifth s')).
  { intros s' (Hs & Hm & Hp).
    assert (Hrem : post_id p ∉ removedIdsOf s').
    { intros [Hn _]%removedIdsOf_spec. apply Hn. unfold bookmarkedIds. by rewrite Hs. }
    split; [done|]. split; intros Hin; cbn; apply list_elem_of_filter; auto. }
  destruct (cleanupOldPosts_invariant P write Hstep depth size s) as (_ & Hmy & Hpop);
    [done|].
  split; intros Hin; (split; [by apply Hage|]); (split; [by apply Hage|]); auto.
Qed.

(** C7 at a feed whose oldest post is starred, long expired, and first
    in line for the occupancy eviction, in a storage that has room for
    no post at all. *)
Lemma eviction_spares_starred_witness :
  let p := mkPost "s" "a" 0 in
  post_id p ∈ ids (starred_posts (starred (feeds c7_state)))
  /\ p ∈ posts (my (feeds c7_state))
  /\ isOld c7_now p = true
  /\ p ∈ posts (my (feeds (cleanupOldPostsByAge c7_now c7_state)))
  /\ p ∈ posts (my (feeds (cleanupOldPosts (writeFullAbove 0 size95) 100 size95 c7_state).2)).
Proof.
  intros p.
  assert (Hstar : post_id p ∈ ids (starred_posts (starred (feeds c7_state))))
    by (apply elem_of_cons; by left).
  assert (Hin : p ∈ posts (my (feeds c7_state)))
    by (do 2 (apply elem_of_cons; right); apply elem_of_cons; by left).
  split; [exact Hstar|]. split; [exact Hin|]. split; [by vm_compute|].
  destruct (eviction_spares_starred MAX_POST_AGE_DAYS c7_now size95
              (writeFullAbove 0 size95) 100 c7_state p Hstar) as [Hmy _].
  destruct (Hmy Hin) as (_ & H1 & H3).
  split; [exact H1|exact H3].
Defined.

(** The starred posts of a feed keep their order and number. *)
Lemma cleanupOldPostsByAge_starred_kept (now : Z) (s : State) :
  filter (fun p => post_id p ∈ bookmarkedIds s) (posts (my (feeds (cleanupOldPostsByAge now s))))
  = filter (fun p => post_id p ∈ bookmarkedIds s) (posts (my (feeds s))).
Proof.
  cbn. rewrite list_filter_filter_l; [done|]. intros p. apply keptByAge_starred.
Qed.

(** C10: both eviction operations leave every part of the state but
    the applied posts of the [my] and [popular] feeds as it was: staging
    sequences, [lastFetch] maps, the starred feed, the job queue, the
    rate-limit state and the rest; the occupancy-based one over all the
    rounds that it runs, whatever the storage answers. In particular a
    staged post older than the maximum age is still staged after the
    age-based cleanup. *)
Theorem eviction_frame (now size : Z) (write : State -> SetItem) (depth : nat) (s : State) :
  sameButAppliedPosts s (cleanupOldPostsByAge now s)
  /\ sameButAppliedPosts s (cleanupOldPosts write depth size s).2
  /\ (forall p, p ∈ pending_posts (pending (my (feeds s))) -> isOld now p = true ->
                p ∈ pending_posts (pending (my (feeds (cleanupOldPostsByAge now s)))))
  /\ (forall p, p ∈ pending_posts (pending (popular (feeds s))) -> isOld now p = true ->
                p ∈ pending_posts (pending (popular (feeds (cleanupOldPostsByAge now s))))).
Proof.
  split; [|split; [|split]].
  - repeat split.
  - apply (cleanupOldPosts_invariant (sameButAppliedPosts s)); [|apply sameButAppliedPosts_refl].
    intros s' Hs'. eapply sameButAppliedPosts_trans; [exact Hs'|apply evictOldestFifth_frame].
  - intros p Hp _. exact Hp.
  - intros p Hp _. exact Hp.
Qed.

(** C10 at a feed with an expired staged post. *)
Lemma eviction_frame_witness :
  let p := mkPost "staged" "a" 1 in
  p ∈ pending_posts (pending (my (feeds c7_state)))
  /\ isOld c7_now p = true
  /\ p ∈ pending_posts (pending (my (feeds (cleanupOldPostsByAge c7_now c7_state)))).
Proof.
  intros p.
  assert (Hin : p ∈ pending_posts (pending (my (feeds c7_state))))
    by (apply elem_of_cons; by left).
  assert (Hold : isOld c7_now p = true) by (by vm_compute).
  split; [exact Hin|]. split; [exact Hold|].
  exact (proj1 (proj2 (proj2 (eviction_frame c7_now size95 writeAccepted 100 c7_state)))
           p Hin Hold).
Defined.
End eviction_claims.

(** ** Claim on the sync queue (C3) *)

Section queue_claims.
Implicit Types (q : list Job) (job a b : Job) (s : State).

Lemma existsb_equivalentJob type sub q :
  existsb (equivalentJob type sub) q = true
  <-> exists job, job ∈ q /\ job_type job = type /\ job_subreddit job = sub
                  /\ nonTerminal job.
Proof.
  rewrite existsb_exists. split.
  - intros (job & Hin & Heq). exists job. unfold equivalentJob in Heq.
    apply andb_prop in Heq as [Heq Hnt]. apply andb_prop in Heq as [Ht Hs].
    apply bool_decide_eq_true in Ht, Hs.
    rewrite <- list_elem_of_In in Hin. rewrite Hnt. done.
  - intros (job & Hin & Ht & Hs & Hnt). exists job.
    split; [by apply list_elem_of_In|].
    unfold equivalentJob. rewrite !bool_decide_eq_true_2 by done.
    by apply Is_true_true.
Qed.

Lemma queueSyncJob_invariant now rnd type sub s :
  queueInvariant (syncQueue s) ->
  queueInvariant (syncQueue (queueSyncJob now rnd type sub s).2).
Proof.
  intros Hinv. unfold queueSyncJob.
  destruct (existsb _ _) eqn:Hdup; [done|]. cbn.
  set (job := {| job_id := _ |}).
  assert (Hnew : forall a, a ∈ syncQueue s -> nonTerminal a -> jobKey a ≠ jobKey job).
  { intros a Ha Hnt Hkey. injection Hkey as Ht Hs.
    assert (existsb (equivalentJob type sub) (syncQueue s) = true) as Hex
      by (apply existsb_equivalentJob; eauto).
    congruence. }
  intros i j a b Hij Ha Hb Hna Hnb.
  apply lookup_snoc_Some in Ha as [[Hi Ha]|[Hi <-]];
    apply lookup_snoc_Some in Hb as [[Hj Hb]|[Hj <-]].
  - by apply (Hinv i j).
  - apply Hnew; [by eapply list_elem_of_lookup_2|done].
  - intros Heq. symmetry in Heq. revert Heq.
    apply Hnew; [by eapply list_elem_of_lookup_2|done].
  - lia.
Qed.

Lemma enqueueAll_invariant calls s :
  queueInvariant (syncQueue s) -> queueInvariant (syncQueue (enqueueAll calls s)).
Proof.
  revert s. induction calls as [|c calls IH]; intros s Hinv; [done|].
  cbn. apply IH. by apply queueSyncJob_invariant.
Qed.

(** C3: along every sequence of [queueSyncJob] calls, from the empty
    queue or from any queue in which no two non-terminal jobs share
    (type, subreddit), no two non-terminal jobs of the queue share that
    pair. A call returns null exactly when the queue holds a non-terminal
    job of the same type and subreddit, and then changes nothing;
    otherwise it returns a job with status pending and zero retries and
    appends it, and only it, to the queue. *)
Theorem queueSyncJob_no_equivalent_jobs (calls : list EnqueueCall) (s : State)
    (now : Z) (rnd type : string) (sub : option string) :
  let r := queueSyncJob now rnd type sub s in
  (queueInvariant (syncQueue s) -> queueInvariant (syncQueue (enqueueAll calls s)))
  /\ (syncQueue s = [] -> queueInvariant (syncQueue (enqueueAll calls s)))
  /\ (r.1 = None <->
      exists job, job ∈ syncQueue s /\ job_type job = type /\ job_subreddit job = sub
                  /\ nonTerminal job)
  /\ (r.1 = None -> r.2 = s)
  /\ (forall job, r.1 = Some job ->
        status job = Pending /\ retries job = 0%nat
        /\ job_type job = type /\ job_subreddit job = sub
        /\ timestamp job = now /\ startTime job = None
        /\ r.2 = set_syncQueue (syncQueue s ++ [job]) s).
Proof.
  intros r. split; [apply enqueueAll_invariant|]. split.
  { intros Hnil. apply enqueueAll_invariant. rewrite Hnil. intros i j a b _ Ha. done. }
  subst r. unfold queueSyncJob.
  pose proof (existsb_equivalentJob type sub (syncQueue s)) as Hex.
  destruct (existsb _ _); cbn.
  - split; [split; [intros _; by apply Hex|done]|]. split; [done|]. by intros job.
  - split.
    { split; [done|]. intros Hjob. apply Hex in Hjob. done. }
    split; [done|]. intros job [= <-]. done.
Qed.

(** C3 along three calls from the empty queue; the third call is for a
    source already queued and returns null. *)
Lemma queueSyncJob_no_equivalent_jobs_witness :
  let s := enqueueAll (take 2 c3_calls) (initialState 0) in
  syncQueue (initialState 0) = []
  /\ queueInvariant (syncQueue (enqueueAll c3_calls (initialState 0)))
  /\ (queueSyncJob 1002 "zz17" "fetch_subreddit" (Some "news") s).1 = None
  /\ (queueSyncJob 1002 "zz17" "fetch_subreddit" (Some "news") s).2 = s.
Proof.
  intros s.
  destruct (queueSyncJob_no_equivalent_jobs c3_calls (initialState 0)
              0 "" "" None) as (_ & Hempty & _).
  destruct (queueSyncJob_no_equivalent_jobs [] s
              1002 "zz17" "fetch_subreddit" (Some "news")) as (_ & _ & _ & Hnull & _).
  assert (Hr : (queueSyncJob 1002 "zz17" "fetch_subreddit" (Some "news") s).1 = None)
    by (by vm_compute).
  split; [reflexivity|]. split; [exact (Hempty eq_refl)|].
  split; [exact Hr|exact (Hnull Hr)].
Defined.
End queue_claims.

(** ** Claim on the fetch client (C9) *)

Section fetch_claims.

Lemma mapM_stripPostData (raws : list RawPost) :
  mapM (fmap (M := option) stripPostData) (Some <$> raws) = Some (normalizeListing raws).
Proof.
  unfold normalizeListing. induction raws as [|r raws IH]; [done|].
  rewrite !fmap_cons. cbn. cbn in IH. by rewrite IH.
Qed.

(** C9, as stated, fails: a listing whose first entry has no [id] is
    answered with status 200; the fetch succeeds and returns one post per
    entry, the first with an undefined id. *)
Lemma fetchAttempt_keeps_entry_without_id :
  (fetchAttempt (envAnswering 200 (Some <$> c9_children)) (Some "a") (freshWorld 5000)).1
    = inr (normalizeListing c9_children)
  /\ raw_id <$> c9_children = [None; Some "k1"]
  /\ ids (normalizeListing c9_children) = [None; Some "k1"].
Proof. repeat split; vm_compute; reflexivity. Qed.

(** C9, amended: when a request is answered with a success status and a
    listing whose entries all carry their data, the fetch returns exactly
    one post per entry, in order, each with the id of its entry. An entry
    without [id] is neither dropped nor reported as an error: it becomes a
    post whose id is undefined. *)
Theorem fetchAttempt_normalizes_every_entry (env : Env) (sub : option string) (w : World)
    (status : Z) (remaining reset : option Z) (raws : list RawPost) :
  (doFetch env sub (waitForRateLimit env w)).1
    = Answered status remaining reset (Some (Some <$> raws)) ->
  200 <= status <= 299 ->
  (fetchAttempt env sub w).1 = inr (normalizeListing raws)
  /\ length (normalizeListing raws) = length raws
  /\ ids (normalizeListing raws) = raw_id <$> raws
  /\ (forall k raw, raws !! k = Some raw -> raw_id raw = None ->
        exists p, normalizeListing raws !! k = Some p /\ post_id p = None).
Proof.
  intros Hresp Hok. unfold fetchAttempt.
  destruct (doFetch env sub (waitForRateLimit env w)) as [r w2]. cbn in Hresp. subst r.
  rewrite decide_False by lia. rewrite decide_True by done.
  cbn [mbind option_bind]. rewrite mapM_stripPostData.
  split; [done|]. unfold normalizeListing, ids.
  split; [apply length_fmap|]. split.
  - rewrite <- list_fmap_compose. done.
  - intros k raw Hk Hid. exists (stripPostData raw).
    rewrite list_lookup_fmap, Hk. done.
Qed.

(** The amended C9 at the listing with an entry without [id]. *)
Lemma fetchAttempt_normalizes_every_entry_witness :
  let env := envAnswering 200 (Some <$> c9_children) in
  (doFetch env (Some "a") (waitForRateLimit env (freshWorld 5000))).1
    = Answered 200 None None (Some (Some <$> c9_children))
  /\ 200 <= 200 <= 299
  /\ (fetchAttempt env (Some "a") (freshWorld 5000)).1 = inr (normalizeListing c9_children)
  /\ ids (normalizeListing c9_children) = raw_id <$> c9_children.
Proof.
  intros env.
  assert (Hresp : (doFetch env (Some "a") (waitForRateLimit env (freshWorld 5000))).1
                  = Answered 200 None None (Some (Some <$> c9_children)))
    by (vm_compute; reflexivity).
  assert (Hok : 200 <= 200 <= 299) by lia.
  destruct (fetchAttempt_normalizes_every_entry env (Some "a") (freshWorld 5000)
              200 None None c9_children Hresp Hok) as (Hf & _ & Hids & _).
  split; [exact Hresp|]. split; [exact Hok|]. split; [exact Hf|exact Hids].
Defined.
End fetch_claims.

(** ** Rate limiter *)

Section rate_limiter.
Context (env : Env).
Implicit Types (w : World) (tr : list Event).

Lemma StronglySorted_lookup_lt {A} (R : relation A) (l : list A) i j x y :
  StronglySorted R l -> (i < j)%nat -> l !! i = Some x -> l !! j = Some y -> R x y.
Proof.
  intros Hs. revert i j. induction Hs as [|a l Hs IH Hall]; intros i j Hij Hi Hj; [done|].
  destruct j as [|j]; [lia|]. destruct i as [|i]; cbn in *.
  - injection Hi as ->. rewrite Forall_forall in Hall. apply Hall.
    by eapply list_elem_of_lookup_2.
  - apply (IH i j); [lia|done..].
Qed.

Lemma StronglySorted_snoc {A} (R : relation A) (l : list A) x :
  StronglySorted R l -> Forall (fun y => R y x) l -> StronglySorted R (l ++ [x]).
Proof.
  intros Hs Hall. apply StronglySorted_app_2; [|done|repeat constructor].
  intros y z Hy ->%list_elem_of_singleton. rewrite Forall_forall in Hall. by apply Hall.
Qed.

(** Entries that lie [d] apart and fall into a span of [n * d]: at most
    [n] of them. *)
Lemma spaced_window_count (d : Z) (ts : list Z) :
  0 < d -> StronglySorted (fun a b => a + d <= b) ts ->
  forall (n : nat) (T : Z),
    (length (filter (fun t => (T <= t < T + Z.of_nat n * d)%Z) ts) <= n)%nat.
Proof.
  intros Hd Hs. induction Hs as [|t ts Hs IH Hall]; intros n T; [cbn; lia|].
  rewrite filter_cons. case_decide as Hin; [|apply IH].
  destruct n as [|n]; [lia|]. cbn [length].
  enough (length (filter (fun u => (T <= u < T + Z.of_nat (S n) * d)%Z) ts) <= n)%nat by lia.
  etrans; [|apply (IH n (T + d))].
  apply Nat.eq_le_incl. f_equal. apply filter_ext_elem_of.
  intros u Hu. rewrite Forall_forall in Hall. specialize (Hall u Hu). cbn in Hall. lia.
Qed.

Lemma reservations_snoc tr e :
  reservations (tr ++ [e])
  = reservations tr ++ match e with EvReserve t => [t] | _ => [] end.
Proof. unfold reservations. rewrite omap_app. by destruct e. Qed.

Lemma windowTally_snoc tr e : windowTally (tr ++ [e]) = tallyStep (windowTally tr) e.
Proof. unfold windowTally. by rewrite foldl_app. Qed.

Lemma resetIfExpired_spec w :
  let w' := resetIfExpired w in
  clock w' = clock w /\ requests w' = requests w /\ timers w' = timers w
  /\ lastRequestTime (rateLimitState (st w')) = lastRequestTime (rateLimitState (st w))
  /\ reservations (trace w') = reservations (trace w)
  /\ (tallyInv w -> tallyInv w')
  /\ (resetTime (rateLimitState (st w)) <= clock w ->
      0 < remainingRequests (rateLimitState (st w')))
  /\ (clock w < resetTime (rateLimitState (st w)) ->
      rateLimitState (st w') = rateLimitState (st w))
  /\ clock w' < resetTime (rateLimitState (st w')).
Proof.
  unfold resetIfExpired. case_decide as Hexp; cbn.
  - rewrite reservations_snoc, app_nil_r. split_and!; try done; try lia.
    + unfold tallyInv. cbn. rewrite windowTally_snoc. cbn. intros [Hcl Hcur].
      split; [|done]. apply Forall_app. split; [done|]. constructor; [lia|done].
    + unfold RATE_LIMIT_RESET_INTERVAL. lia.
  - split_and!; try done; lia.
Qed.

Lemma sleep_spec ms w :
  let w' := sleep env ms w in
  st w' = st w /\ trace w' = trace w /\ requests w' = requests w
  /\ clock w + Z.max 0 ms <= clock w'.
Proof. cbn. split_and!; try done. lia. Qed.

Lemma tallyInv_ext w w' : st w' = st w -> trace w' = trace w -> tallyInv w -> tallyInv w'.
Proof. unfold tallyInv. by intros -> ->. Qed.

(** What one pass through the loop body does when the budget is there. *)
Lemma waitForRateLimit_pass w (fuel : nat) :
  0 < remainingRequests (rateLimitState (st (resetIfExpired w))) ->
  exists w', waitForRateLimit_loop env (S fuel) w = Some w'
    /\ cleared w' /\ clock w <= clock w' /\ requests w' = requests w
    /\ lastRequestTime (rateLimitState (st w')) = lastRequestTime (rateLimitState (st w))
    /\ reservations (trace w') = reservations (trace w)
    /\ (tallyInv w -> tallyInv w').
Proof.
  intros Hrem. cbn [waitForRateLimit_loop].
  destruct (resetIfExpired_spec w) as (Hc & Hr & _ & Hl & Hres & Ht & _).
  cbn zeta in *. set (w1 := resetIfExpired w) in *.
  rewrite decide_True by done. case_decide as Hint.
  - exists w1. unfold cleared. split_and!; try done; lia.
  - eexists. split; [done|].
    destruct (sleep_spec (REQUEST_INTERVAL - (clock w - lastRequestTime (rateLimitState (st w1)))) w1)
      as (Hst & Htr & Hrq & Hcl). cbn zeta in *.
    unfold cleared. rewrite Hst, Htr, Hrq. split_and!; try done; lia.
Qed.

(** [waitForRateLimit] returns, within two iterations of its loop. *)
Lemma waitForRateLimit_loop_spec w :
  exists w', waitForRateLimit_loop env 2 w = Some w'
    /\ cleared w' /\ clock w <= clock w' /\ requests w' = requests w
    /\ lastRequestTime (rateLimitState (st w')) = lastRequestTime (rateLimitState (st w))
    /\ reservations (trace w') = reservations (trace w)
    /\ (tallyInv w -> tallyInv w').
Proof.
  destruct (decide (0 < remainingRequests (rateLimitState (st (resetIfExpired w)))))
    as [Hrem|Hrem]; [by apply waitForRateLimit_pass|].
  cbn [waitForRateLimit_loop]. rewrite decide_False by done.
  destruct (resetIfExpired_spec w) as (Hc & Hr & _ & Hl & Hres & Ht & _).
  cbn zeta in *. set (w1 := resetIfExpired w) in *.
  set (ms := Z.max 0 (resetTime (rateLimitState (st w1)) - clock w) + 100).
  destruct (sleep_spec ms w1) as (Hst & Htr & Hrq & Hcl). cbn zeta in *.
  set (w2 := sleep env ms w1) in *.
  destruct (waitForRateLimit_pass w2 0) as (w' & Hw' & Hclr & Hck & Hrq' & Hl' & Hres' & Ht').
  { destruct (resetIfExpired_spec w2) as (_ & _ & _ & _ & _ & _ & Hexp & _).
    apply Hexp. rewrite Hst. lia. }
  exists w'. split; [done|]. rewrite Hl', Hres', Hrq', Hst, Htr, Hrq.
  split_and!; try done; try lia.
  intros Hinv. apply Ht'. eapply (tallyInv_ext w1); [done..|]. by apply Ht.
Qed.

Lemma waitForRateLimit_returns w :
  waitForRateLimit_loop env 2 w = Some (waitForRateLimit env w).
Proof.
  unfold waitForRateLimit.
  destruct (waitForRateLimit_loop_spec w) as (w' & -> & _). done.
Qed.

Lemma waitForRateLimit_spec w :
  let w' := waitForRateLimit env w in
  cleared w' /\ clock w <= clock w' /\ requests w' = requests w
  /\ lastRequestTime (rateLimitState (st w')) = lastRequestTime (rateLimitState (st w))
  /\ reservations (trace w') = reservations (trace w)
  /\ (tallyInv w -> tallyInv w').
Proof.
  unfold waitForRateLimit.
  destruct (waitForRateLimit_loop_spec w) as (w' & -> & H). exact H.
Qed.

(** One request keeps the reservations spaced, and the tally within
    budget as long as the server sends no correction. *)
Lemma fetchAttempt_spacing sub w :
  spacingInv w -> spacingInv (fetchAttempt env sub w).2.
Proof.
  intros [Hs Hle]. unfold fetchAttempt.
  destruct (waitForRateLimit_spec w) as ([Hclr _] & Hck & _ & Hl & Hres & _).
  cbn zeta in *. set (w1 := waitForRateLimit env w) in *.
  assert (Hinv1 : spacingInv w1) by (unfold spacingInv; by rewrite Hres, Hl).
  clearbody w1. unfold doFetch. case_decide; cbn; try done.
  destruct (net env sub (requests w1)) as [|msg|status hrem hrst children]; try done.
  assert (Hgoal : spacingInv (updateRateLimitFromHeaders hrem hrst
      (reserveRequest
         {| st := st w1; clock := clock w1 + Z.of_N (latency env (requests w1)) `min` REQUEST_TIMEOUT;
            requests := S (requests w1); timers := timers w1; trace := trace w1 |}))).
  { unfold spacingInv. cbn. rewrite reservations_snoc, Hres.
    assert (0 <= Z.of_N (latency env (requests w1)) `min` REQUEST_TIMEOUT)
      by (unfold REQUEST_TIMEOUT; lia).
    split.
    - apply StronglySorted_snoc; [done|].
      eapply Forall_impl; [exact Hle|]. unfold gap. cbn. intros; lia.
    - apply Forall_app. split; [|constructor; [lia|done]].
      eapply Forall_impl; [exact Hle|]. cbn. unfold REQUEST_INTERVAL in *. intros; lia. }
  repeat case_decide; try done. by destruct (children ≫= _).
Qed.

Lemma fetchAttempt_tally sub w :
  noHeaderCorrection env -> tallyInv w -> tallyInv (fetchAttempt env sub w).2.
Proof.
  intros Hno Hinv. unfold fetchAttempt.
  destruct (waitForRateLimit_spec w) as ([_ Hrem] & _ & _ & _ & _ & Ht).
  cbn zeta in *. set (w1 := waitForRateLimit env w) in *.
  specialize (Ht Hinv). clearbody w1.
  unfold doFetch. case_decide; cbn; try done.
  specialize (Hno sub (requests w1)).
  destruct (net env sub (requests w1)) as [|msg|status hrem hrst children]; try done.
  destruct Hno as [-> ->].
  assert (Hgoal : tallyInv (updateRateLimitFromHeaders None None
      (reserveRequest
         {| st := st w1; clock := clock w1 + Z.of_N (latency env (requests w1)) `min` REQUEST_TIMEOUT;
            requests := S (requests w1); timers := timers w1; trace := trace w1 |}))).
  { destruct Ht as [Hcl Hcur]. unfold tallyInv. cbn. rewrite windowTally_snoc. cbn.
    split; [done|]. lia. }
  repeat case_decide; try done. by destruct (children ≫= _).
Qed.
End rate_limiter.

(** ** Claim on the rate limiter (C5) *)

Section rate_limiter_claims.

Lemma acquireAll_invariants (env : Env) (subs : list (option string)) (w : World) :
  (spacingInv w -> spacingInv (acquireAll env subs w))
  /\ (noHeaderCorrection env -> tallyInv w -> tallyInv (acquireAll env subs w)).
Proof.
  revert w. induction subs as [|sub subs IH]; intros w; [done|].
  cbn. destruct (IH (fetchAttempt env sub w).2) as [IH1 IH2]. split.
  - intros Hinv. by apply IH1, fetchAttempt_spacing.
  - intros Hno Hinv. by apply IH2, fetchAttempt_tally.
Qed.

(** C5: for requests issued back to back from a world with an empty
    log, any two reservations lie at least [REQUEST_INTERVAL] apart, and
    any window of [RATE_LIMIT_RESET_INTERVAL] milliseconds holds at most
    [REQUESTS_PER_MINUTE] of them. When no answer carries rate-limit
    headers and the budget the run starts with is within
    [REQUESTS_PER_MINUTE], then also by the limiter's own bookkeeping no
    window, from one reset to the next, has more than
    [REQUESTS_PER_MINUTE] reservations. [waitForRateLimit] always
    returns, after at most two iterations of its loop. *)
Theorem acquire_respects_rate_limit (env : Env) (subs : list (option string)) (w : World) :
  trace w = [] ->
  let w' := acquireAll env subs w in
  let ts := reservations (trace w') in
  spacedBy REQUEST_INTERVAL ts
  /\ (forall T, (windowCount T ts <= Z.to_nat REQUESTS_PER_MINUTE)%nat)
  /\ (noHeaderCorrection env ->
      remainingRequests (rateLimitState (st w)) <= REQUESTS_PER_MINUTE ->
      Forall (fun n => Z.of_nat n <= REQUESTS_PER_MINUTE)
        ((windowTally (trace w')).1 ++ [(windowTally (trace w')).2]))
  /\ (forall w0, waitForRateLimit_loop env 2 w0 = Some (waitForRateLimit env w0)).
Proof.
  intros Htr w' ts. subst w'.
  destruct (acquireAll_invariants env subs w) as [Hsp Hta].
  assert (Hsorted : StronglySorted gap ts).
  { apply Hsp. unfold spacingInv. rewrite Htr. split; [apply SSorted_nil|apply Forall_nil_2]. }
  split_and!.
  - intros i j t1 t2 Hij H1 H2.
    exact (StronglySorted_lookup_lt gap ts i j t1 t2 Hsorted Hij H1 H2).
  - intros T. exact (spaced_window_count 1200 ts ltac:(lia) Hsorted 50 T).
  - intros Hno Hrem.
    assert (Hinit : tallyInv w).
    { unfold tallyInv. rewrite Htr. cbn. split; [apply Forall_nil_2|].
      unfold REQUESTS_PER_MINUTE in *. lia. }
    destruct (Hta Hno Hinit) as [Hcl Hcur].
    apply Forall_app. split; [done|]. apply Forall_singleton. unfold REQUESTS_PER_MINUTE in *. lia.
  - apply waitForRateLimit_returns.
Qed.

(** C5 for sixty requests against a server that answers after 100 ms. *)
Lemma acquire_respects_rate_limit_witness :
  let env := envAnswering 200 [] in
  let w' := acquireAll env (replicate 60 (Some "a")) (freshWorld 100000) in
  trace (freshWorld 100000) = []
  /\ noHeaderCorrection env
  /\ remainingRequests (rateLimitState (st (freshWorld 100000))) <= REQUESTS_PER_MINUTE
  /\ length (reservations (trace w')) = 60%nat
  /\ spacedBy REQUEST_INTERVAL (reservations (trace w'))
  /\ (windowCount 100000 (reservations (trace w')) <= 50)%nat
  /\ Forall (fun n => Z.of_nat n <= REQUESTS_PER_MINUTE)
       ((windowTally (trace w')).1 ++ [(windowTally (trace w')).2]).
Proof.
  intros env w'.
  assert (Htr : trace (freshWorld 100000) = []) by reflexivity.
  assert (Hno : noHeaderCorrection env) by (intros sub k; cbn; done).
  assert (Hrem : remainingRequests (rateLimitState (st (freshWorld 100000)))
                 <= REQUESTS_PER_MINUTE) by (by vm_compute).
  destruct (acquire_respects_rate_limit env (replicate 60 (Some "a")) (freshWorld 100000) Htr)
    as (Hsp & Hwin & Htally & _).
  split_and!; [exact Htr|exact Hno|exact Hrem|by vm_compute|exact Hsp|exact (Hwin 100000)
              |exact (Htally Hno Hrem)].
Defined.
End rate_limiter_claims.

(** ** Scheduler *)

Section scheduler.
Context (env : Env).
Implicit Types (w : World) (tr : list Event) (q : list Job) (job : Job).

Lemma fetchedOnly_refl w : fetchedOnly w w.
Proof. split; [done|]. exists []. by rewrite app_nil_r. Qed.

Lemma fetchedOnly_trans w1 w2 w3 : fetchedOnly w1 w2 -> fetchedOnly w2 w3 -> fetchedOnly w1 w3.
Proof.
  intros [Hq1 (tr1 & Ht1 & Hl1)] [Hq2 (tr2 & Ht2 & Hl2)]. split; [congruence|].
  exists (tr1 ++ tr2). rewrite Ht2, Ht1, app_assoc. split; [done|]. by apply Forall_app.
Qed.

Lemma fetchedOnly_emit w e : isLimiterEvent e -> fetchedOnly w (emit e w).
Proof. intros He. split; [done|]. exists [e]. split; [done|]. by constructor. Qed.

Lemma fetchedOnly_same w w' :
  syncQueue (st w') = syncQueue (st w) -> trace w' = trace w -> fetchedOnly w w'.
Proof. intros Hq Ht. split; [done|]. exists []. by rewrite app_nil_r. Qed.

Lemma resetIfExpired_fetchedOnly w : fetchedOnly w (resetIfExpired w).
Proof.
  unfold resetIfExpired. case_decide; [|apply fetchedOnly_refl].
  split; [done|]. eexists [_]. split; [done|]. by constructor.
Qed.

Lemma waitForRateLimit_loop_fetchedOnly fuel w w' :
  waitForRateLimit_loop env fuel w = Some w' -> fetchedOnly w w'.
Proof.
  revert w. induction fuel as [|fuel IH]; intros w; [done|].
  cbn [waitForRateLimit_loop]. pose proof (resetIfExpired_fetchedOnly w) as Hr.
  repeat case_decide.
  - by intros [= <-].
  - intros [= <-]. eapply fetchedOnly_trans; [exact Hr|]. by apply fetchedOnly_same.
  - intros Hloop%IH. eapply fetchedOnly_trans; [exact Hr|].
    eapply fetchedOnly_trans; [|exact Hloop]. by apply fetchedOnly_same.
Qed.

Lemma waitForRateLimit_fetchedOnly w : fetchedOnly w (waitForRateLimit env w).
Proof.
  unfold waitForRateLimit. destruct (waitForRateLimit_loop env 2 w) as [w'|] eqn:E.
  - by eapply waitForRateLimit_loop_fetchedOnly.
  - apply fetchedOnly_refl.
Qed.

Lemma fetchAttempt_fetchedOnly sub w : fetchedOnly w (fetchAttempt env sub w).2.
Proof.
  unfold fetchAttempt. pose proof (waitForRateLimit_fetchedOnly w) as Hw.
  set (w1 := waitForRateLimit env w) in *. clearbody w1.
  eapply fetchedOnly_trans; [exact Hw|].
  unfold doFetch.
  assert (Hres : forall hrem hrst c, fetchedOnly w1
    (updateRateLimitFromHeaders hrem hrst
       (reserveRequest
          {| st := st w1; clock := c; requests := S (requests w1);
             timers := timers w1; trace := trace w1 |}))).
  { intros. split; [done|]. eexists [_]. split; [done|]. by constructor. }
  destruct (decide _); [by apply fetchedOnly_same|].
  destruct (net env sub (requests w1)) as [|msg|status hrem hrst children];
    [by apply fetchedOnly_same..|].
  repeat case_decide; try apply Hres. destruct (children ≫= _); apply Hres.
Qed.

Lemma fetchRetryLoop_fetchedOnly sub n attempt e w :
  fetchedOnly w (fetchRetryLoop env sub n attempt e w).2.
Proof.
  revert attempt e w. induction n as [|n IH]; intros attempt e w; [apply fetchedOnly_refl|].
  cbn [fetchRetryLoop]. pose proof (fetchAttempt_fetchedOnly sub w) as Ha.
  destruct (fetchAttempt env sub w) as [[e'|ps] w1]; [|done].
  eapply fetchedOnly_trans; [exact Ha|]. eapply fetchedOnly_trans; [|apply IH].
  destruct n; [apply fetchedOnly_refl|by apply fetchedOnly_same].
Qed.

Lemma addPostsToPending_syncQueue fetched ft sub (s : State) :
  syncQueue (addPostsToPending fetched ft sub s) = syncQueue s.
Proof. unfold addPostsToPending. cbn zeta. by destruct (getNewPostsOnly _ _ _). Qed.

Lemma executeJob_fetchedOnly job w : fetchedOnly w (executeJob env job w).2.
Proof.
  unfold executeJob, fetchFeedWithRetry. repeat case_decide; [..|apply fetchedOnly_refl].
  - pose proof (fetchRetryLoop_fetchedOnly (job_subreddit job)
      (Z.to_nat (Z.min 3 (Z.of_nat MAX_RETRIES - (Z.of_nat (retries job) - 1)) + 1))
      0 UnknownError w) as Hf.
    destruct (fetchRetryLoop _ _ _ _ _ _) as [[e|ps] w1]; [done|].
    eapply fetchedOnly_trans; [exact Hf|].
    apply fetchedOnly_same; [apply addPostsToPending_syncQueue|done].
  - pose proof (fetchRetryLoop_fetchedOnly (Some "popular")
      (Z.to_nat (Z.min 3 (Z.of_nat MAX_RETRIES - (Z.of_nat (retries job) - 1)) + 1))
      0 UnknownError w) as Hf.
    destruct (fetchRetryLoop _ _ _ _ _ _) as [[e|ps] w1]; [done|].
    eapply fetchedOnly_trans; [exact Hf|].
    apply fetchedOnly_same; [apply addPostsToPending_syncQueue|done].
Qed.

Lemma fetchAttempt_fails sub w :
  (forall k, failing (net env sub k) = true) -> exists e, (fetchAttempt env sub w).1 = inl e.
Proof.
  intros Hfail. unfold fetchAttempt, doFetch.
  set (w1 := waitForRateLimit env w). clearbody w1.
  destruct (decide _); [by eexists|].
  specialize (Hfail (requests w1)).
  destruct (net env sub (requests w1)) as [|msg|status hrem hrst children];
    [by eexists..|].
  unfold failing in Hfail.
  destruct (decide (status = 429)); [by eexists|].
  destruct (decide (200 <= status <= 299)); [|by eexists].
  destruct (children ≫= _) eqn:E; [|by eexists].
  exfalso. rewrite (bool_decide_eq_false_2 (status = 429)) in Hfail by done.
  rewrite (bool_decide_eq_true_2 (200 <= status <= 299)) in Hfail by done.
  rewrite bool_decide_eq_true_2 in Hfail by eauto. done.
Qed.

Lemma fetchRetryLoop_fails sub n attempt e w :
  (forall k, failing (net env sub k) = true) ->
  exists e', (fetchRetryLoop env sub n attempt e w).1 = inl e'.
Proof.
  intros Hfail. revert attempt e w. induction n as [|n IH]; intros attempt e w; [by eexists|].
  cbn [fetchRetryLoop]. destruct (fetchAttempt_fails sub w Hfail) as [e1 He1].
  destruct (fetchAttempt env sub w) as [[e'|ps] w1]; [apply IH|done].
Qed.

Lemma executeJob_fails job w : alwaysFails env job -> (executeJob env job w).1 = false.
Proof.
  intros Hfail. unfold executeJob, fetchFeedWithRetry.
  destruct (decide (job_type job = "fetch_subreddit")) as [Hs|Hs].
  - assert (Hf : forall k, failing (net env (job_subreddit job) k) = true).
    { intros k. specialize (Hfail k). unfold jobUrlSub in Hfail.
      by rewrite decide_False in Hfail by congruence. }
    destruct (fetchRetryLoop_fails (job_subreddit job)
      (Z.to_nat (Z.min 3 (Z.of_nat MAX_RETRIES - (Z.of_nat (retries job) - 1)) + 1))
      0 UnknownError w Hf) as [e He].
    by destruct (fetchRetryLoop _ _ _ _ _ _) as [[e'|ps] w1].
  - destruct (decide (job_type job = "fetch_popular")) as [Hp|Hp]; [|done].
    assert (Hf : forall k, failing (net env (Some "popular") k) = true).
    { intros k. specialize (Hfail k). unfold jobUrlSub in Hfail.
      by rewrite decide_True in Hfail by done. }
    destruct (fetchRetryLoop_fails (Some "popular")
      (Z.to_nat (Z.min 3 (Z.of_nat MAX_RETRIES - (Z.of_nat (retries job) - 1)) + 1))
      0 UnknownError w Hf) as [e He].
    by destruct (fetchRetryLoop _ _ _ _ _ _) as [[e'|ps] w1].
Qed.

Lemma findRunnable_Some q i :
  findRunnable q = Some i ->
  (exists j, q !! i = Some j /\ runnable j)
  /\ forall i' j', (i' < i)%nat -> q !! i' = Some j' -> ~ runnable j'.
Proof.
  revert i. induction q as [|j q IH]; intros i; [done|]. cbn [findRunnable].
  destruct (runnable j) eqn:Hr.
  - intros [= <-]. split; [exists j; by rewrite Hr|]. intros; lia.
  - destruct (findRunnable q) as [k|]; [|done]. intros [= <-].
    destruct (IH k eq_refl) as [Hk Hlt]. split; [done|].
    intros [|i'] j' Hi' Hj'; cbn in Hj'.
    + injection Hj' as <-. intros Hrun. by rewrite Hr in Hrun.
    + apply (Hlt i'); [lia|done].
Qed.

Lemma findRunnable_None q : findRunnable q = None -> Forall (fun j => ~ runnable j) q.
Proof.
  induction q as [|j q IH]; [constructor|]. cbn [findRunnable].
  destruct (runnable j) eqn:Hr; [done|].
  destruct (findRunnable q); [done|]. intros _.
  constructor; [intros Hrun; by rewrite Hr in Hrun|by apply IH].
Qed.

Lemma queueBudget_alter q i j (f : Job -> Job) :
  q !! i = Some j ->
  (queueBudget (alter f i q) + jobBudget j = queueBudget q + jobBudget (f j))%nat.
Proof.
  unfold queueBudget. revert i. induction q as [|a q IH]; intros i; [done|].
  destruct i as [|i]; cbn.
  - intros [= ->]. lia.
  - intros Hi. specialize (IH i Hi). cbn in IH. lia.
Qed.

Lemma alwaysFails_sameJob a b : sameJob a b -> alwaysFails env a -> alwaysFails env b.
Proof.
  intros (_ & Ht & Hs & _) Hf k. specialize (Hf k). unfold jobUrlSub in *.
  by rewrite <- Ht, <- Hs.
Qed.

(** One iteration of the loop: the first runnable slot is either given
    up, or started, executed and marked. *)
Lemma scheduleStep_spec w w' :
  scheduleStep env w = Some w' ->
  exists i j, findRunnable (syncQueue (st w)) = Some i
    /\ syncQueue (st w) !! i = Some j /\ runnable j
    /\ ((MAX_RETRIES <= retries j)%nat
        /\ syncQueue (st w') = alter (fun _ => set_status FailedMaxRetries j) i (syncQueue (st w))
        /\ trace w' = trace w ++ [EvGiveUp i]
       \/ (retries j < MAX_RETRIES)%nat
        /\ exists (ok : bool) (tr : list Event),
             syncQueue (st w')
             = alter (fun _ => set_status (if ok then Completed else Failed)
                                 (startJob (clock w) j)) i (syncQueue (st w))
             /\ trace w' = trace w ++ [EvStart i (S (retries j))] ++ tr ++ [EvFinish i ok]
             /\ Forall isLimiterEvent tr
             /\ (alwaysFails env j -> ok = false)).
Proof.
  unfold scheduleStep.
  destruct (findRunnable (syncQueue (st w))) as [i|] eqn:Hfind; [|done]. cbn.
  destruct (findRunnable_Some _ _ Hfind) as [(j & Hj & Hrun) _].
  rewrite Hj. cbn. intros Hstep. exists i, j. split; [done|]. split; [done|]. split; [done|].
  destruct (decide (MAX_RETRIES <= retries j)%nat) as [Hmax|Hmax].
  - left. injection Hstep as <-. cbn. split; [done|]. split; [|done].
    apply list_alter_ext; [|done]. intros x Hx. congruence.
  - right. split; [lia|].
    set (w1 := emit _ _) in Hstep.
    pose proof (executeJob_fetchedOnly (startJob (clock w) j) w1) as [Hq (tr & Htr & Hlim)].
    pose proof (executeJob_fails (startJob (clock w) j) w1) as Hfails.
    destruct (executeJob env (startJob (clock w) j) w1) as [ok w2].
    injection Hstep as <-. exists ok, tr. cbn in *. rewrite Hq, Htr.
    split; [|split; [|split; [done|]]].
    + rewrite list_alter_alter_eq. apply list_alter_ext; done.
    + by rewrite <- !app_assoc.
    + intros Hf. apply Hfails. eapply alwaysFails_sameJob; [|exact Hf]. done.
Qed.

Lemma jobBudget_marked (x : JobStatus) job :
  jobBudget (set_status x job)
  = if bool_decide (x = Pending) || bool_decide (x = Failed)
    then S (MAX_RETRIES - retries job) else 0%nat.
Proof. done. Qed.

Lemma scheduleStep_budget w w' :
  scheduleStep env w = Some w' ->
  (queueBudget (syncQueue (st w')) < queueBudget (syncQueue (st w)))%nat.
Proof.
  intros (i & j & _ & Hj & Hrun & Hcase)%scheduleStep_spec.
  assert (Hb : jobBudget j = S (MAX_RETRIES - retries j)).
  { unfold jobBudget. by rewrite (Is_true_true_1 _ Hrun). }
  destruct Hcase as [(Hmax & -> & _)|(Hlt & ok & tr & -> & _)].
  - pose proof (queueBudget_alter _ _ _ (fun _ => set_status FailedMaxRetries j) Hj) as Hq.
    cbv beta in Hq. rewrite jobBudget_marked in Hq.
    rewrite !bool_decide_eq_false_2 in Hq by done. cbn [orb] in Hq. lia.
  - pose proof (queueBudget_alter _ _ _
      (fun _ => set_status (if ok then Completed else Failed) (startJob (clock w) j)) Hj) as Hq.
    cbv beta in Hq. rewrite jobBudget_marked in Hq. destruct ok.
    + rewrite !bool_decide_eq_false_2 in Hq by done. cbn [orb] in Hq. lia.
    + rewrite (bool_decide_eq_false_2 (Failed = Pending)) in Hq by done.
      rewrite (bool_decide_eq_true_2 (Failed = Failed)) in Hq by done.
      cbn [orb retries startJob] in Hq. lia.
Qed.

(** The loop ends within the budget of its queue, and an invariant of
    the iterations holds where it ends. *)
Lemma scheduleLoop_invariant (I : World -> Prop) :
  (forall w w', I w -> scheduleStep env w = Some w' -> I w') ->
  forall fuel w, (queueBudget (syncQueue (st w)) <= fuel)%nat -> I w ->
    exists wl, scheduleLoop env fuel w = Some wl /\ I wl /\ scheduleStep env wl = None.
Proof.
  intros Hstep. induction fuel as [|fuel IH]; intros w Hfuel HI.
  - cbn. destruct (scheduleStep env w) as [w'|] eqn:E; [|by exists w].
    apply scheduleStep_budget in E. lia.
  - cbn. destruct (scheduleStep env w) as [w'|] eqn:E; [|by exists w].
    apply IH; [|by eapply Hstep]. apply scheduleStep_budget in E. lia.
Qed.

Lemma slotEvents_app i tr1 tr2 : slotEvents i (tr1 ++ tr2) = slotEvents i tr1 ++ slotEvents i tr2.
Proof. apply filter_app. Qed.

Lemma slotEvents_limiter i tr : Forall isLimiterEvent tr -> slotEvents i tr = [].
Proof.
  intros Hall. apply filter_none. intros e He Hi.
  rewrite Forall_forall in Hall. specialize (Hall e He). by destruct e.
Qed.

Lemma runnable_not_processing job : runnable job -> status job ≠ Processing.
Proof. unfold runnable. by destruct (status job). Qed.

Lemma scheduleStep_slotKept q0 w w' :
  Forall2 slotKept q0 (syncQueue (st w)) -> scheduleStep env w = Some w' ->
  Forall2 slotKept q0 (syncQueue (st w')).
Proof.
  intros Hkept (i & j & _ & Hj & Hrun & Hcase)%scheduleStep_spec.
  assert (Hgen : forall j', status j' ≠ Processing ->
            Forall2 slotKept q0 (alter (fun _ => j') i (syncQueue (st w)))).
  { intros j' Hj'. apply Forall2_alter_r; [done|].
    intros a b Ha Hb [Hp Hn]. rewrite Hj in Hb. injection Hb as <-. split; [|auto].
    intros Hproc. specialize (Hp Hproc). subst a. by apply runnable_not_processing in Hrun. }
  destruct Hcase as [(_ & -> & _)|(_ & ok & tr & -> & _)]; apply Hgen; [done|by destruct ok].
Qed.

Lemma pruned_queue q0 q :
  Forall2 slotKept q0 q -> Forall (fun j => ~ runnable j) q ->
  filter nonTerminal q = filter (fun j => status j = Processing) q0.
Proof.
  induction 1 as [|a b q0 q [Hp Hn] Hrest IH]; intros Hnr; [done|].
  apply Forall_cons in Hnr as [Hb Hnr]. rewrite !filter_cons, IH by done.
  destruct (decide (status a = Processing)) as [Ha|Ha].
  - rewrite (Hp Ha). rewrite decide_True; [done|]. unfold nonTerminal. by rewrite Ha.
  - rewrite decide_False; [done|]. specialize (Hn Ha).
    unfold nonTerminal, runnable in *. by destruct (status b).
Qed.

Lemma scheduleStep_slotProgress i job0 target w w' :
  alwaysFails env job0 -> slotProgress i job0 target w -> scheduleStep env w = Some w' ->
  slotProgress i job0 target w'.
Proof.
  intros Hfail (j & Hj & Hsame & Hprog) (i' & j' & _ & Hj' & Hrun' & Hcase)%scheduleStep_spec.
  destruct (decide (i' = i)) as [->|Hne].
  - rewrite Hj in Hj'. injection Hj' as <-.
    destruct Hprog as [(_ & Hle & Hlog)|(Hst & _)];
      [|unfold runnable in Hrun'; by rewrite Hst in Hrun'].
    destruct Hcase as [(Hmax & Hq & Htr)|(Hlt' & ok & tr & Hq & Htr & Hlim & Hok)].
    + exists (set_status FailedMaxRetries j). rewrite Hq, list_lookup_alter_eq, Hj.
      split; [done|]. split; [done|]. right. cbn. split; [done|]. split; [lia|].
      rewrite Htr, slotEvents_app, <- Hlog.
      replace (MAX_RETRIES - retries j)%nat with 0%nat by lia. cbn [failingRun].
      unfold slotEvents. rewrite filter_cons_True; [done|]. cbn. by apply bool_decide_pack.
    + rewrite (Hok (alwaysFails_sameJob _ _ Hsame Hfail)) in Hq, Htr.
      exists (set_status Failed (startJob (clock w) j)).
      rewrite Hq, list_lookup_alter_eq, Hj.
      split; [done|]. split; [done|]. left. cbn. split; [done|]. split; [lia|].
      rewrite Htr, !slotEvents_app, (slotEvents_limiter i tr Hlim), <- Hlog.
      cbn [retries startJob set_status].
      replace (MAX_RETRIES - retries j)%nat with (S (MAX_RETRIES - S (retries j))) by lia.
      cbn [failingRun]. unfold slotEvents.
      rewrite !filter_cons_True by (cbn; by apply bool_decide_pack).
      rewrite !filter_nil, app_nil_l, <- !app_assoc. done.
  - assert (Hother : forall tr', slotEvents i (trace w ++ tr') = slotEvents i (trace w)
              -> forall f, syncQueue (st w') = alter f i' (syncQueue (st w)) ->
              trace w' = trace w ++ tr' -> slotProgress i job0 target w').
    { intros tr' Hev f Hq Htr. exists j. rewrite Hq, list_lookup_alter_ne by done.
      split; [done|]. split; [done|]. by rewrite Htr, Hev. }
    assert (Hnot : forall e, aboutSlot i' e -> ~ aboutSlot i e).
    { intros e H1 H2. destruct e; cbn in *; try done;
        apply bool_decide_unpack in H1, H2; congruence. }
    destruct Hcase as [(_ & Hq & Htr)|(_ & ok & tr & Hq & Htr & Hlim & _)].
    + eapply Hother; [|exact Hq|exact Htr].
      rewrite slotEvents_app. unfold slotEvents at 2.
      rewrite filter_cons_False, filter_nil, app_nil_r; [done|].
      apply Hnot. cbn. by apply bool_decide_pack.
    + eapply Hother; [|exact Hq|exact Htr].
      rewrite !slotEvents_app, (slotEvents_limiter i tr Hlim). unfold slotEvents at 2 3.
      rewrite !filter_cons_False, !filter_nil, !app_nil_r; [done|..];
        apply Hnot; cbn; by apply bool_decide_pack.
Qed.

Lemma autoApply_syncQueue ft (s : State) : syncQueue (autoApply ft s) = syncQueue s.
Proof.
  unfold autoApply. destruct (posts _); [|done].
  destruct (pending_posts _); [done|]. by destruct ft.
Qed.

(** A property that an eviction, an auto-apply and the toast keep is
    kept by what follows the loop. *)
Lemma autoApplyAndSave_invariant (P : State -> Prop) ft :
  (forall s, P s -> P (evictOldestFifth s)) ->
  (forall s, P s -> P (autoApply ft s)) ->
  forall s, P s -> P (autoApplyAndSave env ft s).2.
Proof.
  intros Hevict Happly s Hs. unfold autoApplyAndSave.
  destruct (posts _); [|done]. destruct (pending_posts _); [done|].
  by apply saveState_invariant, Happly.
Qed.

Lemma notifyNewPosts_invariant (P : State -> Prop) :
  (forall s, P s -> P (set_newPostsToast true s)) ->
  forall s, P s -> P (notifyNewPosts s).
Proof.
  intros Htoast s Hs. unfold notifyNewPosts, showNewPostsToast.
  destruct (_ || _); [|done]. repeat case_decide; auto.
Qed.

Lemma afterPass_invariant (P : State -> Prop) :
  (forall s, P s -> P (evictOldestFifth s)) ->
  (forall ft s, P s -> P (autoApply ft s)) ->
  (forall s, P s -> P (set_newPostsToast true s)) ->
  forall s, P s -> P (afterPass env s).
Proof.
  intros Hevict Happly Htoast s Hs. unfold afterPass.
  pose proof (saveState_invariant P (setItem env) Hevict (stackDepth env) s Hs) as H1.
  destruct (saveState _ _ s) as [[?|] s1]; [|done]. cbn [snd] in H1.
  pose proof (autoApplyAndSave_invariant P MyFeed Hevict (Happly _) s1 H1) as H2.
  destruct (autoApplyAndSave env MyFeed s1) as [[?|] s2]; [|done]. cbn [snd] in H2.
  pose proof (autoApplyAndSave_invariant P PopularFeed Hevict (Happly _) s2 H2) as H3.
  destruct (autoApplyAndSave env PopularFeed s2) as [[?|] s3]; [|done]. cbn [snd] in H3.
  by apply notifyNewPosts_invariant.
Qed.

Lemma afterPass_syncQueue (s : State) : syncQueue (afterPass env s) = syncQueue s.
Proof.
  apply (afterPass_invariant (fun s' => syncQueue s' = syncQueue s)); [done| |done|done].
  intros ft s' <-. apply autoApply_syncQueue.
Qed.

Lemma afterPass_frame (s : State) :
  isProcessingQueue (afterPass env s) = isProcessingQueue s
  /\ rateLimitState (afterPass env s) = rateLimitState s.
Proof.
  apply (afterPass_invariant (fun s' => isProcessingQueue s' = isProcessingQueue s
                                        /\ rateLimitState s' = rateLimitState s));
    [done| |done|done].
  intros ft s' [<- <-]. unfold autoApply. destruct (posts _); [|done].
  destruct (pending_posts _); [done|]. by destruct ft.
Qed.

(** [processSyncQueue] returns: the queue's budget is fuel enough. *)
Lemma processSyncQueue_returns (online : bool) w : is_Some (processSyncQueue env online w).
Proof.
  unfold processSyncQueue. destruct (isProcessingQueue (st w)); [done|].
  destruct online; [|done]. cbn [negb].
  set (w0 := set_st (set_isProcessingQueue true (st w)) w).
  destruct (scheduleLoop_invariant (fun _ => True) ltac:(done)
              (queueBudget (syncQueue (st w0))) w0 ltac:(done) I)
    as (wl & Hwl & _).
  cbn zeta. fold w0. by rewrite Hwl.
Qed.
Lemma runnable_nonTerminal (job : Job) : runnable job -> nonTerminal job.
Proof. unfold runnable, nonTerminal. by destruct (status job). Qed.

(** The scheduler keeps the invariant of the queue too: it only moves
    jobs on to other statuses, and never changes type or subreddit. *)
Lemma scheduleStep_queueInvariant (w w' : World) :
  queueInvariant (syncQueue (st w)) -> scheduleStep env w = Some w' ->
  queueInvariant (syncQueue (st w')).
Proof.
  intros Hinv (i & j & _ & Hj & Hrun & Hcase)%scheduleStep_spec.
  assert (Hgen : forall j', jobKey j' = jobKey j ->
            queueInvariant (alter (fun _ => j') i (syncQueue (st w)))).
  { intros j' Hkey.
    assert (Hback : forall k x, alter (fun _ => j') i (syncQueue (st w)) !! k = Some x ->
              nonTerminal x ->
              exists y, syncQueue (st w) !! k = Some y /\ nonTerminal y /\ jobKey y = jobKey x).
    { intros k x Hk Hx. destruct (decide (k = i)) as [->|Hne].
      - rewrite list_lookup_alter_eq, Hj in Hk. injection Hk as <-.
        exists j. split; [done|]. split; [by apply runnable_nonTerminal|done].
      - rewrite list_lookup_alter_ne in Hk by done. by exists x. }
    intros a b x y Hab Hx Hy Hnx Hny.
    destruct (Hback a x Hx Hnx) as (x0 & Hx0 & Hnx0 & <-).
    destruct (Hback b y Hy Hny) as (y0 & Hy0 & Hny0 & <-).
    by apply (Hinv a b). }
  destruct Hcase as [(_ & -> & _)|(_ & ok & tr & -> & _)]; by apply Hgen.
Qed.
End scheduler.

(** ** Claim on the scheduler (C4) *)

Section scheduler_claims.
Implicit Types (w : World) (tr : list Event) (q : list Job) (job : Job).

Lemma scheduleStep_None (env : Env) w :
  scheduleStep env w = None -> findRunnable (syncQueue (st w)) = None.
Proof.
  unfold scheduleStep.
  destruct (findRunnable (syncQueue (st w))) as [i|] eqn:Hfind; [|done]. cbn.
  destruct (findRunnable_Some _ _ Hfind) as [(j & Hj & _) _]. rewrite Hj. cbn.
  case_decide; [done|]. by destruct (executeJob _ _ _).
Qed.

Lemma NoDup_fmap_elem_of_inj {A B} (f : A -> B) (l : list A) x y :
  NoDup (f <$> l) -> x ∈ l -> y ∈ l -> f x = f y -> x = y.
Proof.
  intros Hnd [a Ha]%list_elem_of_lookup [b Hb]%list_elem_of_lookup Heq.
  assert (a = b) as ->; [|congruence].
  apply (NoDup_lookup (f <$> l) a b (f x)); [done|..]; rewrite list_lookup_fmap.
  - by rewrite Ha.
  - by rewrite Hb, Heq.
Qed.

(** C4: a pending job with no retries yet, whose every request fails
    (for instance by timing out), is started three times in the pass,
    each run ending in failure with the [retries] counter at 1, 2 and 3;
    the fourth time the scheduler picks it, it is marked
    failed_max_retries with [retries] at 3. The pass terminates, and the
    queue it leaves holds only the jobs that were found processing: the
    failing job is absent from it. *)
Theorem processSyncQueue_gives_up_failing_job (env : Env) (w : World) (i : nat) (job : Job) :
  isProcessingQueue (st w) = false ->
  syncQueue (st w) !! i = Some job -> status job = Pending -> retries job = 0%nat ->
  alwaysFails env job ->
  exists wl w',
    scheduleLoop env (queueBudget (syncQueue (st w)))
      (set_st (set_isProcessingQueue true (st w)) w) = Some wl
    /\ processSyncQueue env true w = Some w'
    /\ slotEvents i (trace wl)
       = slotEvents i (trace w)
         ++ [EvStart i 1; EvFinish i false; EvStart i 2; EvFinish i false;
             EvStart i 3; EvFinish i false; EvGiveUp i]
    /\ (exists j, syncQueue (st wl) !! i = Some j /\ sameJob job j
                  /\ status j = FailedMaxRetries /\ retries j = 3%nat)
    /\ trace w' = trace wl
    /\ syncQueue (st w') = filter (fun j => status j = Processing) (syncQueue (st w))
    /\ (job ∉ syncQueue (st w'))
    /\ (NoDup (job_id <$> syncQueue (st w)) -> job_id job ∉ job_id <$> syncQueue (st w')).
Proof.
  intros Hidle Hjob Hstatus Hretries Hfail.
  set (w0 := set_st (set_isProcessingQueue true (st w)) w).
  set (target := slotEvents i (trace w) ++ failingRun i 0 MAX_RETRIES).
  destruct (scheduleLoop_invariant env
              (fun x => Forall2 slotKept (syncQueue (st w)) (syncQueue (st x))
                        /\ slotProgress i job target x)) with
    (fuel := queueBudget (syncQueue (st w0))) (w := w0)
    as (wl & Hloop & [Hkept Hprog] & Hend).
  { intros x x' [Hk Hp] Hstep. split.
    - by eapply scheduleStep_slotKept.
    - by eapply scheduleStep_slotProgress. }
  { done. }
  { split.
    - apply Forall2_same_length_lookup_2; [done|]. intros k a b Ha Hb.
      cbn in Hb. rewrite Ha in Hb. injection Hb as <-. by split.
    - exists job. split; [done|]. split; [done|]. left.
      unfold runnable. rewrite Hstatus, Hretries. split; [done|]. split; [lia|done]. }
  apply scheduleStep_None, findRunnable_None in Hend.
  destruct Hprog as (j & Hj & Hsame & Hcases).
  destruct Hcases as [(Hrun & _)|(Hst & Hret & Hlog)].
  { exfalso. rewrite Forall_forall in Hend.
    by apply (Hend j (list_elem_of_lookup_2 _ _ _ Hj)). }
  pose proof (pruned_queue _ _ Hkept Hend) as Hpruned.
  exists wl. eexists. split; [exact Hloop|].
  unfold processSyncQueue. rewrite Hidle. cbn [negb]. cbn zeta. fold w0. rewrite Hloop.
  cbn [mbind option_bind]. split; [reflexivity|].
  assert (Hfinal : syncQueue (st (set_st (afterPass env
             (set_isProcessingQueue false (pruneQueue (st wl)))) wl))
           = filter (fun j => status j = Processing) (syncQueue (st w))).
  { cbn [st set_st]. by rewrite afterPass_syncQueue. }
  split; [exact Hlog|]. split; [by exists j|]. split; [done|]. split; [exact Hfinal|].
  rewrite Hfinal. split.
  - intros [Hproc _]%list_elem_of_filter. congruence.
  - intros Hnd [j' [Hid [Hproc Hin]%list_elem_of_filter]]%list_elem_of_fmap.
    assert (job = j') as <-; [|congruence].
    eapply NoDup_fmap_elem_of_inj; [exact Hnd| |exact Hin|exact Hid].
    by eapply list_elem_of_lookup_2.
Qed.

(** C4 on a queue that holds one job for r/news while every request
    times out. *)
Lemma processSyncQueue_gives_up_failing_job_witness :
  isProcessingQueue (st c4_world) = false
  /\ syncQueue (st c4_world) !! 0%nat = Some c4_job
  /\ status c4_job = Pending /\ retries c4_job = 0%nat
  /\ alwaysFails envTimeout c4_job
  /\ exists w', processSyncQueue envTimeout true c4_world = Some w'
       /\ syncQueue (st w') = []
       /\ slotEvents 0 (trace w')
          = [EvStart 0 1; EvFinish 0 false; EvStart 0 2; EvFinish 0 false;
             EvStart 0 3; EvFinish 0 false; EvGiveUp 0].
Proof.
  assert (Hfail : alwaysFails envTimeout c4_job) by (intros k; reflexivity).
  split; [reflexivity|]. split; [reflexivity|]. split; [reflexivity|].
  split; [reflexivity|]. split; [exact Hfail|].
  destruct (processSyncQueue_gives_up_failing_job envTimeout c4_world 0 c4_job
              eq_refl eq_refl eq_refl eq_refl Hfail)
    as (wl & w' & _ & Hpass & Hlog & _ & Htr & Hq & _).
  exists w'. split; [exact Hpass|]. split; [exact Hq|].
  rewrite Htr. exact Hlog.
Defined.
End scheduler_claims.

(** ** The queue invariant as a list property *)

Section queue_invariant.
Implicit Types (q : list Job) (job : Job).

Lemma queueInvariant_cons job q :
  queueInvariant (job :: q)
  <-> (nonTerminal job -> forall b, b ∈ q -> nonTerminal b -> jobKey job ≠ jobKey b)
      /\ queueInvariant q.
Proof.
  split.
  - intros Hinv. split.
    + intros Hn b [k Hk]%list_elem_of_lookup Hb.
      by apply (Hinv 0%nat (S k) job b).
    + intros i j a b Hij Ha Hb. apply (Hinv (S i) (S j)); [lia|done..].
  - intros [Hhead Htail] [|i] [|j] a b Hij Ha Hb Hna Hnb; cbn in Ha, Hb.
    + done.
    + injection Ha as <-. apply Hhead; [done| |done]. by eapply list_elem_of_lookup_2.
    + injection Hb as <-. intros Heq. symmetry in Heq. revert Heq.
      apply Hhead; [done| |done]. by eapply list_elem_of_lookup_2.
    + apply (Htail i j); [lia|done..].
Qed.

Lemma queueInvariant_NoDup q :
  queueInvariant q <-> NoDup (jobKey <$> filter nonTerminal q).
Proof.
  induction q as [|job q IH]; [split; [constructor|intros _ i j a b _ Ha; done]|].
  rewrite queueInvariant_cons, IH, filter_cons.
  destruct (decide (nonTerminal job)) as [Hn|Hn].
  - rewrite fmap_cons, NoDup_cons. split.
    + intros [Hhead Hnd]. split; [|done].
      intros (b & Heq & [Hb Hin]%list_elem_of_filter)%list_elem_of_fmap.
      by apply (Hhead Hn b Hin Hb).
    + intros [Hnot Hnd]. split; [|done]. intros _ b Hin Hb Heq. apply Hnot.
      apply list_elem_of_fmap. exists b. split; [done|]. by apply list_elem_of_filter.
  - split; [by intros [_ ?]|]. intros Hnd. split; [|done]. by intros Hn'.
Qed.

Lemma queueInvariant_filter (P : Job -> Prop) `{!forall j, Decision (P j)} q :
  queueInvariant q -> queueInvariant (filter P q).
Proof.
  rewrite !queueInvariant_NoDup. intros Hnd.
  eapply sublist_NoDup; [exact Hnd|]. apply fmap_sublist.
  rewrite list_filter_filter.
  rewrite (list_filter_iff _ (fun a => P a /\ nonTerminal a)) by (intros; tauto).
  rewrite <- list_filter_filter. apply sublist_filter.
Qed.
End queue_invariant.

(** ** Fetch client: attempts, back-off and the server's headers *)

Section fetch_progress.
Context (env : Env).
Implicit Types (w : World).

Lemma waitForRateLimit_loop_wait (fuel : nat) w :
  ~ 0 < remainingRequests (rateLimitState (st (resetIfExpired w))) ->
  waitForRateLimit_loop env (S fuel) w
  = waitForRateLimit_loop env fuel
      (sleep env (Z.max 0 (resetTime (rateLimitState (st (resetIfExpired w))) - clock w) + 100)
         (resetIfExpired w)).
Proof. intros Hrem. cbn [waitForRateLimit_loop]. by rewrite decide_False. Qed.

Lemma waitForRateLimit_waits_for_reset w :
  remainingRequests (rateLimitState (st w)) <= 0 ->
  resetTime (rateLimitState (st w)) <= clock (waitForRateLimit env w).
Proof.
  intros Hrem.
  destruct (waitForRateLimit_spec env w) as (_ & Hck & _). cbn zeta in Hck.
  destruct (decide (resetTime (rateLimitState (st w)) <= clock w)) as [Hexp|Hexp]; [lia|].
  destruct (resetIfExpired_spec w) as (Hc & _ & _ & _ & _ & _ & _ & Hsame & _).
  cbn zeta in *. specialize (Hsame ltac:(lia)).
  unfold waitForRateLimit. rewrite waitForRateLimit_loop_wait by (rewrite Hsame; lia).
  rewrite Hsame.
  set (ms := Z.max 0 (resetTime (rateLimitState (st w)) - clock w) + 100).
  assert (Hms : resetTime (rateLimitState (st w)) - clock w + 100 <= ms) by (subst ms; lia).
  clearbody ms.
  destruct (sleep_spec env ms (resetIfExpired w)) as (Hst & _ & _ & Hcl). cbn zeta in Hst, Hcl.
  destruct (waitForRateLimit_pass env (sleep env ms (resetIfExpired w)) 0)
    as (w' & -> & _ & Hck' & _).
  { destruct (resetIfExpired_spec (sleep env ms (resetIfExpired w)))
      as (_ & _ & _ & _ & _ & _ & Hexp' & _).
    apply Hexp'. rewrite Hst, Hsame. lia. }
  unfold default, id. lia.
Qed.

Lemma fetchAttempt_progress sub w :
  requests (fetchAttempt env sub w).2 = S (requests w)
  /\ clock w <= clock (fetchAttempt env sub w).2.
Proof.
  unfold fetchAttempt.
  destruct (waitForRateLimit_spec env w) as (_ & Hck & Hrq & _). cbn zeta in *.
  set (w1 := waitForRateLimit env w) in *. clearbody w1.
  unfold doFetch.
  assert (0 <= Z.of_N (latency env (requests w1)) `min` REQUEST_TIMEOUT)
    by (unfold REQUEST_TIMEOUT; lia).
  destruct (decide _); [cbn; split; [congruence|lia]|].
  destruct (net env sub (requests w1)) as [|msg|status hrem hrst children];
    [cbn; split; [congruence|lia]..|].
  repeat case_decide; try destruct (children ≫= _); cbn; split; try congruence; lia.
Qed.

Lemma fetchRetryLoop_progress sub n attempt e w :
  (requests w <= requests (fetchRetryLoop env sub n attempt e w).2 <= requests w + n)%nat
  /\ clock w <= clock (fetchRetryLoop env sub n attempt e w).2
  /\ (forall e', (fetchRetryLoop env sub n attempt e w).1 = inl e' ->
        requests (fetchRetryLoop env sub n attempt e w).2 = (requests w + n)%nat).
Proof.
  revert attempt e w. induction n as [|n IH]; intros attempt e w.
  { cbn. split_and!; try lia. }
  cbn [fetchRetryLoop].
  destruct (fetchAttempt_progress sub w) as (Hrq & Hck).
  destruct (fetchAttempt env sub w) as [[e1|posts] w1]; cbn [fst snd] in *.
  2:{ split_and!; try lia. intros e' [=]. }
  set (w2 := match n with O => w1 | S _ => sleep env (RETRY_DELAY_MS * 2 ^ attempt) w1 end).
  assert (Hw2 : requests w2 = requests w1 /\ clock w1 <= clock w2).
  { subst w2. destruct n; [split; [done|lia]|].
    destruct (sleep_spec env (RETRY_DELAY_MS * 2 ^ attempt) w1) as (_ & Hr & _ & Hc).
    cbn zeta in *. split; [done|lia]. }
  clearbody w2. destruct Hw2 as (Hr2 & Hc2).
  destruct (IH (attempt + 1) e1 w2) as (Ha & Hb & Hc).
  split_and!; try lia. intros e' He'. rewrite (Hc e' He'). lia.
Qed.

Lemma fetchRetryLoop_backoff sub n attempt e w e' :
  0 <= attempt ->
  (fetchRetryLoop env sub (S n) attempt e w).1 = inl e' ->
  clock w + RETRY_DELAY_MS * (2 ^ (attempt + Z.of_nat n) - 2 ^ attempt)
  <= clock (fetchRetryLoop env sub (S n) attempt e w).2.
Proof.
  revert attempt e w. induction n as [|n IH]; intros attempt e w Hat.
  { intros _. replace (attempt + Z.of_nat 0) with attempt by lia.
    destruct (fetchRetryLoop_progress sub 1 attempt e w) as (_ & Hck & _). lia. }
  remember (S n) as m eqn:Hm.
  cbn [fetchRetryLoop].
  destruct (fetchAttempt_progress sub w) as (_ & Hck).
  destruct (fetchAttempt env sub w) as [[e1|posts] w1]; cbn [fst snd] in *.
  2:{ subst m. cbn. intros [=]. }
  subst m. intros Hfail.
  specialize (IH (attempt + 1) e1 (sleep env (RETRY_DELAY_MS * 2 ^ attempt) w1)
                 ltac:(lia) Hfail).
  destruct (sleep_spec env (RETRY_DELAY_MS * 2 ^ attempt) w1) as (_ & _ & _ & Hc).
  cbn zeta in Hc.
  assert (Hpow : 2 ^ (attempt + Z.of_nat (S n)) = 2 ^ (attempt + 1 + Z.of_nat n))
    by (f_equal; lia).
  assert (Hp1 : 2 ^ (attempt + 1) = 2 * 2 ^ attempt) by (rewrite Z.pow_add_r by lia; lia).
  assert (0 < 2 ^ attempt) by (apply Z.pow_pos_nonneg; lia).
  unfold RETRY_DELAY_MS in *. lia.
Qed.
End fetch_progress.

Section fetch_properties.
Implicit Types (w : World).

Lemma fetchAttempt_error env sub w e :
  (fetchAttempt env sub w).1 = inl e -> e ≠ UnknownError.
Proof.
  unfold fetchAttempt, doFetch. cbn zeta.
  destruct (decide _); [by intros [= <-]|].
  destruct (net env sub _) as [|msg|status hrem hrst children]; [by intros [= <-]..|].
  repeat case_decide; try destruct (children ≫= _); by intros [= <-].
Qed.

Lemma fetchRetryLoop_error env sub n attempt e0 w e :
  (fetchRetryLoop env sub (S n) attempt e0 w).1 = inl e -> e ≠ UnknownError.
Proof.
  revert attempt e0 w. induction n as [|n IH]; intros attempt e0 w.
  - cbn [fetchRetryLoop]. pose proof (fetchAttempt_error env sub w) as He.
    destruct (fetchAttempt env sub w) as [[e1|posts] w1]; cbn in *; [|done].
    intros [= <-]. by apply He.
  - remember (S n) as m. cbn [fetchRetryLoop].
    destruct (fetchAttempt env sub w) as [[e1|posts] w1]; [|subst; done].
    subst m. apply IH.
Qed.

(** X1: one call of [fetchFeedWithRetry] issues at most four requests,
    whatever the network does and whatever [retryCount] is, and the
    clock never runs backwards over it. *)
Theorem fetchFeedWithRetry_bounded_attempts (env : Env) (popularFeed : bool)
    (subreddit : option string) (retryCount : Z) (w : World) :
  let w' := (fetchFeedWithRetry env popularFeed subreddit retryCount w).2 in
  (requests w <= requests w' <= requests w + 4)%nat /\ clock w <= clock w'.
Proof.
  cbn zeta. unfold fetchFeedWithRetry. cbn zeta.
  set (n := Z.to_nat _). assert (n <= 4)%nat by (subst n; unfold MAX_RETRIES; lia).
  clearbody n.
  destruct (fetchRetryLoop_progress env (if popularFeed then Some "popular" else subreddit)
              n 0 UnknownError w) as (Hrq & Hck & _).
  split; [lia|done].
Qed.

(** X2: a call of [fetchFeedWithRetry] that comes back with an error has
    made every attempt it is allowed: [maxRetries + 1] requests, with
    [maxRetries = min(3, MAX_RETRIES - retryCount)]. Between them it has
    slept the delays 1000, 2000, ... doubling each time, so it has taken
    at least [1000 * (2 ^ maxRetries - 1)] ms, and the error it reports is
    the one of an attempt. *)
Theorem fetchFeedWithRetry_failure_cost (env : Env) (popularFeed : bool)
    (subreddit : option string) (retryCount : Z) (w : World) (e : FetchError) :
  retryCount <= Z.of_nat MAX_RETRIES ->
  (fetchFeedWithRetry env popularFeed subreddit retryCount w).1 = inl e ->
  let maxRetries := Z.min 3 (Z.of_nat MAX_RETRIES - retryCount) in
  let w' := (fetchFeedWithRetry env popularFeed subreddit retryCount w).2 in
  requests w' = (requests w + Z.to_nat (maxRetries + 1))%nat
  /\ clock w + RETRY_DELAY_MS * (2 ^ maxRetries - 1) <= clock w'
  /\ e ≠ UnknownError.
Proof.
  intros Hrc. cbn zeta. unfold fetchFeedWithRetry. cbn zeta.
  set (m := Z.min 3 (Z.of_nat MAX_RETRIES - retryCount)).
  assert (Hm : 0 <= m) by (subst m; lia).
  replace (Z.to_nat (m + 1)) with (S (Z.to_nat m)) by lia.
  set (sub := if popularFeed then Some "popular" else subreddit).
  clearbody m sub. intros Hfail.
  destruct (fetchRetryLoop_progress env sub (S (Z.to_nat m)) 0 UnknownError w) as (_ & _ & Hrq).
  pose proof (fetchRetryLoop_backoff env sub (Z.to_nat m) 0 UnknownError w e ltac:(lia) Hfail)
    as Hck.
  split; [by eapply Hrq|]. split; [|by eapply fetchRetryLoop_error].
  rewrite Z.add_0_l, Z2Nat.id in Hck by done. change (2 ^ 0) with 1 in Hck. lia.
Qed.

(** X2 at a request that times out four times. *)
Lemma fetchFeedWithRetry_failure_cost_witness :
  let r := fetchFeedWithRetry envTimeout false (Some "news") 0 (freshWorld 100000) in
  0 <= Z.of_nat MAX_RETRIES
  /\ r.1 = inl Timeout
  /\ requests r.2 = 4%nat
  /\ 100000 + 7000 <= clock r.2.
Proof.
  intros r.
  destruct (fetchFeedWithRetry_failure_cost envTimeout false (Some "news") 0
              (freshWorld 100000) Timeout ltac:(done) eq_refl) as (Hrq & Hck & _).
  split; [done|]. split; [reflexivity|]. split; [exact Hrq|exact Hck].
Defined.

(** X3: the rate-limit headers of an answer replace the client's own
    bookkeeping. After an attempt that was answered, whatever the status,
    the budget is the server's [X-Ratelimit-Remaining] when the answer has
    that header, and else the client's own count, one less than before the
    request and not below zero; the end of the window is the server's
    [X-Ratelimit-Reset], in milliseconds, when the answer has that header,
    and else what it was. Whenever the budget so left is exhausted, the
    next [waitForRateLimit] does not return before the end of the window;
    and it always returns with a budget and the request interval
    elapsed. *)
Theorem fetchAttempt_obeys_server_headers (env : Env) (sub : option string) (w : World)
    (status : Z) (remaining reset : option Z) (children : option (list (option RawPost))) :
  Z.of_N (latency env (requests w)) < REQUEST_TIMEOUT ->
  net env sub (requests w) = Answered status remaining reset children ->
  let rl0 := rateLimitState (st (waitForRateLimit env w)) in
  let w1 := (fetchAttempt env sub w).2 in
  let rl1 := rateLimitState (st w1) in
  remainingRequests rl1
    = match remaining with
      | Some r => r
      | None => Z.max 0 (remainingRequests rl0 - 1)
      end
  /\ resetTime rl1 = match reset with Some r => r * 1000 | None => resetTime rl0 end
  /\ (remainingRequests rl1 <= 0 -> resetTime rl1 <= clock (waitForRateLimit env w1))
  /\ cleared (waitForRateLimit env w1).
Proof.
  intros Hlat Hnet. cbn zeta.
  split; [|split; [|split; [apply waitForRateLimit_waits_for_reset
                           |by apply waitForRateLimit_spec]]].
  - unfold fetchAttempt, doFetch. cbn zeta.
    destruct (waitForRateLimit_spec env w) as (_ & _ & Hrq & _). cbn zeta in Hrq.
    rewrite Hrq, decide_False, Hnet by lia.
    destruct remaining; repeat case_decide; try destruct (children ≫= _); done.
  - unfold fetchAttempt, doFetch. cbn zeta.
    destruct (waitForRateLimit_spec env w) as (_ & _ & Hrq & _). cbn zeta in Hrq.
    rewrite Hrq, decide_False, Hnet by lia.
    destruct reset; repeat case_decide; try destruct (children ≫= _); done.
Qed.

(** X3 at a first request: an answer that reports an exhausted budget
    and the end of the window, and an answer without the headers. *)
Lemma fetchAttempt_obeys_server_headers_witness :
  let w1 := (fetchAttempt envExhausted (Some "news") (freshWorld 100000)).2 in
  let w2 := (fetchAttempt (envAnswering 200 []) (Some "news") (freshWorld 100000)).2 in
  Z.of_N (latency envExhausted 0) < REQUEST_TIMEOUT
  /\ remainingRequests (rateLimitState (st w1)) = 0
  /\ resetTime (rateLimitState (st w1)) = 200000
  /\ 200000 <= clock (waitForRateLimit envExhausted w1)
  /\ cleared (waitForRateLimit envExhausted w1)
  /\ remainingRequests (rateLimitState (st w2)) = REQUESTS_PER_MINUTE - 1
  /\ resetTime (rateLimitState (st w2)) = 100000 + RATE_LIMIT_RESET_INTERVAL.
Proof.
  intros w1 w2.
  assert (Hlat : Z.of_N (latency envExhausted 0) < REQUEST_TIMEOUT) by reflexivity.
  split; [exact Hlat|].
  destruct (fetchAttempt_obeys_server_headers envExhausted (Some "news") (freshWorld 100000)
              200 (Some 0) (Some 200) (Some []) Hlat eq_refl) as (H1 & H2 & H3 & H4).
  destruct (fetchAttempt_obeys_server_headers (envAnswering 200 []) (Some "news")
              (freshWorld 100000) 200 None None (Some []) Hlat eq_refl)
    as (H5 & H6 & _ & _).
  rewrite H2 in H3.
  split; [exact H1|]. split; [exact H2|].
  split; [apply H3; rewrite H1; done|].
  split; [exact H4|]. split; [exact H5|exact H6].
Defined.
End fetch_properties.

(** ** Scheduler: what a fetch leaves alone *)

Section limiter_frame.
Context (env : Env) {A : Type} (proj : State -> A).
Context (Hproj : forall rl s, proj (set_rateLimitState rl s) = proj s).
Implicit Types (w : World) (s : State).

Lemma resetIfExpired_proj w : proj (st (resetIfExpired w)) = proj (st w).
Proof. unfold resetIfExpired. case_decide; [apply Hproj|done]. Qed.

Lemma waitForRateLimit_loop_proj fuel w w' :
  waitForRateLimit_loop env fuel w = Some w' -> proj (st w') = proj (st w).
Proof.
  revert w. induction fuel as [|fuel IH]; intros w; [done|].
  cbn [waitForRateLimit_loop]. repeat case_decide.
  - intros [= <-]. apply resetIfExpired_proj.
  - intros [= <-]. cbn. apply resetIfExpired_proj.
  - intros ->%IH. cbn. apply resetIfExpired_proj.
Qed.

Lemma waitForRateLimit_proj w : proj (st (waitForRateLimit env w)) = proj (st w).
Proof.
  rewrite <- (waitForRateLimit_loop_proj 2 w (waitForRateLimit env w)); [done|].
  apply waitForRateLimit_returns.
Qed.

Lemma fetchAttempt_proj sub w : proj (st (fetchAttempt env sub w).2) = proj (st w).
Proof.
  rewrite <- (waitForRateLimit_proj w). unfold fetchAttempt, doFetch. cbn zeta.
  destruct (decide _); [done|].
  destruct (net env sub _) as [|msg|status hrem hrst children]; [done..|].
  assert (Hres : forall hrem hrst w0,
             proj (st (updateRateLimitFromHeaders hrem hrst (reserveRequest w0))) = proj (st w0)).
  { intros. cbn. by rewrite !Hproj. }
  repeat case_decide; try destruct (children ≫= _); cbn [snd]; by rewrite Hres.
Qed.

Lemma fetchRetryLoop_proj sub n attempt e w :
  proj (st (fetchRetryLoop env sub n attempt e w).2) = proj (st w).
Proof.
  revert attempt e w. induction n as [|n IH]; intros attempt e w; [done|].
  cbn [fetchRetryLoop]. pose proof (fetchAttempt_proj sub w) as Ha.
  destruct (fetchAttempt env sub w) as [[e'|ps] w1]; [|done].
  rewrite IH. by destruct n.
Qed.
End limiter_frame.

Section pass_spacing.
Context (env : Env).
Implicit Types (w : World) (s : State) (q : list Job) (job : Job).

Lemma spacingInv_same w w' :
  reservations (trace w') = reservations (trace w) ->
  lastRequestTime (rateLimitState (st w')) = lastRequestTime (rateLimitState (st w)) ->
  spacingInv w -> spacingInv w'.
Proof. unfold spacingInv. by intros -> ->. Qed.

Lemma fetchRetryLoop_spacing sub n attempt e w :
  spacingInv w -> spacingInv (fetchRetryLoop env sub n attempt e w).2.
Proof.
  revert attempt e w. induction n as [|n IH]; intros attempt e w Hinv; [done|].
  cbn [fetchRetryLoop]. pose proof (fetchAttempt_spacing env sub w Hinv) as Ha.
  destruct (fetchAttempt env sub w) as [[e'|ps] w1]; [|done].
  apply IH. destruct n; [done|]. by eapply spacingInv_same.
Qed.

Lemma addPostsToPending_rateLimitState fetched ft sub (s : State) :
  rateLimitState (addPostsToPending fetched ft sub s) = rateLimitState s.
Proof. unfold addPostsToPending. cbn zeta. by destruct (getNewPostsOnly _ _ _). Qed.

Lemma executeJob_spacing job w : spacingInv w -> spacingInv (executeJob env job w).2.
Proof.
  intros Hinv. unfold executeJob, fetchFeedWithRetry. repeat case_decide; [..|done].
  - pose proof (fetchRetryLoop_spacing (job_subreddit job)
      (Z.to_nat (Z.min 3 (Z.of_nat MAX_RETRIES - (Z.of_nat (retries job) - 1)) + 1))
      0 UnknownError w Hinv) as Hf.
    destruct (fetchRetryLoop _ _ _ _ _ _) as [[e|ps] w1]; [done|].
    eapply spacingInv_same; [..|exact Hf]; [done|].
    cbn. by rewrite addPostsToPending_rateLimitState.
  - pose proof (fetchRetryLoop_spacing (Some "popular")
      (Z.to_nat (Z.min 3 (Z.of_nat MAX_RETRIES - (Z.of_nat (retries job) - 1)) + 1))
      0 UnknownError w Hinv) as Hf.
    destruct (fetchRetryLoop _ _ _ _ _ _) as [[e|ps] w1]; [done|].
    eapply spacingInv_same; [..|exact Hf]; [done|].
    cbn. by rewrite addPostsToPending_rateLimitState.
Qed.

Lemma scheduleStep_spacing w w' :
  spacingInv w -> scheduleStep env w = Some w' -> spacingInv w'.
Proof.
  intros Hinv. unfold scheduleStep.
  destruct (findRunnable (syncQueue (st w))) as [i|]; [|done]. cbn.
  destruct (syncQueue (st w) !! i) as [job|]; [|done]. cbn.
  case_decide.
  - intros [= <-]. eapply spacingInv_same; [..|exact Hinv]; [|done].
    cbn. by rewrite reservations_snoc, app_nil_r.
  - set (w1 := emit _ _).
    assert (H1 : spacingInv w1).
    { eapply spacingInv_same; [..|exact Hinv]; [|done].
      cbn. by rewrite reservations_snoc, app_nil_r. }
    pose proof (executeJob_spacing (startJob (clock w) job) w1 H1) as H2.
    destruct (executeJob env (startJob (clock w) job) w1) as [ok w2].
    intros [= <-]. eapply spacingInv_same; [..|exact H2]; [|done].
    cbn. by rewrite reservations_snoc, app_nil_r.
Qed.

End pass_spacing.

(** ** Scheduler: the feeds over a pass *)

Section feeds_frame.
Context (env : Env).
Implicit Types (w : World) (s : State).

Lemma fetchRetryLoop_feeds sub n attempt e w :
  feeds (st (fetchRetryLoop env sub n attempt e w).2) = feeds (st w).
Proof. by apply (fetchRetryLoop_proj env feeds). Qed.

(** A job changes the feeds by one staging step at most. *)
Lemma executeJob_feeds job w :
  feeds (st (executeJob env job w).2) = feeds (st w)
  \/ exists fetched ft sub s,
       feeds s = feeds (st w)
       /\ feeds (st (executeJob env job w).2) = feeds (addPostsToPending fetched ft sub s).
Proof.
  unfold executeJob, fetchFeedWithRetry. repeat case_decide; [..|by left].
  - pose proof (fetchRetryLoop_feeds (job_subreddit job)
      (Z.to_nat (Z.min 3 (Z.of_nat MAX_RETRIES - (Z.of_nat (retries job) - 1)) + 1))
      0 UnknownError w) as Hf.
    destruct (fetchRetryLoop _ _ _ _ _ _) as [[e|ps] w1]; [by left|].
    right. by exists ps, MyFeed, (job_subreddit job), (st w1).
  - pose proof (fetchRetryLoop_feeds (Some "popular")
      (Z.to_nat (Z.min 3 (Z.of_nat MAX_RETRIES - (Z.of_nat (retries job) - 1)) + 1))
      0 UnknownError w) as Hf.
    destruct (fetchRetryLoop _ _ _ _ _ _) as [[e|ps] w1]; [by left|].
    right. by exists ps, PopularFeed, None, (st w1).
Qed.

Lemma scheduleStep_feeds w w' :
  scheduleStep env w = Some w' ->
  feeds (st w') = feeds (st w)
  \/ exists fetched ft sub s,
       feeds s = feeds (st w) /\ feeds (st w') = feeds (addPostsToPending fetched ft sub s).
Proof.
  unfold scheduleStep.
  destruct (findRunnable (syncQueue (st w))) as [i|]; [|done]. cbn.
  destruct (syncQueue (st w) !! i) as [job|]; [|done]. cbn.
  case_decide; [intros [= <-]; by left|].
  set (w1 := emit _ _).
  pose proof (executeJob_feeds (startJob (clock w) job) w1) as He.
  destruct (executeJob env (startJob (clock w) job) w1) as [ok w2].
  intros [= <-]. exact He.
Qed.

Lemma getFeed_setFeed_ne ft ft' f fs : ft ≠ ft' -> getFeed ft' (setFeed ft f fs) = getFeed ft' fs.
Proof. by destruct ft, ft'. Qed.

Lemma addPostsToPending_other fetched ft ft' sub s :
  ft ≠ ft' ->
  getFeed ft' (feeds (addPostsToPending fetched ft sub s)) = getFeed ft' (feeds s).
Proof.
  intros Hne. unfold addPostsToPending. cbn zeta.
  destruct (getNewPostsOnly _ _ _); [done|]. cbn. by rewrite getFeed_setFeed_ne.
Qed.

Lemma addPostsToPending_posts fetched ft ft' sub s :
  posts (getFeed ft' (feeds (addPostsToPending fetched ft sub s)))
  = posts (getFeed ft' (feeds s)).
Proof.
  destruct (decide (ft = ft')) as [<-|Hne].
  - apply addPostsToPending_feed.
  - by rewrite addPostsToPending_other.
Qed.

Lemma feedInv_addPostsToPending fetched ft ft' sub s :
  feedInv (getFeed ft' (feeds s)) ->
  feedInv (getFeed ft' (feeds (addPostsToPending fetched ft sub s))).
Proof.
  destruct (decide (ft = ft')) as [<-|Hne]; [|by rewrite addPostsToPending_other].
  unfold addPostsToPending. cbn zeta.
  destruct (getNewPostsOnly _ _ _); [done|]. cbn. rewrite getFeed_setFeed.
  intros (_ & Hs & Hn). by split.
Qed.

Lemma mergePending_nonempty (f : Feed) :
  pending_posts (pending f) ≠ [] -> posts (mergePending f) ≠ [].
Proof.
  intros Hne Hnil. cbn in Hnil.
  pose proof (sortByCreatedDesc_perm
                (removeDuplicates (pending_posts (pending f) ++ posts f))) as Hperm.
  rewrite Hnil in Hperm. apply Permutation_nil_l in Hperm.
  destruct (pending_posts (pending f)) as [|p ps]; [done|].
  unfold removeDuplicates in Hperm. cbn in Hperm.
  by rewrite decide_False in Hperm by set_solver.
Qed.

Lemma feedInv_mergePending (f : Feed) : feedInv (mergePending f).
Proof.
  split; [done|]. split; [apply sortByCreatedDesc_sorted|].
  apply sortByCreatedDesc_NoDup. rewrite removeDuplicates_keepFirst.
  apply keepFirstById_NoDup.
Qed.

Lemma feedInv_filter (P : Post -> Prop) `{!forall p, Decision (P p)} (f : Feed) :
  feedInv f -> feedInv (set_posts (filter P (posts f)) f).
Proof.
  intros (Hc & Hs & Hn). split; [done|]. split.
  - by apply StronglySorted_filter.
  - eapply sublist_NoDup; [exact Hn|]. apply (ids_filter_sublist _).
Qed.

Lemma cleanupOldPostsByAgeFor_getFeed d now s ft :
  getFeed ft (feeds (cleanupOldPostsByAgeFor d now s))
  = set_posts (filter (keptByAgeFor d now (bookmarkedIds s)) (posts (getFeed ft (feeds s))))
      (getFeed ft (feeds s)).
Proof. by destruct ft. Qed.

Lemma feedsInv_cleanupOldPostsByAge now s : feedsInv s -> feedsInv (cleanupOldPostsByAge now s).
Proof.
  intros Hinv ft. unfold cleanupOldPostsByAge. rewrite cleanupOldPostsByAgeFor_getFeed.
  apply (feedInv_filter _), Hinv.
Qed.

Lemma feedsInv_evictOldestFifth s : feedsInv s -> feedsInv (evictOldestFifth s).
Proof.
  intros Hinv ft.
  destruct ft; cbn; [apply (feedInv_filter _), (Hinv MyFeed)|apply (feedInv_filter _), (Hinv PopularFeed)].
Qed.

Lemma feedsInv_cleanupOldPosts write depth size s :
  feedsInv s -> feedsInv (cleanupOldPosts write depth size s).2.
Proof. apply (cleanupOldPosts_invariant feedsInv write feedsInv_evictOldestFifth). Qed.

Lemma rebuildPopularFiltered_getFeed ft s :
  getFeed ft (feeds (rebuildPopularFiltered s)) = getFeed ft (feeds s).
Proof. by destruct ft. Qed.

Lemma feedsInv_merge ft s :
  feedsInv s ->
  feedsInv (set_feeds (setFeed ft (mergePending (getFeed ft (feeds s))) (feeds s)) s).
Proof.
  intros Hinv ft'. cbn. destruct (decide (ft = ft')) as [<-|Hne].
  - rewrite getFeed_setFeed. apply feedInv_mergePending.
  - rewrite getFeed_setFeed_ne by done. apply Hinv.
Qed.

Lemma feedsInv_ext s s' :
  (forall ft, getFeed ft (feeds s') = getFeed ft (feeds s)) -> feedsInv s -> feedsInv s'.
Proof. intros Heq Hinv ft. rewrite Heq. apply Hinv. Qed.

Lemma feedsInv_applyPendingUpdates now s : feedsInv s -> feedsInv (applyPendingUpdates now s).
Proof.
  intros Hinv. unfold applyPendingUpdates. cbn zeta.
  apply feedsInv_cleanupOldPostsByAge.
  set (s1 := match pending_posts (pending (my (feeds s))) with [] => s | _ => _ end).
  assert (H1 : feedsInv s1).
  { subst s1. destruct (pending_posts (pending (my (feeds s)))); [done|].
    by apply (feedsInv_merge MyFeed). }
  clearbody s1. destruct (pending_posts (pending (popular (feeds s1)))); [done|].
  eapply feedsInv_ext; [intros ft; apply rebuildPopularFiltered_getFeed|].
  by apply (feedsInv_merge PopularFeed).
Qed.

Lemma feedsInv_autoApply ft s : feedsInv s -> feedsInv (autoApply ft s).
Proof.
  intros Hinv. unfold autoApply. cbn zeta.
  destruct (posts (getFeed ft (feeds s))); [|done].
  destruct (pending_posts (pending (getFeed ft (feeds s)))); [done|].
  destruct ft; [by apply (feedsInv_merge MyFeed)|].
  eapply feedsInv_ext; [intros ft; apply rebuildPopularFiltered_getFeed|].
  by apply (feedsInv_merge PopularFeed).
Qed.

Lemma feedsInv_feeds s s' : feeds s' = feeds s -> feedsInv s -> feedsInv s'.
Proof. intros Heq Hinv ft. rewrite Heq. apply Hinv. Qed.

Lemma scheduleStep_feedsInv w w' :
  feedsInv (st w) -> scheduleStep env w = Some w' -> feedsInv (st w').
Proof.
  intros Hinv [Heq|(fetched & ft & sub & s & Hs & Heq)]%scheduleStep_feeds.
  - by eapply feedsInv_feeds.
  - eapply feedsInv_feeds; [exact Heq|]. intros ft'.
    apply feedInv_addPostsToPending. rewrite Hs. apply Hinv.
Qed.

Lemma scheduleStep_posts w w' ft :
  scheduleStep env w = Some w' ->
  posts (getFeed ft (feeds (st w'))) = posts (getFeed ft (feeds (st w))).
Proof.
  intros [Heq|(fetched & ft' & sub & s & Hs & Heq)]%scheduleStep_feeds.
  - by rewrite Heq.
  - by rewrite Heq, addPostsToPending_posts, Hs.
Qed.

Lemma feedsInv_afterPass s : feedsInv s -> feedsInv (afterPass env s).
Proof.
  apply afterPass_invariant.
  - apply feedsInv_evictOldestFifth.
  - intros ft. apply feedsInv_autoApply.
  - intros s'. by apply feedsInv_feeds.
Qed.

(** What an auto-apply does to each feed. *)
Lemma autoApply_getFeed ft ft' s :
  let feed := getFeed ft (feeds s) in
  getFeed ft' (feeds (autoApply ft s))
  = if decide (ft = ft' /\ posts feed = [] /\ pending_posts (pending feed) ≠ [])
    then mergePending feed else getFeed ft' (feeds s).
Proof.
  cbn zeta. unfold autoApply. cbn zeta.
  destruct (posts (getFeed ft (feeds s))) eqn:Hp;
    [|rewrite decide_False by (intros (_ & ? & _); done); done].
  destruct (pending_posts (pending (getFeed ft (feeds s)))) eqn:Hq;
    [rewrite decide_False by (intros (_ & _ & ?); done); done|].
  destruct (decide (ft = ft')) as [<-|Hne].
  - rewrite decide_True by done. destruct ft; cbn; done.
  - rewrite decide_False by (intros (? & _); done). destruct ft, ft'; done.
Qed.

(** Each feed over what follows the loop. *)
Lemma afterPass_settledFrom ft s :
  settledFrom (getFeed ft (feeds s)) (getFeed ft (feeds (afterPass env s))).
Proof.
  apply (afterPass_invariant env
           (fun s' => settledFrom (getFeed ft (feeds s)) (getFeed ft (feeds s')))).
  - intros s' Hs'.
    assert (Hsub : posts (getFeed ft (feeds (evictOldestFifth s')))
                   `sublist_of` posts (getFeed ft (feeds s')))
      by (destruct ft; cbn; apply sublist_filter).
    assert (Hpend : pending (getFeed ft (feeds (evictOldestFifth s')))
                    = pending (getFeed ft (feeds s'))) by (by destruct ft).
    destruct Hs' as [[H1 H2]|(H0 & H1 & H2)]; [left|right]; rewrite Hpend.
    + split; [by etrans|done].
    + split; [done|]. split; [by etrans|done].
  - intros ft' s' Hs'. rewrite autoApply_getFeed. cbn zeta.
    case_decide as Hc; [|done]. destruct Hc as (<- & Hp & Hq).
    destruct Hs' as [[H1 H2]|(H0 & H1 & H2)]; [|by rewrite H2 in Hq].
    right. rewrite H2 in Hq. split; [done|]. split; [|done].
    cbn [mergePending posts]. by rewrite Hp, app_nil_r, H2.
  - done.
  - by left.
Qed.

(** In a storage that raises no [QuotaExceededError] every [saveState]
    returns and leaves the state as it is. *)
Lemma saveState_returns write depth s :
  (forall size, write s ≠ QuotaExceededError size) ->
  exists saved, saveState write depth s = (Returned saved, s).
Proof.
  intros Hw. destruct depth; cbn [saveState]; destruct (write s) as [|size|] eqn:E;
    eauto; by destruct (Hw size).
Qed.

Lemma notifyNewPosts_feeds s : feeds (notifyNewPosts s) = feeds s.
Proof.
  unfold notifyNewPosts, showNewPostsToast. destruct (_ || _); [|done].
  by repeat case_decide.
Qed.

Lemma afterPass_no_quota s :
  (forall s' size, setItem env s' ≠ QuotaExceededError size) ->
  afterPass env s = notifyNewPosts (autoApply PopularFeed (autoApply MyFeed s)).
Proof.
  intros Hw.
  assert (Hstep : forall ft s', exists saved,
            autoApplyAndSave env ft s' = (Returned saved, autoApply ft s')).
  { intros ft s'. unfold autoApplyAndSave, autoApply.
    destruct (posts _); [|by exists true]. destruct (pending_posts _); [by exists true|].
    apply saveState_returns, Hw. }
  unfold afterPass.
  destruct (saveState_returns (setItem env) (stackDepth env) s (Hw s)) as (b1 & ->).
  destruct (Hstep MyFeed s) as (b2 & ->).
  by destruct (Hstep PopularFeed (autoApply MyFeed s)) as (b3 & ->).
Qed.

(** What the toast step does. *)
Lemma notifyNewPosts_spec s :
  (toastDue s -> notifyNewPosts s = set_newPostsToast true s)
  /\ (~ toastDue s -> notifyNewPosts s = s).
Proof.
  assert (Hlen : forall l : list Post, bool_decide (0 < length l)%nat = true <-> l ≠ []).
  { intros l. rewrite bool_decide_eq_true. destruct l; cbn; [|split; [done|lia]].
    split; [lia|done]. }
  assert (Hcond : (bool_decide (0 < length (posts (my (feeds s))))%nat
                   && bool_decide (0 < length (pending_posts (pending (my (feeds s)))))%nat)
                  || (bool_decide (0 < length (posts (popular (feeds s))))%nat
                      && bool_decide
                           (0 < length (pending_posts (pending (popular (feeds s)))))%nat)
                  = true
                  <-> (posts (my (feeds s)) ≠ []
                       /\ pending_posts (pending (my (feeds s))) ≠ [])
                      \/ (posts (popular (feeds s)) ≠ []
                          /\ pending_posts (pending (popular (feeds s))) ≠ [])).
  { by rewrite orb_true_iff, !andb_true_iff, !Hlen. }
  unfold notifyNewPosts, showNewPostsToast, toastDue. cbn zeta.
  destruct (_ || _) eqn:Hb.
  - pose proof (proj1 Hcond eq_refl) as Hc. split.
    + intros [_ Hcount]. repeat case_decide; done.
    + intros Hn. repeat case_decide; try done; exfalso; apply Hn; (split; [exact Hc|lia]).
  - split; [|done]. intros [Hc _]. by apply Hcond in Hc.
Qed.

Lemma classic_toastDue s : toastDue s \/ ~ toastDue s.
Proof.
  assert (Hnil : forall l : list Post, l = [] \/ l ≠ []) by (intros [|]; [by left|by right]).
  unfold toastDue.
  destruct (Hnil (posts (my (feeds s)))), (Hnil (pending_posts (pending (my (feeds s))))),
    (Hnil (posts (popular (feeds s)))),
    (Hnil (pending_posts (pending (popular (feeds s))))),
    (decide (0 < count (pending (my (feeds s)))
                 + count (pending (popular (feeds s))))%nat); tauto.
Qed.
End feeds_frame.

Section pass_cost.
Context (env : Env).
Implicit Types (w : World) (s : State) (q : list Job) (job : Job).

Lemma executeJob_requests job w :
  (requests w <= requests (executeJob env job w).2
   <= requests w + Z.to_nat (Z.min 3 (Z.of_nat MAX_RETRIES - (Z.of_nat (retries job) - 1)) + 1))%nat.
Proof.
  unfold executeJob, fetchFeedWithRetry. cbn zeta.
  set (n := Z.to_nat _).
  repeat case_decide; [..|cbn; lia].
  - destruct (fetchRetryLoop_progress env (job_subreddit job) n 0 UnknownError w) as (Hrq & _).
    destruct (fetchRetryLoop _ _ _ _ _ _) as [[e|ps] w1]; cbn in *; lia.
  - destruct (fetchRetryLoop_progress env (Some "popular") n 0 UnknownError w) as (Hrq & _).
    destruct (fetchRetryLoop _ _ _ _ _ _) as [[e|ps] w1]; cbn in *; lia.
Qed.

Lemma queueCost_alter q i j (f : Job -> Job) :
  q !! i = Some j ->
  (queueCost (alter f i q) + jobCost j = queueCost q + jobCost (f j))%nat.
Proof.
  unfold queueCost. revert i. induction q as [|a q IH]; intros i; [done|].
  destruct i as [|i]; cbn.
  - intros [= ->]. lia.
  - intros Hi. specialize (IH i Hi). cbn in IH. lia.
Qed.

Lemma scheduleStep_cost w w' :
  scheduleStep env w = Some w' ->
  (requests w <= requests w'
   /\ requests w' + queueCost (syncQueue (st w')) <= requests w + queueCost (syncQueue (st w)))%nat.
Proof.
  unfold scheduleStep.
  destruct (findRunnable (syncQueue (st w))) as [i|] eqn:Hfind; [|done]. cbn.
  destruct (findRunnable_Some _ _ Hfind) as [(j & Hj & Hrun) _].
  rewrite Hj. cbn.
  assert (Hcost : jobCost j = match retries j with 0 => 9 | 1 => 5 | 2 => 2 | _ => 0 end%nat).
  { unfold jobCost. by rewrite (Is_true_true_1 _ Hrun). }
  destruct (decide (MAX_RETRIES <= retries j)%nat) as [Hmax|Hmax].
  - intros [= <-]. cbn.
    pose proof (queueCost_alter _ _ _ (set_status FailedMaxRetries) Hj) as Hq.
    change (jobCost (set_status FailedMaxRetries j)) with 0%nat in Hq.
    unfold MAX_RETRIES in Hmax. rewrite Hcost in Hq.
    unfold queueCost in *. destruct (retries j) as [|[|[|r]]]; lia.
  - set (w1 := emit _ _).
    pose proof (executeJob_requests (startJob (clock w) j) w1) as Hrq.
    pose proof (executeJob_fetchedOnly env (startJob (clock w) j) w1) as [Hqueue _].
    destruct (executeJob env (startJob (clock w) j) w1) as [ok w2].
    intros [= <-]. cbn in *. rewrite Hqueue, list_alter_alter_eq.
    pose proof (queueCost_alter _ _ _
      (fun x => set_status (if ok then Completed else Failed) (startJob (clock w) j)) Hj) as Hq.
    cbv beta in Hq.
    erewrite (list_alter_ext _ (fun _ => set_status (if ok then Completed else Failed)
                                          (startJob (clock w) j))); [|done..].
    unfold MAX_RETRIES in *.
    assert (jobCost (set_status (if ok then Completed else Failed) (startJob (clock w) j))
            + Z.to_nat (Z.min 3 (Z.of_nat 3 - (Z.of_nat (S (retries j)) - 1)) + 1)
            <= jobCost j)%nat.
    { rewrite Hcost. unfold jobCost. cbn [set_status startJob retries].
      destruct (retries j) as [|[|[|r]]]; destruct (runnable (set_status _ _)); cbv beta iota; lia. }
    unfold queueCost in *. lia.
Qed.

Lemma queueCost_bound q : (queueCost q <= 9 * length (filter runnable q))%nat.
Proof.
  unfold queueCost. induction q as [|j q IH]; [done|].
  rewrite fmap_cons, filter_cons. cbn [sum_list sum_list_with]. unfold jobCost at 1.
  destruct (decide (runnable j)) as [Hr|Hr].
  - rewrite (Is_true_true_1 _ Hr). cbn [length]. unfold id in *.
    destruct (retries j) as [|[|[|r]]]; cbv beta iota; lia.
  - destruct (runnable j); [done|]. unfold id in *. cbv beta iota. lia.
Qed.
End pass_cost.

Section pass_user_data.
Context (env : Env).
Implicit Types (w : World) (s : State).

Lemma addPostsToPending_besideFeeds fetched ft sub s :
  besideFeeds (addPostsToPending fetched ft sub s) = besideFeeds s.
Proof.
  unfold addPostsToPending. cbn zeta. destruct (getNewPostsOnly _ _ _); [done|].
  by destruct ft.
Qed.

Lemma executeJob_besideFeeds job w :
  besideFeeds (st (executeJob env job w).2) = besideFeeds (st w).
Proof.
  unfold executeJob, fetchFeedWithRetry. repeat case_decide; [..|done].
  - pose proof (fetchRetryLoop_proj env besideFeeds (fun _ _ => eq_refl) (job_subreddit job)
      (Z.to_nat (Z.min 3 (Z.of_nat MAX_RETRIES - (Z.of_nat (retries job) - 1)) + 1))
      0 UnknownError w) as Hf.
    destruct (fetchRetryLoop _ _ _ _ _ _) as [[e|ps] w1]; [done|].
    cbn [snd st set_st] in *. by rewrite addPostsToPending_besideFeeds.
  - pose proof (fetchRetryLoop_proj env besideFeeds (fun _ _ => eq_refl) (Some "popular")
      (Z.to_nat (Z.min 3 (Z.of_nat MAX_RETRIES - (Z.of_nat (retries job) - 1)) + 1))
      0 UnknownError w) as Hf.
    destruct (fetchRetryLoop _ _ _ _ _ _) as [[e|ps] w1]; [done|].
    cbn [snd st set_st] in *. by rewrite addPostsToPending_besideFeeds.
Qed.

Lemma scheduleStep_besideFeeds w w' :
  scheduleStep env w = Some w' -> besideFeeds (st w') = besideFeeds (st w).
Proof.
  unfold scheduleStep.
  destruct (findRunnable (syncQueue (st w))) as [i|]; [|done]. cbn.
  destruct (syncQueue (st w) !! i) as [job|]; [|done]. cbn.
  case_decide; [by intros [= <-]|].
  set (w1 := emit _ _).
  pose proof (executeJob_besideFeeds (startJob (clock w) job) w1) as He.
  destruct (executeJob env (startJob (clock w) job) w1) as [ok w2].
  intros [= <-]. exact He.
Qed.

Lemma autoApply_besideFeeds ft s : besideFeeds (autoApply ft s) = besideFeeds s.
Proof.
  unfold autoApply. destruct (posts _); [|done].
  destruct (pending_posts _); [done|]. by destruct ft.
Qed.
End pass_user_data.

(** ** Properties of a scheduler pass *)

Section pass_properties.
Implicit Types (w : World) (s : State) (q : list Job) (job : Job).

Lemma processSyncQueue_pass (env : Env) (w : World) :
  isProcessingQueue (st w) = false ->
  exists w', processSyncQueue env true w = Some w'
    /\ syncQueue (st w') = filter (fun j => status j = Processing) (syncQueue (st w))
    /\ isProcessingQueue (st w') = false.
Proof.
  intros Hidle.
  set (w0 := set_st (set_isProcessingQueue true (st w)) w).
  destruct (scheduleLoop_invariant env
              (fun x => Forall2 slotKept (syncQueue (st w)) (syncQueue (st x)))) with
    (fuel := queueBudget (syncQueue (st w0))) (w := w0)
    as (wl & Hloop & Hkept & Hend).
  { intros x x' Hk Hstep. by eapply scheduleStep_slotKept. }
  { done. }
  { apply Forall2_same_length_lookup_2; [done|]. intros k a b Ha Hb.
    cbn in Hb. rewrite Ha in Hb. injection Hb as <-. by split. }
  apply scheduleStep_None, findRunnable_None in Hend.
  pose proof (pruned_queue _ _ Hkept Hend) as Hpruned.
  eexists. unfold processSyncQueue. rewrite Hidle. cbn [negb]. cbn zeta. fold w0.
  rewrite Hloop. cbn [mbind option_bind]. split; [reflexivity|].
  cbn [st set_st]. rewrite afterPass_syncQueue.
  rewrite (proj1 (afterPass_frame _ _)). split; done.
Qed.

(** X4: a pass of [processSyncQueue] that finds the queue idle always
    returns. It leaves in the queue exactly the jobs it found in status
    processing, untouched and in their order (every other job has been
    run to completion or given up, and pruned), it releases the
    [isProcessingQueue] flag, and a queue without two non-terminal jobs
    of the same kind and source is still one. *)
Theorem processSyncQueue_drains_queue (env : Env) (w : World) :
  isProcessingQueue (st w) = false ->
  exists w', processSyncQueue env true w = Some w'
    /\ syncQueue (st w') = filter (fun j => status j = Processing) (syncQueue (st w))
    /\ isProcessingQueue (st w') = false
    /\ (queueInvariant (syncQueue (st w)) -> queueInvariant (syncQueue (st w'))).
Proof.
  intros Hidle. destruct (processSyncQueue_pass env w Hidle) as (w' & Hpass & Hq & Hflag).
  exists w'. split; [done|]. split; [done|]. split; [done|].
  rewrite Hq. apply queueInvariant_filter.
Qed.

(** X4 on the queue that holds one job for r/news, every request timing
    out: the pass ends with an empty queue. *)
Lemma processSyncQueue_drains_queue_witness :
  isProcessingQueue (st c4_world) = false
  /\ exists w', processSyncQueue envTimeout true c4_world = Some w'
       /\ syncQueue (st w') = [] /\ isProcessingQueue (st w') = false.
Proof.
  split; [reflexivity|].
  destruct (processSyncQueue_drains_queue envTimeout c4_world eq_refl)
    as (w' & Hpass & Hq & Hflag & _).
  exists w'. split; [exact Hpass|]. split; [exact Hq|exact Hflag].
Defined.

(** X5: over a whole pass of the scheduler, retries and back-off waits
    included, any two requests that were answered are reserved at least
    [REQUEST_INTERVAL] ms apart, so no window of a minute holds more than
    [REQUESTS_PER_MINUTE] of them, whatever the network and the server's
    headers are. *)
Theorem processSyncQueue_respects_rate_limit (env : Env) (online : bool) (w w' : World) :
  trace w = [] -> processSyncQueue env online w = Some w' ->
  spacedBy REQUEST_INTERVAL (reservations (trace w'))
  /\ (forall T, (windowCount T (reservations (trace w')) <= Z.to_nat REQUESTS_PER_MINUTE)%nat).
Proof.
  intros Htr Hpass.
  assert (Hinit : spacingInv w).
  { unfold spacingInv. rewrite Htr. split; [apply SSorted_nil|apply Forall_nil_2]. }
  assert (Hfinal : spacingInv w').
  { unfold processSyncQueue in Hpass.
    destruct (isProcessingQueue (st w)); [by injection Hpass as <-|].
    destruct online; [|by injection Hpass as <-]. cbn [negb] in Hpass. cbn zeta in Hpass.
    set (w0 := set_st (set_isProcessingQueue true (st w)) w) in *.
    destruct (scheduleLoop_invariant env spacingInv (scheduleStep_spacing env))
      with (fuel := queueBudget (syncQueue (st w0))) (w := w0)
      as (wl & Hloop & Hwl & _); [done|done|].
    rewrite Hloop in Hpass. cbn [mbind option_bind] in Hpass. injection Hpass as <-.
    eapply spacingInv_same; [..|exact Hwl]; [done|].
    cbn [st set_st]. by rewrite (proj2 (afterPass_frame _ _)). }
  destruct Hfinal as [Hsorted _]. split.
  - intros i j t1 t2 Hij H1 H2.
    exact (StronglySorted_lookup_lt gap _ i j t1 t2 Hsorted Hij H1 H2).
  - intros T. exact (spaced_window_count 1200 _ ltac:(lia) Hsorted 50 T).
Qed.

(** X5 on a queue with one job for r/news against a server that answers
    every request with status 500: the job is run three times, with
    4 + 3 + 2 = 9 requests, all spaced. *)
Lemma processSyncQueue_respects_rate_limit_witness :
  exists w',
    trace c4_world = []
    /\ processSyncQueue (envAnswering 500 []) true c4_world = Some w'
    /\ length (reservations (trace w')) = 9%nat
    /\ spacedBy REQUEST_INTERVAL (reservations (trace w'))
    /\ (windowCount 100000 (reservations (trace w')) <= Z.to_nat REQUESTS_PER_MINUTE)%nat.
Proof.
  destruct (processSyncQueue (envAnswering 500 []) true c4_world) as [w'|] eqn:Hpass;
    [|by vm_compute in Hpass].
  exists w'.
  destruct (processSyncQueue_respects_rate_limit (envAnswering 500 []) true c4_world w'
              eq_refl Hpass) as [Hsp Hwin].
  split; [reflexivity|]. split; [reflexivity|]. split; [|split; [exact Hsp|exact (Hwin 100000)]].
  vm_compute in Hpass. injection Hpass as <-. reflexivity.
Defined.

(** The staging area of a feed only grows, at its end. *)
Lemma scheduleStep_staged (env : Env) (w w' : World) (ft : FeedType) :
  scheduleStep env w = Some w' ->
  exists fetched,
    pending_posts (pending (getFeed ft (feeds (st w'))))
    = pending_posts (pending (getFeed ft (feeds (st w)))) ++ fetched.
Proof.
  intros [Heq|(fetched & ft' & sub & s & Hs & Heq)]%scheduleStep_feeds.
  - exists []. by rewrite Heq, app_nil_r.
  - rewrite Heq, <- Hs. destruct (decide (ft' = ft)) as [->|Hne].
    + eexists. apply addPostsToPending_feed.
    + exists []. by rewrite addPostsToPending_other, app_nil_r.
Qed.

(** X6: what a pass does to the posts on display. The jobs only stage
    what they fetch: they leave the applied posts of a feed alone and
    extend its staging area, from the posts staged before the pass to a
    sequence [staged]. After the loop, in any storage, applied posts are
    only ever taken out (by the eviction that a refused write of
    [saveState] runs), and [staged] is either left as it is or merged
    into a feed without applied posts: its posts sorted newest first,
    one per id. In a storage that raises no [QuotaExceededError] this is
    exact: a feed that had applied posts has the same applied posts after
    the pass and [staged] as staging area; a feed that was empty, when
    [staged] is not, has the posts of [staged] sorted newest first, one
    per id, and an empty staging area; so no feed is left with staged
    posts and nothing applied. And if every feed was sorted newest
    first, with distinct ids and a staging counter that matches, that is
    so after the pass, in any storage. *)
Theorem processSyncQueue_feeds (env : Env) (w w' : World) (ft : FeedType) :
  isProcessingQueue (st w) = false ->
  processSyncQueue env true w = Some w' ->
  let feed := getFeed ft (feeds (st w)) in
  let feed' := getFeed ft (feeds (st w')) in
  (exists fetched,
     let staged := pending_posts (pending feed) ++ fetched in
     let merged := sortByCreatedDesc (removeDuplicates staged) in
     ((posts feed' `sublist_of` posts feed /\ pending_posts (pending feed') = staged)
      \/ (staged ≠ [] /\ posts feed' `sublist_of` merged
          /\ pending feed' = {| pending_posts := []; count := 0 |}))
     /\ ((forall s size, setItem env s ≠ QuotaExceededError size) ->
         (posts feed ≠ [] \/ staged = [] ->
          posts feed' = posts feed /\ pending_posts (pending feed') = staged)
         /\ (posts feed = [] -> staged ≠ [] ->
             posts feed' = merged /\ posts feed' ≠ []
             /\ pending feed' = {| pending_posts := []; count := 0 |})
         /\ (posts feed' ≠ [] \/ pending_posts (pending feed') = [])))
  /\ (feedsInv (st w) -> feedsInv (st w')).
Proof.
  intros Hidle Hpass. cbn zeta.
  unfold processSyncQueue in Hpass. rewrite Hidle in Hpass. cbn [negb] in Hpass.
  cbn zeta in Hpass.
  set (w0 := set_st (set_isProcessingQueue true (st w)) w) in *.
  destruct (scheduleLoop_invariant env
              (fun x => posts (getFeed ft (feeds (st x))) = posts (getFeed ft (feeds (st w)))
                        /\ (exists fetched,
                              pending_posts (pending (getFeed ft (feeds (st x))))
                              = pending_posts (pending (getFeed ft (feeds (st w))))
                                ++ fetched)
                        /\ (feedsInv (st w) -> feedsInv (st x))))
    with (fuel := queueBudget (syncQueue (st w0))) (w := w0)
    as (wl & Hloop & (Hposts & (fetched & Hstaged) & Hinv) & _).
  { intros x x' (Hp & (f1 & Hf1) & Hi) Hstep. split; [|split].
    - by rewrite (scheduleStep_posts env x x' ft Hstep).
    - destruct (scheduleStep_staged env x x' ft Hstep) as (f2 & Hf2).
      exists (f1 ++ f2). by rewrite Hf2, Hf1, app_assoc.
    - intros H0. eapply scheduleStep_feedsInv; [|exact Hstep]. by apply Hi. }
  { done. }
  { split; [done|]. split; [|done]. exists []. by rewrite app_nil_r. }
  rewrite Hloop in Hpass. cbn [mbind option_bind] in Hpass. injection Hpass as <-.
  cbn [st set_st].
  set (s1 := set_isProcessingQueue false (pruneQueue (st wl))).
  assert (Hp1 : posts (getFeed ft (feeds s1)) = posts (getFeed ft (feeds (st w))))
    by exact Hposts.
  assert (Hq1 : pending_posts (pending (getFeed ft (feeds s1)))
                = pending_posts (pending (getFeed ft (feeds (st w)))) ++ fetched)
    by exact Hstaged.
  assert (Hinv1 : feedsInv (st w) -> feedsInv s1) by exact Hinv.
  clearbody s1. clear Hposts Hstaged Hinv Hloop.
  set (f1 := getFeed ft (feeds s1)) in *.
  split; [|intros H0; by apply feedsInv_afterPass, Hinv1].
  exists fetched. cbn zeta. rewrite <- Hq1, <- Hp1. split.
  - destruct (afterPass_settledFrom env ft s1) as [[H1 H2]|(H0 & H1 & H2)];
      fold f1 in H1, H2.
    + left. split; [done|]. by rewrite H2.
    + by right.
  - intros Hw. rewrite (afterPass_no_quota env s1 Hw), notifyNewPosts_feeds.
    assert (Hne : pending_posts (pending f1) ≠ [] ->
              sortByCreatedDesc (removeDuplicates (pending_posts (pending f1))) ≠ []).
    { intros Hq Hnil. pose proof (sortByCreatedDesc_perm
                                    (removeDuplicates (pending_posts (pending f1)))) as Hperm.
      rewrite Hnil in Hperm. apply Permutation_nil_l in Hperm.
      destruct (pending_posts (pending f1)) as [|p ps]; [done|].
      unfold removeDuplicates in Hperm. cbn in Hperm.
      rewrite decide_False in Hperm by apply not_elem_of_empty. done. }
    assert (Hfinal : getFeed ft (feeds (autoApply PopularFeed (autoApply MyFeed s1)))
                     = if decide (posts f1 = [] /\ pending_posts (pending f1) ≠ [])
                       then mergePending f1 else f1).
    { destruct ft.
      - rewrite (autoApply_getFeed PopularFeed MyFeed). cbn zeta.
        rewrite decide_False by (intros [? _]; done).
        rewrite (autoApply_getFeed MyFeed MyFeed). cbn zeta. fold f1.
        repeat case_decide; try done; tauto.
      - rewrite (autoApply_getFeed PopularFeed PopularFeed). cbn zeta.
        rewrite (autoApply_getFeed MyFeed PopularFeed). cbn zeta.
        rewrite (decide_False (P := MyFeed = PopularFeed /\ _)) by (intros [? _]; done).
        fold f1. repeat case_decide; try done; tauto. }
    rewrite Hfinal. split; [|split].
    + intros Hcase. rewrite decide_False by tauto. done.
    + intros Hp Hq. rewrite decide_True by done. cbn [mergePending posts pending].
      rewrite Hp, app_nil_r. split; [done|]. split; [by apply Hne|done].
    + case_decide as Hc.
      * destruct Hc as [Hp Hq]. left. cbn [mergePending posts]. rewrite Hp, app_nil_r.
        by apply Hne.
      * destruct (posts f1); [right|by left].
        destruct (pending_posts (pending f1)); [done|]. exfalso. by apply Hc.
Qed.

(** X6 on the one-job queue, the server answering with one post of
    r/news: the empty feed is populated with it. And on a feed of three
    applied posts, the oldest starred, in a storage that has room for one:
    the write that ends the pass is refused twice, and the feed is left
    with its starred post. *)
Lemma processSyncQueue_feeds_witness :
  let answer := [Some (mkRaw (Some "k1") "news" 6)] in
  let env := envAnswering 200 answer in
  let w2 := set_st (set_syncQueue [c4_job] c7_state) (freshWorld 100000) in
  exists w' w2',
    isProcessingQueue (st c4_world) = false
    /\ processSyncQueue env true c4_world = Some w'
    /\ feedsInv (st c4_world)
    /\ (forall s size, setItem env s ≠ QuotaExceededError size)
    /\ ids (posts (my (feeds (st w')))) = [Some "k1"]
    /\ pending (my (feeds (st w'))) = {| pending_posts := []; count := 0 |}
    /\ feedsInv (st w')
    /\ processSyncQueue (envFull answer) true w2 = Some w2'
    /\ ids (posts (my (feeds (st w2)))) = [Some "n"; Some "o"; Some "s"]
    /\ ids (posts (my (feeds (st w2')))) = [Some "s"]
    /\ ids (pending_posts (pending (my (feeds (st w2'))))) = [Some "staged"; Some "k1"].
Proof.
  intros answer env w2.
  destruct (processSyncQueue env true c4_world) as [w'|] eqn:Hpass;
    [|by vm_compute in Hpass].
  destruct (processSyncQueue (envFull answer) true w2) as [w2'|] eqn:Hpass2;
    [|by vm_compute in Hpass2].
  exists w', w2'.
  assert (Hinv : feedsInv (st c4_world)).
  { intros ft. destruct ft; (split; [reflexivity|split; constructor]). }
  assert (Hw : forall s size, setItem env s ≠ QuotaExceededError size) by done.
  destruct (processSyncQueue_feeds env c4_world w' MyFeed eq_refl Hpass)
    as ((fetched & _ & Hexact) & Hkeep).
  split; [reflexivity|]. split; [reflexivity|]. split; [exact Hinv|]. split; [exact Hw|].
  split; [|split; [|split; [exact (Hkeep Hinv)|]]].
  - vm_compute in Hpass. injection Hpass as <-. reflexivity.
  - vm_compute in Hpass. injection Hpass as <-. reflexivity.
  - split; [reflexivity|]. split; [reflexivity|].
    vm_compute in Hpass2. injection Hpass2 as <-. split; reflexivity.
Defined.

(** X7: the requests of a pass are bounded by the queue it starts on. A
    runnable job is run until its [retries] counter is [MAX_RETRIES], a
    run that starts with [retries = r] makes at most [4 - r] requests: a
    job that was never run costs at most 4 + 3 + 2 = 9 requests, and the
    pass at most 9 requests per runnable job, whatever the network
    does. *)
Theorem processSyncQueue_request_bound (env : Env) (online : bool) (w w' : World) :
  processSyncQueue env online w = Some w' ->
  (requests w <= requests w' <= requests w + queueCost (syncQueue (st w))
   /\ queueCost (syncQueue (st w)) <= 9 * length (filter runnable (syncQueue (st w))))%nat.
Proof.
  intros Hpass. split; [|apply queueCost_bound].
  unfold processSyncQueue in Hpass.
  destruct (isProcessingQueue (st w)); [injection Hpass as <-; lia|].
  destruct online; [|injection Hpass as <-; lia]. cbn [negb] in Hpass. cbn zeta in Hpass.
  set (w0 := set_st (set_isProcessingQueue true (st w)) w) in *.
  destruct (scheduleLoop_invariant env
              (fun x => (requests w <= requests x
                         /\ requests x + queueCost (syncQueue (st x))
                            <= requests w + queueCost (syncQueue (st w)))%nat))
    with (fuel := queueBudget (syncQueue (st w0))) (w := w0)
    as (wl & Hloop & Hinv & _).
  { intros x x' Hx Hstep. apply scheduleStep_cost in Hstep. lia. }
  { done. }
  { split; exact (Nat.le_refl _). }
  rewrite Hloop in Hpass. cbn in Hpass. injection Hpass as <-. cbn [requests set_st]. lia.
Qed.

(** X7 on the one-job queue against a server that always answers with
    status 500: the bound of 9 requests is reached. *)
Lemma processSyncQueue_request_bound_witness :
  exists w',
    processSyncQueue (envAnswering 500 []) true c4_world = Some w'
    /\ queueCost (syncQueue (st c4_world)) = 9%nat
    /\ requests w' = 9%nat
    /\ (requests c4_world <= requests w'
        <= requests c4_world + queueCost (syncQueue (st c4_world)))%nat.
Proof.
  destruct (processSyncQueue (envAnswering 500 []) true c4_world) as [w'|] eqn:Hpass;
    [|by vm_compute in Hpass].
  exists w'.
  destruct (processSyncQueue_request_bound (envAnswering 500 []) true c4_world w' Hpass)
    as [Hb _].
  split; [reflexivity|]. split; [reflexivity|]. split; [|exact Hb].
  vm_compute in Hpass. injection Hpass as <-. reflexivity.
Defined.

(** X8: a pass of the scheduler never touches what belongs to the user:
    the starred posts, the followed and blocked lists, the current view
    and filter, the quota and the update flag are after the pass what
    they were before it, whatever was fetched and whatever the storage
    does. The one flag that a pass may set is the toast for new posts:
    it is either left as it was, or set, and then a feed has applied and
    staged posts and the staging counters are not both zero. In a storage
    that raises no [QuotaExceededError], a pass that runs sets the toast
    exactly when that is the case at its end. *)
Theorem processSyncQueue_keeps_user_data (env : Env) (online : bool) (w w' : World) :
  processSyncQueue env online w = Some w' ->
  userData (st w') = userData (st w)
  /\ (newPostsToast (st w') = newPostsToast (st w)
      \/ newPostsToast (st w') = true /\ toastDue (st w'))
  /\ (isProcessingQueue (st w) = false -> online = true ->
      (forall s size, setItem env s ≠ QuotaExceededError size) ->
      (toastDue (st w') -> newPostsToast (st w') = true)
      /\ (~ toastDue (st w') -> newPostsToast (st w') = newPostsToast (st w))).
Proof.
  intros Hpass. unfold processSyncQueue in Hpass.
  destruct (isProcessingQueue (st w)) eqn:Hidle;
    [injection Hpass as <-; split; [done|]; split; [by left|done]|].
  destruct online; [|injection Hpass as <-; split; [done|]; split; [by left|done]].
  cbn [negb] in Hpass. cbn zeta in Hpass.
  set (w0 := set_st (set_isProcessingQueue true (st w)) w) in *.
  destruct (scheduleLoop_invariant env (fun x => besideFeeds (st x) = besideFeeds (st w)))
    with (fuel := queueBudget (syncQueue (st w0))) (w := w0)
    as (wl & Hloop & Hinv & _).
  { intros x x' Hx Hstep. by rewrite (scheduleStep_besideFeeds env x x' Hstep). }
  { done. }
  { done. }
  rewrite Hloop in Hpass. cbn [mbind option_bind] in Hpass. injection Hpass as <-.
  cbn [st set_st].
  set (s1 := set_isProcessingQueue false (pruneQueue (st wl))).
  assert (H1 : besideFeeds s1 = besideFeeds (st w)) by exact Hinv.
  assert (Ht1 : newPostsToast s1 = newPostsToast (st w)) by exact (f_equal snd H1).
  clearbody s1. clear Hinv Hloop.
  assert (Hevict : forall s, besideFeeds (evictOldestFifth s) = besideFeeds s) by done.
  assert (Hsave : forall s, besideFeeds (saveState (setItem env) (stackDepth env) s).2
                            = besideFeeds s).
  { intros s. apply (saveState_invariant (fun s' => besideFeeds s' = besideFeeds s));
      [|done]. intros s' <-. apply Hevict. }
  assert (Happly : forall ft s, besideFeeds (autoApplyAndSave env ft s).2 = besideFeeds s).
  { intros ft s. apply (autoApplyAndSave_invariant env (fun s' => besideFeeds s' = besideFeeds s));
      [| |done].
    - intros s' <-. apply Hevict.
    - intros s' <-. apply autoApply_besideFeeds. }
  assert (Hnotify : forall s,
            userData (notifyNewPosts s) = userData s
            /\ (newPostsToast (notifyNewPosts s) = newPostsToast s
                \/ newPostsToast (notifyNewPosts s) = true /\ toastDue (notifyNewPosts s))).
  { intros s. destruct (notifyNewPosts_spec s) as [Hdue Hnot].
    destruct (classic_toastDue s) as [Hd|Hd].
    - rewrite (Hdue Hd). split; [done|]. right. done.
    - rewrite (Hnot Hd). split; [done|]. by left. }
  split_and!.
  - transitivity (userData s1); [|exact (f_equal fst H1)].
    apply (afterPass_invariant env (fun s' => userData s' = userData s1)); [| |done|done].
    + intros s' <-. done.
    + intros ft s' <-. exact (f_equal fst (autoApply_besideFeeds ft s')).
  - rewrite <- Ht1. unfold afterPass.
    pose proof (Hsave s1) as E1.
    destruct (saveState _ _ s1) as [[?|] s2]; cbn [snd] in E1;
      [|left; exact (f_equal snd E1)].
    pose proof (Happly MyFeed s2) as E2.
    destruct (autoApplyAndSave env MyFeed s2) as [[?|] s3]; cbn [snd] in E2;
      [|left; exact (f_equal snd (eq_trans E2 E1))].
    pose proof (Happly PopularFeed s3) as E3.
    destruct (autoApplyAndSave env PopularFeed s3) as [[?|] s4]; cbn [snd] in E3;
      [|left; exact (f_equal snd (eq_trans E3 (eq_trans E2 E1)))].
    destruct (Hnotify s4) as [_ [Hsame|Hset]]; [left|by right].
    rewrite Hsame. exact (f_equal snd (eq_trans E3 (eq_trans E2 E1))).
  - intros _ _ Hw. rewrite (afterPass_no_quota env s1 Hw).
    set (s4 := autoApply PopularFeed (autoApply MyFeed s1)).
    assert (E4 : newPostsToast s4 = newPostsToast (st w)).
    { rewrite <- Ht1. unfold s4.
      exact (f_equal snd (eq_trans (autoApply_besideFeeds _ _) (autoApply_besideFeeds _ _))). }
    clearbody s4. destruct (notifyNewPosts_spec s4) as [Hdue Hnot].
    destruct (classic_toastDue s4) as [Hd|Hd].
    + rewrite (Hdue Hd). split; [done|]. intros Hn. exfalso. by apply Hn.
    + rewrite (Hnot Hd). split; [done|]. done.
Qed.

(** X8 on the state with a starred post, applied posts, a staged post
    and one job for r/news, the server answering with a post: the starred
    feed is as it was, and the toast is set. *)
Lemma processSyncQueue_keeps_user_data_witness :
  let env := envAnswering 200 [Some (mkRaw (Some "k1") "news" 6)] in
  let w := set_st (set_syncQueue [c4_job] c7_state) (freshWorld 100000) in
  exists w',
    processSyncQueue env true w = Some w'
    /\ userData (st w') = userData c7_state
    /\ starred_posts (starred (feeds (st w'))) = [mkPost "s" "a" 0]
    /\ newPostsToast c7_state = false
    /\ toastDue (st w')
    /\ newPostsToast (st w') = true.
Proof.
  intros env w.
  destruct (processSyncQueue env true w) as [w'|] eqn:Hpass; [|by vm_compute in Hpass].
  exists w'.
  destruct (processSyncQueue_keeps_user_data env true w w' Hpass) as (Hkeep & _ & Hexact).
  destruct (Hexact eq_refl eq_refl ltac:(done)) as [Hset _].
  assert (Hdue : toastDue (st w')).
  { vm_compute in Hpass. injection Hpass as <-. split; [left; split; done|cbn; lia]. }
  split; [reflexivity|]. split; [exact Hkeep|].
  split; [|split; [reflexivity|split; [exact Hdue|exact (Hset Hdue)]]].
  vm_compute in Hpass. injection Hpass as <-. reflexivity.
Defined.
End pass_properties.

(** ** Merger: invariant and idempotence *)

Section merger_properties.
Implicit Types (s : State).

(** X9: the feed invariant (staging counter equal to the number of
    staged posts, applied posts sorted newest first with distinct ids) is
    kept by staging, by apply, and by both evictions, the occupancy-based
    one over all the rounds that it runs, whatever the storage answers. *)
Theorem feedsInv_preserved (s : State) (fetched : list Post) (ft : FeedType)
    (sub : option string) (now size : Z) (write : State -> SetItem) (depth : nat) :
  feedsInv s ->
  feedsInv (addPostsToPending fetched ft sub s)
  /\ feedsInv (applyPendingUpdates now s)
  /\ feedsInv (cleanupOldPostsByAge now s)
  /\ feedsInv (cleanupOldPosts write depth size s).2.
Proof.
  intros Hinv. split_and!.
  - intros ft'. apply feedInv_addPostsToPending, Hinv.
  - by apply feedsInv_applyPendingUpdates.
  - by apply feedsInv_cleanupOldPostsByAge.
  - by apply feedsInv_cleanupOldPosts.
Qed.

(** X9 at the feed with a starred post at its tail and one staged post. *)
Lemma feedsInv_preserved_witness :
  feedsInv c7_state
  /\ feedsInv (addPostsToPending [mkPost "z" "a" 9] MyFeed (Some "a") c7_state)
  /\ feedsInv (applyPendingUpdates c7_now c7_state)
  /\ feedsInv (cleanupOldPostsByAge c7_now c7_state)
  /\ feedsInv (cleanupOldPosts (writeFullAbove 1 size95) 100 size95 c7_state).2.
Proof.
  assert (Hinv : feedsInv c7_state).
  { intros ft. destruct ft; (split; [reflexivity|split]).
    - repeat constructor; unfold notOlder; cbn; lia.
    - apply (bool_decide_unpack _). vm_compute. exact I.
    - constructor.
    - constructor. }
  split; [exact Hinv|].
  exact (feedsInv_preserved c7_state [mkPost "z" "a" 9] MyFeed (Some "a") c7_now size95
           (writeFullAbove 1 size95) 100 Hinv).
Defined.

Lemma cleanupOldPostsByAgeFor_idempotent d now s :
  cleanupOldPostsByAgeFor d now (cleanupOldPostsByAgeFor d now s)
  = cleanupOldPostsByAgeFor d now s.
Proof.
  unfold cleanupOldPostsByAgeFor. cbn.
  assert (Hf : forall l : list Post,
             filter (keptByAgeFor d now (bookmarkedIds s))
               (filter (keptByAgeFor d now (bookmarkedIds s)) l)
             = filter (keptByAgeFor d now (bookmarkedIds s)) l).
  { intros l. rewrite list_filter_filter. apply list_filter_iff. intros; tauto. }
  unfold bookmarkedIds at 1 3. cbn. fold (bookmarkedIds s). by rewrite !Hf.
Qed.

Lemma applyPendingUpdates_nothing_staged (now : Z) (s : State) :
  pending_posts (pending (getFeed MyFeed (feeds s))) = [] ->
  pending_posts (pending (getFeed PopularFeed (feeds s))) = [] ->
  applyPendingUpdates now s = cleanupOldPostsByAge now s.
Proof. cbn [getFeed]. intros Hm Hp. unfold applyPendingUpdates. cbn zeta. by rewrite Hm, Hp. Qed.

(** X10: applying twice at the same clock is applying once: the second
    call finds nothing staged and nothing further to evict. *)
Theorem applyPendingUpdates_idempotent (now : Z) (s : State) :
  applyPendingUpdates now (applyPendingUpdates now s) = applyPendingUpdates now s.
Proof.
  assert (Hp : forall ft, pending_posts (pending (getFeed ft (feeds (applyPendingUpdates now s))))
                          = []).
  { intros ft. pose proof (applyPendingUpdates_feed ft now s) as H. cbn zeta in H.
    destruct (pending_posts (pending (getFeed ft (feeds s)))) eqn:E.
    - destruct H as [_ ->]. exact E.
    - by destruct H as [_ ->]. }
  rewrite (applyPendingUpdates_nothing_staged now (applyPendingUpdates now s)
             (Hp MyFeed) (Hp PopularFeed)).
  unfold applyPendingUpdates, cleanupOldPostsByAge. cbn zeta.
  apply cleanupOldPostsByAgeFor_idempotent.
Qed.
End merger_properties.

(** ** Persistence *)

Section persistence.
Implicit Types (s : State) (q : list Job) (job : Job).

Lemma validateJob_Some now job job' :
  validateJob now job = Some job' ->
  now - timestamp job <= MAX_JOB_AGE_MS
  /\ status job ≠ FailedMaxRetries /\ status job' ≠ Processing
  /\ status job' ≠ FailedMaxRetries
  /\ sameJob job job'
  /\ (status job = Processing ->
      status job' = Pending /\ retries job' = 0%nat /\ startTime job' = None)
  /\ (status job ≠ Processing -> job' = job).
Proof.
  unfold validateJob. cbn zeta.
  destruct (decide (MAX_JOB_AGE_MS < _)); [done|].
  destruct (decide (status job = Processing)) as [Hp|Hp].
  - cbn. intros [= <-]. cbn. split_and!; try done; try lia. congruence.
  - destruct (decide (status job = FailedMaxRetries)); [done|].
    intros [= <-]. split_and!; try done. lia.
Qed.

Lemma validateJob_None now job :
  validateJob now job = None ->
  MAX_JOB_AGE_MS < now - timestamp job \/ status job = FailedMaxRetries.
Proof.
  unfold validateJob. cbn zeta.
  destruct (decide (MAX_JOB_AGE_MS < _)); [by left|].
  destruct (decide (status job = Processing)) as [Hp|Hp]; [done|].
  destruct (decide (status job = FailedMaxRetries)); [by right|done].
Qed.

Lemma validateJob_keys now q :
  (jobKey <$> filter nonTerminal (omap (validateJob now) q))
    `sublist_of` (jobKey <$> filter nonTerminal q)
  /\ (jobKey <$> omap (validateJob now) q) `sublist_of` (jobKey <$> q).
Proof.
  induction q as [|job q [IH1 IH2]]; [done|]. cbn [omap list_omap].
  destruct (validateJob now job) as [job'|] eqn:E.
  - apply validateJob_Some in E as (_ & Hf & Hp' & Hf' & (_ & Ht & Hs & _) & Hproc & Hsame).
    assert (Hkey : jobKey job' = jobKey job) by (unfold jobKey; congruence).
    assert (Hnt : nonTerminal job' <-> nonTerminal job).
    { destruct (decide (status job = Processing)) as [Hp|Hp].
      - destruct (Hproc Hp) as (Hst & _). unfold nonTerminal. rewrite Hst, Hp. done.
      - by rewrite (Hsame Hp). }
    split; [|rewrite !fmap_cons, Hkey; by apply sublist_skip].
    rewrite !filter_cons. destruct (decide (nonTerminal job')) as [Hn|Hn].
    + rewrite decide_True by (by apply Hnt). rewrite !fmap_cons, Hkey. by apply sublist_skip.
    + rewrite decide_False by (by rewrite <- Hnt). done.
  - split; [|rewrite fmap_cons; by apply sublist_cons].
    rewrite filter_cons. destruct (decide (nonTerminal job)); [|done].
    rewrite fmap_cons. by apply sublist_cons.
Qed.

(** X11: [validateSyncQueue] repairs the queue a previous session left.
    No job is left in status processing (the one status a pass of the
    scheduler never picks up) or failed_max_retries, and none older than
    [MAX_JOB_AGE_MS]. A job that was stuck in processing, if not expired,
    is back as pending with [retries] 0 and no [startTime]; every other
    job that is neither expired nor given up is kept as it is; order is
    kept; and a queue without two non-terminal jobs of the same kind and
    source stays one. *)
Theorem validateSyncQueue_recovers (now : Z) (s : State) :
  queueInvariant (syncQueue s) ->
  let q' := syncQueue (validateSyncQueue now s) in
  queueInvariant q'
  /\ Forall (fun j => status j ≠ Processing /\ status j ≠ FailedMaxRetries
                      /\ now - timestamp j <= MAX_JOB_AGE_MS) q'
  /\ (jobKey <$> q') `sublist_of` (jobKey <$> syncQueue s)
  /\ (forall j, j ∈ syncQueue s -> now - timestamp j <= MAX_JOB_AGE_MS ->
        (status j = Processing ->
           exists j', j' ∈ q' /\ sameJob j j' /\ status j' = Pending
                      /\ retries j' = 0%nat /\ startTime j' = None)
        /\ (status j ≠ Processing -> status j ≠ FailedMaxRetries -> j ∈ q')).
Proof.
  intros Hinv q'. subst q'. cbn [validateSyncQueue set_syncQueue syncQueue].
  destruct (validateJob_keys now (syncQueue s)) as [Hk1 Hk2].
  split_and!.
  - apply queueInvariant_NoDup. eapply sublist_NoDup; [|exact Hk1].
    by apply queueInvariant_NoDup.
  - apply Forall_forall. intros j' (j & Hj & Hv)%list_elem_of_omap.
    apply validateJob_Some in Hv as (Hage & _ & Hp & Hf & (_ & _ & _ & Ht) & _).
    rewrite <- Ht. done.
  - exact Hk2.
  - intros j Hj Hage. split.
    + intros Hp. destruct (validateJob now j) as [j'|] eqn:E.
      * exists j'. pose proof E as (_ & _ & _ & _ & Hsame & Hproc & _)%validateJob_Some.
        destruct (Hproc Hp) as (? & ? & ?).
        split; [apply list_elem_of_omap; by exists j|done].
      * apply validateJob_None in E as [?|?]; [lia|congruence].
    + intros Hp Hf. apply list_elem_of_omap. exists j. split; [done|].
      destruct (validateJob now j) as [j'|] eqn:E.
      * apply validateJob_Some in E as (_ & _ & _ & _ & _ & _ & Hsame). by rewrite Hsame.
      * apply validateJob_None in E as [?|?]; [lia|done].
Qed.

(** X11 at the queue of a session that was cut off: only the stuck job
    survives, reset. *)
Lemma validateSyncQueue_recovers_witness :
  queueInvariant (syncQueue crashedState)
  /\ queueInvariant (syncQueue (validateSyncQueue crashedNow crashedState))
  /\ syncQueue (validateSyncQueue crashedNow crashedState)
     = [ {| job_id := "fetch_subreddit-news-90000000-k3x9"; job_type := "fetch_subreddit";
            job_subreddit := Some "news"; status := Pending; retries := 0;
            timestamp := 90000000; startTime := None |} ].
Proof.
  assert (Hinv : queueInvariant (syncQueue crashedState)).
  { apply queueInvariant_NoDup. apply (bool_decide_unpack _). vm_compute. exact I. }
  split; [exact Hinv|].
  split; [exact (proj1 (validateSyncQueue_recovers crashedNow crashedState Hinv))|].
  reflexivity.
Defined.

Lemma validateSyncQueue_statuses now s :
  Forall (fun j => status j ≠ Processing /\ status j ≠ FailedMaxRetries
                   /\ now - timestamp j <= MAX_JOB_AGE_MS)
         (syncQueue (validateSyncQueue now s)).
Proof.
  apply Forall_forall. intros j' (j & Hj & Hv)%list_elem_of_omap.
  apply validateJob_Some in Hv as (Hage & _ & Hp & Hf & (_ & _ & _ & Ht) & _).
  rewrite <- Ht. done.
Qed.

Lemma unstick_status job : status (unstick job) ≠ Processing.
Proof. unfold unstick. by case_decide. Qed.

(** The queue [loadState] ends with does not depend on the clock its
    own filter reads: what that filter keeps of the given-up jobs,
    [validateSyncQueue] drops. *)
Lemma loadState_queue (nj : nat -> Z) (i : nat) now q :
  omap (validateJob now) (filterOnLoad nj i (unstick <$> q))
  = filter (fun j => status j ≠ FailedMaxRetries /\ now - timestamp j <= MAX_JOB_AGE_MS)
      (unstick <$> q).
Proof.
  revert i. induction q as [|job q IH]; intros i; [done|].
  rewrite fmap_cons. cbn [filterOnLoad]. rewrite filter_cons.
  pose proof (unstick_status job) as Hp. set (u := unstick job) in *. clearbody u.
  assert (Hv : validateJob now u
               = if decide (status u ≠ FailedMaxRetries /\ now - timestamp u <= MAX_JOB_AGE_MS)
                 then Some u else None).
  { unfold validateJob. cbn zeta. rewrite (decide_False (P := status u = Processing)) by done.
    destruct (decide (MAX_JOB_AGE_MS < now - timestamp u)) as [Ha|Ha].
    { rewrite decide_False; [done|]. intros [_ ?]. lia. }
    destruct (decide (status u = FailedMaxRetries)) as [Hf|Hf].
    { rewrite decide_False; [done|]. by intros [? _]. }
    rewrite decide_True; [done|]. split; [done|lia]. }
  destruct (keepOnLoad (nj i) u) eqn:Hk.
  - cbn [omap list_omap]. rewrite Hv, IH. by case_decide.
  - rewrite IH. rewrite decide_False; [done|].
    intros [Hf _]. unfold keepOnLoad in Hk.
    rewrite bool_decide_eq_false_2 in Hk by done. done.
Qed.

(** X12: what a restart brings back. Loading the snapshot that
    [saveState] wrote of a state [s] restores the starred posts, the
    followed and blocked lists, both staging areas, the [lastFetch] maps
    and the update flag as they were; the applied posts come back without
    those that are older than the maximum age and not starred; the cache
    of the popular feed is rebuilt from the saved posts; the queue comes
    back with its stuck jobs reset to pending and without the given-up
    and the expired ones, whatever the clock read while filtering; an
    expired rate-limit window is replaced by a fresh one. What
    [saveState] does not write stays as it is in memory. *)
Theorem loadState_restores_saved (clk : LoadClock) (s s0 : State) :
  let s' := loadState clk (Some (toSave s)) s0 in
  let kept := keptByAge (now_cleanup clk) (bookmarkedIds s) in
  starred_posts (starred (feeds s')) = starred_posts (starred (feeds s))
  /\ subreddits s' = subreddits s /\ blocked s' = blocked s
  /\ blockedUsers s' = blockedUsers s
  /\ pending (my (feeds s')) = pending (my (feeds s))
  /\ pending (popular (feeds s')) = pending (popular (feeds s))
  /\ lastFetch (my (feeds s')) = lastFetch (my (feeds s))
  /\ lastFetch (popular (feeds s')) = lastFetch (popular (feeds s))
  /\ updateAvailable s' = updateAvailable s
  /\ current s' = default "my" (truthy (Some (current s)))
  /\ posts (my (feeds s')) = filter kept (posts (my (feeds s)))
  /\ posts (popular (feeds s')) = filter kept (posts (popular (feeds s)))
  /\ filtered (feeds s') = filtered (feeds (rebuildPopularFiltered s))
  /\ syncQueue s'
     = filter (fun j => status j ≠ FailedMaxRetries
                        /\ now_validate clk - timestamp j <= MAX_JOB_AGE_MS)
         (unstick <$> syncQueue s)
  /\ rateLimitState s'
     = (if decide (resetTime (rateLimitState s) <= now_rate clk)
        then {| lastRequestTime := 0; remainingRequests := REQUESTS_PER_MINUTE;
                resetTime := now_rate clk + RATE_LIMIT_RESET_INTERVAL;
                requestCount := 0 |}
        else rateLimitState s)
  /\ now_rate clk < resetTime (rateLimitState s')
  /\ isProcessingQueue s' = isProcessingQueue s0
  /\ storageQuota s' = storageQuota s0
  /\ state_filter s' = state_filter s0
  /\ currentPage (my (feeds s')) = currentPage (my (feeds s0))
  /\ currentPage (popular (feeds s')) = currentPage (popular (feeds s0)).
Proof.
  cbn zeta.
  assert (Hrl : rateLimitState (loadState clk (Some (toSave s)) s0)
     = (if decide (resetTime (rateLimitState s) <= now_rate clk)
        then {| lastRequestTime := 0; remainingRequests := REQUESTS_PER_MINUTE;
                resetTime := now_rate clk + RATE_LIMIT_RESET_INTERVAL;
                requestCount := 0 |}
        else rateLimitState s)).
  { unfold loadState, restore. cbn. by case_decide. }
  assert (Hq : syncQueue (loadState clk (Some (toSave s)) s0)
     = filter (fun j => status j ≠ FailedMaxRetries
                        /\ now_validate clk - timestamp j <= MAX_JOB_AGE_MS)
         (unstick <$> syncQueue s)).
  { rewrite <- (loadState_queue (now_job clk) 0).
    unfold loadState, restore. cbn. by case_decide. }
  split_and!; try exact Hq; try exact Hrl;
    try (unfold loadState, restore; cbn; by case_decide).
  rewrite Hrl. case_decide; cbn; unfold RATE_LIMIT_RESET_INTERVAL; lia.
Qed.

Lemma loadState_isProcessingQueue clk saved s0 :
  isProcessingQueue (loadState clk saved s0) = isProcessingQueue s0.
Proof.
  unfold loadState, restore. destruct saved as [parsed|]; [|done]. cbn.
  destruct (snap_rateLimitState parsed); [|done]. by case_decide.
Qed.

Lemma loadState_statuses clk saved s0 :
  Forall (fun j => status j ≠ Processing /\ status j ≠ FailedMaxRetries
                   /\ now_validate clk - timestamp j <= MAX_JOB_AGE_MS)
         (syncQueue (loadState clk saved s0)).
Proof. unfold loadState. cbn zeta. apply validateSyncQueue_statuses. Qed.

(** X13: after a restart the first pass that runs online empties the
    queue. Whatever [loadState] was given, it leaves no job in status
    processing, so the pass runs every job to completion or gives it up,
    and prunes it. *)
Theorem processSyncQueue_after_loadState (env : Env) (clk : LoadClock)
    (saved : option Snapshot) (s0 : State) (w : World) :
  isProcessingQueue s0 = false ->
  st w = loadState clk saved s0 ->
  exists w', processSyncQueue env true w = Some w'
    /\ syncQueue (st w') = [] /\ isProcessingQueue (st w') = false.
Proof.
  intros Hidle Hst.
  destruct (processSyncQueue_pass env w) as (w' & Hpass & Hq & Hflag).
  { by rewrite Hst, loadState_isProcessingQueue. }
  exists w'. split; [done|]. split; [|done].
  rewrite Hq, Hst. apply filter_none.
  intros j Hj Hp. pose proof (loadState_statuses clk saved s0) as Hall.
  rewrite Forall_forall in Hall. destruct (Hall j Hj) as [Hnp _]. done.
Qed.

(** X13 at the snapshot of the cut-off session, reloaded while every
    request times out. *)
Lemma processSyncQueue_after_loadState_witness :
  let w := set_st (loadState crashedClock (Some (toSave crashedState)) (initialState 0))
             (freshWorld crashedNow) in
  isProcessingQueue (initialState 0) = false
  /\ length (syncQueue (st w)) = 1%nat
  /\ exists w', processSyncQueue envTimeout true w = Some w'
       /\ syncQueue (st w') = [] /\ isProcessingQueue (st w') = false.
Proof.
  intros w. split; [reflexivity|]. split; [reflexivity|].
  exact (processSyncQueue_after_loadState envTimeout crashedClock
           (Some (toSave crashedState)) (initialState 0) w eq_refl eq_refl).
Defined.
End persistence.

(** ** User actions *)

Section user_actions.
Implicit Types (s : State) (w : World) (p : Post).





Lemma queueSyncJob_cases now rnd type sub s :
  (queued type sub s /\ (queueSyncJob now rnd type sub s).2 = s)
  \/ (~ queued type sub s
      /\ exists job, job_type job = type /\ job_subreddit job = sub /\ status job = Pending
           /\ (queueSyncJob now rnd type sub s).2 = set_syncQueue (syncQueue s ++ [job]) s).
Proof.
  unfold queueSyncJob, queued. destruct (existsb _ _) eqn:Hdup.
  - left. split; [by apply existsb_equivalentJob|done].
  - right. split.
    + intros Hq%existsb_equivalentJob. congruence.
    + eexists. split_and!; [..|reflexivity]; done.
Qed.

Lemma queueSyncJob_queued now rnd type sub s :
  queued type sub (queueSyncJob now rnd type sub s).2
  /\ (forall t x, queued t x s -> queued t x (queueSyncJob now rnd type sub s).2)
  /\ syncQueue s `prefix_of` syncQueue (queueSyncJob now rnd type sub s).2
  /\ subreddits (queueSyncJob now rnd type sub s).2 = subreddits s.
Proof.
  destruct (queueSyncJob_cases now rnd type sub s)
    as [[Hq ->]|(Hn & job & Ht & Hs & Hst & ->)].
  - done.
  - cbn. split_and!; [| |by apply prefix_app_r|done].
    + exists job. split; [apply elem_of_app; right; by left|].
      unfold nonTerminal. by rewrite Hst.
    + intros t x (j & Hj & ?). exists j. split; [apply elem_of_app; by left|done].
Qed.

Lemma refresh_fold (stamp : nat -> Z * string) (subs : list string) (k : nat) s :
  let acc := foldl (fun (acc : nat * State) (sub : string) =>
                      (S acc.1, (queueSyncJob (stamp acc.1).1 (stamp acc.1).2
                                   "fetch_subreddit" (Some sub) acc.2).2))
                   (k, s) subs in
  (queueInvariant (syncQueue s) -> queueInvariant (syncQueue acc.2))
  /\ (forall sub, sub ∈ subs -> queued "fetch_subreddit" (Some sub) acc.2)
  /\ (forall t x, queued t x s -> queued t x acc.2)
  /\ syncQueue s `prefix_of` syncQueue acc.2
  /\ subreddits acc.2 = subreddits s
  /\ ((forall sub, sub ∈ subs -> queued "fetch_subreddit" (Some sub) s) -> acc.2 = s).
Proof.
  revert k s. induction subs as [|sub subs IH]; intros k s.
  { cbn. split_and!; try done. intros sub Hsub. by apply elem_of_nil in Hsub. }
  cbn [foldl fst snd]. cbn zeta.
  set (s1 := (queueSyncJob (stamp k).1 (stamp k).2 "fetch_subreddit" (Some sub) s).2).
  destruct (queueSyncJob_queued (stamp k).1 (stamp k).2 "fetch_subreddit" (Some sub) s)
    as (Hq & Hmono & Hpre & Hsubs). fold s1 in Hq, Hmono, Hpre, Hsubs.
  destruct (IH (S k) s1) as (Hinv' & Hq' & Hmono' & Hpre' & Hsubs' & Hnoop'). cbn zeta in *.
  split_and!.
  - intros Hinv. apply Hinv'. by apply queueSyncJob_invariant.
  - intros x [->|Hx]%elem_of_cons; [by apply Hmono'|by apply Hq'].
  - intros t x Hx. by apply Hmono', Hmono.
  - by etrans.
  - congruence.
  - intros Hall.
    assert (Hs1 : s1 = s).
    { subst s1. destruct (queueSyncJob_cases (stamp k).1 (stamp k).2 "fetch_subreddit"
                            (Some sub) s) as [[_ ->]|[Hn _]]; [done|].
      exfalso. apply Hn, Hall. by left. }
    rewrite Hnoop'; [done|]. rewrite Hs1. intros x Hx. apply Hall. by right.
Qed.

(** X15: [refreshPosts] while offline only queues. Afterwards a job is
    waiting for every followed subreddit and for the popular feed; the
    queue has only grown at its end; no two waiting jobs have the same
    kind and source if that was so before; and refreshing again, at
    whatever time, changes nothing. *)
Theorem refreshPosts_offline (env : Env) (stamp stamp' : nat -> Z * string) (w : World) :
  queueInvariant (syncQueue (st w)) ->
  let w1 := set_st (queueRefreshJobs stamp (st w)) w in
  refreshPosts env false stamp w = Some w1
  /\ queueInvariant (syncQueue (st w1))
  /\ (forall sub, sub ∈ subreddits (st w) -> queued "fetch_subreddit" (Some sub) (st w1))
  /\ queued "fetch_popular" None (st w1)
  /\ syncQueue (st w) `prefix_of` syncQueue (st w1)
  /\ refreshPosts env false stamp' w1 = Some w1.
Proof.
  intros Hinv. cbn zeta. unfold refreshPosts. cbn zeta. cbn [st set_st].
  set (s := st w) in *.
  assert (Hmain : forall stamp0 s0,
    let s1 := queueRefreshJobs stamp0 s0 in
    (queueInvariant (syncQueue s0) -> queueInvariant (syncQueue s1))
    /\ (forall sub, sub ∈ subreddits s0 -> queued "fetch_subreddit" (Some sub) s1)
    /\ queued "fetch_popular" None s1
    /\ syncQueue s0 `prefix_of` syncQueue s1
    /\ subreddits s1 = subreddits s0
    /\ ((forall sub, sub ∈ subreddits s0 -> queued "fetch_subreddit" (Some sub) s0) ->
        queued "fetch_popular" None s0 -> s1 = s0)).
  { intros stamp0 s0. cbn zeta. unfold queueRefreshJobs. cbn zeta.
    destruct (refresh_fold stamp0 (subreddits s0) 0 s0)
      as (Hi & Hq & Hmono & Hpre & Hsubs & Hnoop). cbn zeta in *.
    set (acc := foldl _ _ _) in *. clearbody acc.
    destruct (queueSyncJob_queued (stamp0 acc.1).1 (stamp0 acc.1).2 "fetch_popular" None acc.2)
      as (Hq2 & Hmono2 & Hpre2 & Hsubs2).
    split_and!.
    - intros H0. by apply queueSyncJob_invariant, Hi.
    - intros sub Hsub. by apply Hmono2, Hq.
    - done.
    - by etrans.
    - congruence.
    - intros Hall Hpop. rewrite (Hnoop Hall) in *.
      destruct (queueSyncJob_cases (stamp0 acc.1).1 (stamp0 acc.1).2 "fetch_popular" None s0)
        as [[_ ->]|[Hn _]]; done. }
  destruct (Hmain stamp s) as (Hi & Hq & Hpop & Hpre & Hsubs & _). cbn zeta in *.
  split_and!; try done; [by apply Hi|].
  destruct (Hmain stamp' (queueRefreshJobs stamp s)) as (_ & _ & _ & _ & _ & Hnoop).
  cbn zeta in Hnoop. rewrite Hnoop; [done| |done].
  rewrite Hsubs. exact Hq.
Qed.

(** X15 for two followed subreddits and an empty queue: three jobs are
    queued, and a second refresh adds none. *)
Lemma refreshPosts_offline_witness :
  let w1 := set_st (queueRefreshJobs (stampAt 1000) (st followingWorld)) followingWorld in
  queueInvariant (syncQueue (st followingWorld))
  /\ refreshPosts envTimeout false (stampAt 1000) followingWorld = Some w1
  /\ jobKey <$> syncQueue (st w1)
     = [("fetch_subreddit", Some "news"); ("fetch_subreddit", Some "pics");
        ("fetch_popular", None)]
  /\ queueInvariant (syncQueue (st w1))
  /\ refreshPosts envTimeout false (stampAt 5000) w1 = Some w1.
Proof.
  intros w1.
  assert (Hinv : queueInvariant (syncQueue (st followingWorld))).
  { intros i j a b _ Ha. cbn in Ha. by rewrite lookup_nil in Ha. }
  destruct (refreshPosts_offline envTimeout (stampAt 1000) (stampAt 5000) followingWorld Hinv)
    as (Hr & Hinv' & _ & _ & _ & Hagain).
  split; [exact Hinv|]. split; [exact Hr|]. split; [reflexivity|].
  split; [exact Hinv'|exact Hagain].
Defined.

Lemma elem_of_rebuildPopularFiltered s p :
  p ∈ filtered (feeds (rebuildPopularFiltered s))
  <-> p ∈ posts (popular (feeds s))
      /\ Forall (fun b => toLowerCase b ≠ toLowerCase (post_subreddit p)) (blocked s).
Proof.
  unfold rebuildPopularFiltered. cbn. rewrite list_elem_of_filter.
  rewrite negb_True, existb_True, <- Forall_Exists_neg.
  rewrite !Forall_forall. split.
  - intros [H1 H2]. split; [done|]. intros b Hb Heq. apply (H1 b Hb). by apply bool_decide_pack.
  - intros [H1 H2]. split; [|done]. intros b Hb Heq%bool_decide_unpack. by apply (H2 b).
Qed.



(** X17: unblocking from the list of blocked subreddits. Once confirmed,
    no blocked entry is left that names the subreddit in any case, every
    post of it that the popular feed holds is back in the cache, and for
    the posts of other subreddits nothing changes. *)
Theorem unblockSubreddit_shows (sub : string) (s : State) (p : Post) :
  p ∈ posts (popular (feeds s)) ->
  let s' := unblockSubreddit true sub s in
  Forall (fun b => toLowerCase b ≠ toLowerCase sub) (blocked s')
  /\ (toLowerCase (post_subreddit p) = toLowerCase sub -> p ∈ filtered (feeds s'))
  /\ (toLowerCase (post_subreddit p) ≠ toLowerCase sub ->
        (p ∈ filtered (feeds s') <-> p ∈ filtered (feeds (rebuildPopularFiltered s)))).
Proof.
  intros Hp. cbn zeta. unfold unblockSubreddit.
  assert (Hb : Forall (fun b => toLowerCase b ≠ toLowerCase sub)
                 (filter (fun x => toLowerCase x ≠ toLowerCase sub) (blocked s))).
  { apply Forall_forall. by intros b [? _]%list_elem_of_filter. }
  split_and!.
  - exact Hb.
  - intros Heq. apply elem_of_rebuildPopularFiltered. split; [done|]. cbn. by rewrite Heq.
  - intros Hne. rewrite !elem_of_rebuildPopularFiltered. cbn.
    rewrite !Forall_forall. split; intros [? Hall]; (split; [done|]).
    + intros b Hb' Heq. apply (Hall b); [|done]. apply list_elem_of_filter. split; [|done].
      congruence.
    + intros b [_ Hb']%list_elem_of_filter. by apply Hall.
Qed.

(** X17 at the same feed with [NEWS] blocked: unblocking [news] shows
    the post of r/News again. *)
Lemma unblockSubreddit_shows_witness :
  let s := set_blocked ["NEWS"] popularState in
  let s' := unblockSubreddit true "news" s in
  mkPost "a1" "News" 5 ∈ posts (popular (feeds s))
  /\ toLowerCase (post_subreddit (mkPost "a1" "News" 5)) = toLowerCase "news"
  /\ blocked s' = []
  /\ mkPost "a1" "News" 5 ∈ filtered (feeds s').
Proof.
  intros s s'.
  assert (H1 : mkPost "a1" "News" 5 ∈ posts (popular (feeds s))) by (by left).
  assert (H2 : toLowerCase (post_subreddit (mkPost "a1" "News" 5)) = toLowerCase "news")
    by reflexivity.
  destruct (unblockSubreddit_shows "news" s (mkPost "a1" "News" 5) H1) as (_ & Hshow & _).
  split; [exact H1|]. split; [exact H2|]. split; [reflexivity|exact (Hshow H2)].
Defined.





Lemma filter_idemp {A} (P : A -> Prop) `{!forall x, Decision (P x)} (l : list A) :
  filter P (filter P l) = filter P l.
Proof. rewrite list_filter_filter. apply list_filter_iff. intros; tauto. Qed.

(** X19: removing a followed subreddit. Once confirmed, the followed
    list has no entry that names it in any case, and the primary feed
    holds no post of it, applied or staged; the staging counter is the
    number of posts still staged, the applied posts are still sorted with
    distinct ids; posts of other subreddits are kept. The popular feed,
    the starred posts and the job queue are as they were, so a job that
    is queued for the subreddit stays queued. Removing the same
    subreddit again changes nothing. *)
Theorem removeSubreddit_removes (sub : string) (s : State) :
  feedsInv s ->
  let s' := removeSubreddit true sub s in
  let other := fun p : Post => toLowerCase (post_subreddit p) ≠ toLowerCase sub in
  feedsInv s'
  /\ Forall (fun x => toLowerCase x ≠ toLowerCase sub) (subreddits s')
  /\ posts (my (feeds s')) = filter other (posts (my (feeds s)))
  /\ pending_posts (pending (my (feeds s'))) = filter other (pending_posts (pending (my (feeds s))))
  /\ Forall other (posts (my (feeds s')) ++ pending_posts (pending (my (feeds s'))))
  /\ popular (feeds s') = popular (feeds s)
  /\ starred (feeds s') = starred (feeds s)
  /\ syncQueue s' = syncQueue s
  /\ removeSubreddit true sub s' = s'.
Proof.
  intros Hinv. cbn zeta. split_and!; try done.
  - intros ft. destruct ft; [|apply (Hinv PopularFeed)].
    destruct (Hinv MyFeed) as (_ & Hs & Hn). cbn in *. split; [done|]. split.
    + by apply StronglySorted_filter.
    + eapply sublist_NoDup; [exact Hn|]. apply (ids_filter_sublist _).
  - apply Forall_forall. by intros x [? _]%list_elem_of_filter.
  - cbn. apply Forall_app. split; apply Forall_forall; by intros x [? _]%list_elem_of_filter.
  - unfold removeSubreddit. cbn. rewrite !filter_idemp. f_equal.
    destruct (decide (toLowerCase (state_filter s) = toLowerCase sub)) as [Heq|Hne].
    + by destruct (decide (toLowerCase "all" = toLowerCase sub)).
    + by rewrite decide_False.
Qed.

(** X19 at the feed of r/a with a staged post: removing [A] empties the
    primary feed and its staging area. *)
Lemma removeSubreddit_removes_witness :
  let s' := removeSubreddit true "A" c7_state in
  feedsInv c7_state
  /\ feedsInv s'
  /\ posts (my (feeds s')) = []
  /\ pending (my (feeds s')) = {| pending_posts := []; count := 0 |}
  /\ starred (feeds s') = starred (feeds c7_state)
  /\ removeSubreddit true "A" s' = s'.
Proof.
  intros s'.
  assert (Hinv0 : feedsInv c7_state).
  { intros ft. destruct ft; (split; [reflexivity|split]).
    - repeat constructor; unfold notOlder; cbn; lia.
    - apply (bool_decide_unpack _). vm_compute. exact I.
    - constructor.
    - constructor. }
  destruct (removeSubreddit_removes "A" c7_state Hinv0)
    as (Hinv & _ & _ & _ & _ & _ & Hst & _ & Hidem).
  split; [exact Hinv0|]. split; [exact Hinv|]. split; [reflexivity|].
  split; [reflexivity|]. split; [exact Hst|exact Hidem].
Defined.
End user_actions.

(** ** Storage quota *)

Section quota.
Local Open Scope Q_scope.

(** X20: the storage quota stays usable. If the quota is positive and
    at most [MAX_SAFE_STORAGE], it is so after [initializeStorageQuota],
    whatever the browser's estimate is (a quota it reports is not
    negative): the occupancy percentage never divides by zero. A missing
    or failing estimate leaves the quota as it is. *)
Theorem initializeStorageQuota_bounds (estimate : option (option Q)) (s : State) :
  0 < storageQuota s -> storageQuota s <= MAX_SAFE_STORAGE ->
  match estimate with Some (Some q) => 0 <= q | _ => True end ->
  let s' := initializeStorageQuota estimate s in
  0 < storageQuota s' /\ storageQuota s' <= MAX_SAFE_STORAGE
  /\ (estimate = None -> s' = s).
Proof.
  intros Hpos Hmax Hq. cbn zeta. unfold initializeStorageQuota.
  destruct estimate as [quota|]; [|done]. cbn zeta.
  set (available := match quota with
                    | Some q => if Qeq_bool q 0 then storageQuota s else q
                    | None => storageQuota s
                    end).
  assert (Hav : 0 < available).
  { subst available. destruct quota as [q|]; [|done].
    destruct (Qeq_bool q 0) eqn:E; [done|].
    apply Qeq_bool_neq in E. apply Qle_lteq in Hq as [Hq|Hq]; [done|].
    exfalso. apply E. by symmetry. }
  clearbody available. cbn [storageQuota set_storageQuota].
  split_and!; [| |done].
  - destruct (Qlt_le_dec _ _); [|done].
    apply Qmult_lt_0_compat; [done|reflexivity].
  - destruct (Qlt_le_dec _ _) as [Hlt|Hle]; [by apply Qlt_le_weak|apply Qle_refl].
Qed.

(** X20 at the initial quota and an estimate of 100 MB: the quota
    becomes [MAX_SAFE_STORAGE]. *)
Lemma initializeStorageQuota_bounds_witness :
  let s' := initializeStorageQuota (Some (Some (inject_Z 100000000))) (initialState 0) in
  0 < storageQuota (initialState 0)
  /\ storageQuota (initialState 0) <= MAX_SAFE_STORAGE
  /\ 0 <= inject_Z 100000000
  /\ 0 < storageQuota s' /\ storageQuota s' <= MAX_SAFE_STORAGE
  /\ storageQuota s' = MAX_SAFE_STORAGE.
Proof.
  intros s'.
  assert (H1 : 0 < storageQuota (initialState 0)) by reflexivity.
  assert (H2 : storageQuota (initialState 0) <= MAX_SAFE_STORAGE) by (by vm_compute).
  assert (H3 : 0 <= inject_Z 100000000) by (by vm_compute).
  destruct (initializeStorageQuota_bounds (Some (Some (inject_Z 100000000))) (initialState 0)
              H1 H2 H3) as (H4 & H5 & _).
  split; [exact H1|]. split; [exact H2|]. split; [exact H3|]. split; [exact H4|].
  split; [exact H5|]. reflexivity.
Defined.
End quota.

(** ** Normalization: media fields *)

Section normalization.

Lemma replace_amp_nonempty (u : string) : u ≠ EmptyString -> replace_amp u ≠ EmptyString.
Proof.
  destruct u as [|c u]; [done|]. intros _. unfold replace_amp. cbn [replace_amp_from].
  by destruct (String.prefix _ _).
Qed.

Lemma truthy_Some (o : option string) (u : string) : truthy o = Some u -> u ≠ EmptyString.
Proof. destruct o as [[|c x]|]; cbn; [done| |done]. by intros [= <-]. Qed.

Lemma galleryItemUrl_nonempty meta media_id u :
  galleryItemUrl meta media_id = Some u -> u ≠ EmptyString.
Proof.
  unfold galleryItemUrl. cbn zeta. unfold or_else at 1.
  destruct (meta !! media_id) as [m|]; cbn [mbind option_bind]; [|done].
  assert (Hs : forall r : GalleryRes,
             (truthy (gr_u r) ≫= fun x => Some (replace_amp x)) = Some u ->
             u ≠ EmptyString).
  { intros r. destruct (truthy (gr_u r)) as [x|] eqn:E; cbn; [|done].
    intros [= <-]. by eapply replace_amp_nonempty, truthy_Some. }
  destruct (gm_p m) as [rs|]; cbn [mbind option_bind].
  - destruct (or_else (List.find _ rs) (last rs)) as [r|]; cbn [mbind option_bind].
    + destruct (truthy (gr_u r) ≫= _) eqn:E.
      * intros [= <-]. by eapply Hs.
      * destruct (gm_s m) as [r'|]; cbn; [apply Hs|done].
    + destruct (gm_s m) as [r'|]; cbn; [apply Hs|done].
  - destruct (gm_s m) as [r'|]; cbn; [apply Hs|done].
Qed.

(** X21: the media fields of a normalized post. It has an audio URL only
    if it has a video URL, and a video URL only if the entry is marked as
    a video; no URL of its gallery is the empty string; its text and link
    are the entry's, or empty when the entry has none. *)
Theorem stripPostData_media (post : RawPost) :
  let p := stripPostData post in
  (is_Some (audio_url p) -> is_Some (video_url p))
  /\ (is_Some (video_url p) -> is_video p = true /\ is_Some (reddit_video post))
  /\ (forall g, gallery p = Some g -> Forall (fun u => u ≠ EmptyString) g)
  /\ selftext p = default EmptyString (raw_selftext post)
  /\ url p = default EmptyString (raw_url post).
Proof.
  cbn zeta. unfold stripPostData. cbn. split_and!.
  - destruct (raw_is_video post), (reddit_video post) as [v|]; cbn; try by intros [? ?].
    destruct (truthy (fallback_url v)); cbn; [eauto|by intros [? ?]].
  - destruct (raw_is_video post), (reddit_video post) as [v|]; cbn; try by intros [? ?].
  - intros g. unfold stripGallery.
    assert (Hprev : match preview_images post with
                    | Some (img :: _) =>
                        or_else (or_else (List.find (fun r => in_band (pr_width r))
                                            (default [] (resolutions img)))
                                         (last (default [] (resolutions img))))
                                (source img)
                        ≫= (fun r => truthy (pr_url r) ≫= fun u => Some [replace_amp u])
                    | _ => None
                    end = Some g -> Forall (fun u => u ≠ EmptyString) g).
    { destruct (preview_images post) as [[|img ?]|]; [done| |done].
      destruct (or_else _ _) as [r|]; cbn; [|done].
      destruct (truthy (pr_url r)) as [x|] eqn:E; cbn; [|done].
      intros [= <-]. apply Forall_singleton. by eapply replace_amp_nonempty, truthy_Some. }
    destruct (gallery_data post) as [items|]; [|exact Hprev].
    destruct (media_metadata post) as [meta|]; [|exact Hprev].
    intros [= <-]. apply Forall_forall. intros u (i & _ & Hu)%list_elem_of_omap.
    by eapply galleryItemUrl_nonempty.
  - by destruct (raw_selftext post) as [[|]|].
  - by destruct (raw_url post) as [[|]|].
Qed.

(** X21 at a hosted video with a preview image. *)
Lemma stripPostData_media_witness :
  let p := stripPostData videoRaw in
  audio_url p = Some "https://v/DASH_AUDIO.mp4"
  /\ is_Some (video_url p)
  /\ is_video p = true
  /\ gallery p = Some ["https://i/p.jpg?a=1&b=2"]
  /\ Forall (fun u => u ≠ EmptyString) ["https://i/p.jpg?a=1&b=2"].
Proof.
  intros p.
  destruct (stripPostData_media videoRaw) as (Haudio & Hvideo & Hgal & _).
  assert (Ha : audio_url p = Some "https://v/DASH_AUDIO.mp4") by reflexivity.
  assert (Hv : is_Some (video_url p)) by (apply Haudio; by eexists).
  split; [exact Ha|]. split; [exact Hv|]. split; [exact (proj1 (Hvideo Hv))|].
  split; [reflexivity|]. exact (Hgal _ eq_refl).
Defined.
End normalization.
